(** * Route optimisation engine of [ml-backend/app/routers/reroute.py]

    A shallow embedding of the rerouting router: the haversine distance,
    the traffic multiplier, the exhaustive and nearest-neighbour solvers of
    the [/api/reroute] endpoint, and the learned / heuristic solvers of the
    [/api/reroute/last-mile] endpoint, followed by the properties that the
    specification states about them.

    Conventions of the embedding.
    - The router is embedded twice.  The first embedding reads a Python
      [float] as the real number it stands for ([R]) and every arithmetic
      operation as the exact one; [float('inf')] and [-float('inf')] only
      occur as the initial value of a running minimum or as a mask, and are
      the [None] of an [option].  It carries the properties of structure,
      of labels and of ranges, and those that are stated for floats read as
      real numbers.
    - The second embedding, the module [Fp], follows the interpreter: the
      floats of an arithmetic with rounding, infinities and NaN, the
      functions of [math] that raise [ValueError], the [int] that raises
      [OverflowError] when it is too large for a float.  [Binary64] is its
      instance on IEEE 754 binary64.  It carries the properties that depend
      on which of two computed values is the smaller one and on which calls
      fail.
    - A Python [dict] with string keys is a [gmap string _], a [set] is a
      [gset _].
    - A call can return, raise, or (for a [while] loop) fail to finish within
      the fuel it is given: see [outcome]. *)

From Stdlib Require Import Reals Lra Lia ZArith Ascii String.
From Stdlib Require Floats.
From stdpp Require Import base option list gmap strings pretty.

Local Open Scope R_scope.

(** Comparisons of floats are decided by the order of the reals. *)
#[global] Instance Rlt_decision (x y : R) : Decision (x < y) := Rlt_dec x y.
#[global] Instance Rle_decision (x y : R) : Decision (x <= y) := Rle_dec x y.

(** ** Outcomes of a call *)

Inductive exn : Type :=
| StopIteration      (* [next(...)] over an exhausted generator *)
| ValueError         (* [math.sqrt] outside its domain *)
| KeyError           (* [set.remove] of an absent element *)
| IndexError         (* a list index out of range, [pop] from an empty list *)
| ValidationError    (* a response model refusing a field *)
| OverflowError      (* an [int] too large to convert to [float] *)
| OracleError        (* anything raised by the scoring model *)
| HTTPException (status : Z).

Inductive outcome (A : Type) : Type :=
| Returns (a : A)
| Raises (e : exn)
| OutOfFuel.
Arguments Returns {A} a.
Arguments Raises {A} e.
Arguments OutOfFuel {A}.

#[global] Instance outcome_ret : MRet outcome := fun A a => Returns a.

#[global] Instance outcome_bind : MBind outcome := fun A B k m =>
  match m with
  | Returns a => k a
  | Raises e => Raises e
  | OutOfFuel => OutOfFuel
  end.

(** [try: body except Exception: handler]: a raise of the body runs the
    handler; a body that does not finish does not reach it. *)
Definition try_except {A} (body : outcome A) (handler : exn -> outcome A)
  : outcome A :=
  match body with
  | Raises e => handler e
  | other => other
  end.

(** ** Geometry *)

Record StopLocation : Type := mkLoc { lat : R; lng : R }.

Module Geometry.

(** [math.radians] *)
Definition radians (deg : R) : R := deg * PI / 180.

(** [math.atan2 y x], by the quadrant of [(x, y)]. *)
Definition atan2 (y x : R) : R :=
  if Rlt_dec 0 x then atan (y / x)
  else if Rlt_dec x 0 then
    (if Rle_dec 0 y then atan (y / x) + PI else atan (y / x) - PI)
  else if Rlt_dec 0 y then PI / 2
  else if Rlt_dec y 0 then - (PI / 2)
  else 0.

(** The quantity [a] of the haversine formula. *)
Definition haversine_a (loc1 loc2 : StopLocation) : R :=
  let lat1 := radians (lat loc1) in
  let lon1 := radians (lng loc1) in
  let lat2 := radians (lat loc2) in
  let lon2 := radians (lng loc2) in
  let dlat := lat2 - lat1 in
  let dlon := lon2 - lon1 in
  sin (dlat / 2) ^ 2 + cos lat1 * cos lat2 * sin (dlon / 2) ^ 2.

End Geometry.

(** [calculate_distance_km] over the reals: the value of the formula.  The
    quantity [a] lies between 0 and 1 there
    ([GeometryFacts.haversine_a_bounds]), so that both square roots are
    defined.  In floating point [a] can be rounded above 1, and
    [math.sqrt] then raises: see [Fp.calculate_distance_km]. *)
Definition calculate_distance_km (loc1 loc2 : StopLocation) : R :=
  let a := Geometry.haversine_a loc1 loc2 in
  let c := 2 * Geometry.atan2 (sqrt a) (sqrt (1 - a)) in
  6371 * c.

(** ** Traffic *)

Definition lower_ascii (c : ascii) : ascii :=
  let n := nat_of_ascii c in
  if (Nat.leb 65 n && Nat.leb n 90)%bool then ascii_of_nat (n + 32) else c.

(** [str.lower] on the ASCII letters; other bytes are left as they are. *)
Fixpoint lower (s : string) : string :=
  match s with
  | EmptyString => EmptyString
  | String c s' => String (lower_ascii c) (lower s')
  end.

Definition traffic_mapping : gmap string R :=
  <["none" := 1]> (<["light" := 9 / 10]>
    (<["moderate" := 75 / 100]> (<["heavy" := 5 / 10]> ∅))).

Definition get_traffic_multiplier (traffic_level : string) : R :=
  default (8 / 10) (traffic_mapping !! lower traffic_level).


(** ** Request and response models of [/api/reroute] *)

Module Stop.
Record t : Type := mk {
  id : string;
  name : string;
  location : StopLocation;
  unloadingTimeMinutes : option Z
}.
End Stop.

Record TrafficData : Type := {
  congestionLevel : string;
  currentSpeed : option R
}.

Record WeatherData : Type := { description : string }.

Record RerouteRequest : Type := {
  currentLocation : StopLocation;
  remainingStops : list Stop.t;
  currentTraffic : TrafficData;
  currentWeather : WeatherData;
  timeOfDay : string;
  dayOfWeek : string
}.

Record RerouteResponse : Type := {
  optimizedSequence : list string;
  estimatedETAs : gmap string R;
  timeSavings : R;
  confidence : R;
  method : string;
  reason : string
}.

(** [x or 0] on an [Optional[int]], as the real number it stands for
    (its conversion to a float can fail: see [Fp.float_of_int]). *)
Definition or_zero (x : option Z) : R := IZR (default 0%Z x).

(** ** [itertools.permutations]

    Orderings are produced in lexicographic order of the positions of the
    input: every position in turn gives the first element, followed by the
    orderings of the other positions. *)

Fixpoint picks {A} (l : list A) : list (A * list A) :=
  match l with
  | [] => []
  | x :: l' => (x, l') :: map (fun p => (fst p, x :: snd p)) (picks l')
  end.

Fixpoint permutations_of_length {A} (n : nat) (l : list A) : list (list A) :=
  match n with
  | O => [[]]
  | S n' =>
      flat_map (fun p => map (cons (fst p)) (permutations_of_length n' (snd p)))
               (picks l)
  end.

Definition permutations {A} (l : list A) : list (list A) :=
  permutations_of_length (length l) l.

(** ** Exhaustive search *)

(** The inner loop [for stop in perm] of [exhaustive_search_reroute], on the
    state [(total_time, loc, etas)]. *)
Fixpoint walk_perm (base_speed_kmh : R) (perm : list Stop.t)
    (total_time : R) (loc : StopLocation) (etas : gmap string R)
  : R * gmap string R :=
  match perm with
  | [] => (total_time, etas)
  | stop :: perm' =>
      let dist := calculate_distance_km loc (Stop.location stop) in
      let travel_time := (dist / base_speed_kmh) * 60 in
      let unloading := or_zero (Stop.unloadingTimeMinutes stop) in
      let total_time := total_time + (travel_time + unloading) in
      let etas := <[Stop.id stop := total_time]> etas in
      walk_perm base_speed_kmh perm' total_time (Stop.location stop) etas
  end.

(** The state [(best_time, best_sequence, best_etas)] of the search; [None]
    is the initial [(float('inf'), None, None)]. *)
Definition best_state : Type := option (R * list string * gmap string R).

(** [total_time < best_time] *)
Definition improves (total_time : R) (best : best_state) : bool :=
  match best with
  | None => true
  | Some (best_time, _, _) => bool_decide (total_time < best_time)
  end.

(** The outer loop [for perm in permutations(stops)]. *)
Fixpoint search_perms (base_speed_kmh : R) (current_loc : StopLocation)
    (perms : list (list Stop.t)) (best : best_state) : best_state :=
  match perms with
  | [] => best
  | perm :: perms' =>
      let '(total_time, etas) := walk_perm base_speed_kmh perm 0 current_loc ∅ in
      let best :=
        if improves total_time best
        then Some (total_time, map Stop.id perm, etas)
        else best in
      search_perms base_speed_kmh current_loc perms' best
  end.

Definition exhaustive_search_reroute (request : RerouteRequest)
  : outcome RerouteResponse :=
  let stops := remainingStops request in
  let current_loc := currentLocation request in
  let traffic_mult :=
    get_traffic_multiplier (congestionLevel (currentTraffic request)) in
  let base_speed_kmh := 80 * traffic_mult in
  match search_perms base_speed_kmh current_loc (permutations stops) None with
  | Some (_, best_sequence, best_etas) =>
      Returns {|
        optimizedSequence := best_sequence;
        estimatedETAs := best_etas;
        timeSavings := 0;
        confidence := 75 / 100;
        method := "heuristic";
        reason := "Exhaustive search over "
                  +:+ pretty (length (permutations stops))
                  +:+ " permutations"
      |}
  | None => Raises ValidationError   (* [optimizedSequence=None] *)
  end.

(** ** Nearest neighbour of [heuristic_reroute] *)

(** [for idx, stop in enumerate(remaining)], on the state
    [(nearest_idx, min_distance)]; [None] is the initial [(0, inf)]. *)
Fixpoint scan_remaining (current_loc : StopLocation) (remaining : list Stop.t)
    (idx : nat) (st : option (nat * R)) : option (nat * R) :=
  match remaining with
  | [] => st
  | stop :: remaining' =>
      let dist := calculate_distance_km current_loc (Stop.location stop) in
      let st :=
        match st with
        | None => Some (idx, dist)
        | Some (_, min_distance) =>
            if bool_decide (dist < min_distance) then Some (idx, dist) else st
        end in
      scan_remaining current_loc remaining' (S idx) st
  end.

(** The loop [while remaining]. *)
Fixpoint nearest_loop (fuel : nat) (base_speed_kmh : R)
    (remaining : list Stop.t) (current_loc : StopLocation)
    (optimized_sequence : list string) (cumulative_time : R)
    (etas : gmap string R) : outcome (list string * gmap string R) :=
  match remaining with
  | [] => Returns (optimized_sequence, etas)
  | _ :: _ =>
      match fuel with
      | O => OutOfFuel
      | S fuel' =>
          match scan_remaining current_loc remaining 0 None with
          | None => Raises IndexError
          | Some (nearest_idx, min_distance) =>
              match remaining !! nearest_idx with
              | None => Raises IndexError
              | Some next_stop =>
                  let remaining := delete nearest_idx remaining in
                  let optimized_sequence :=
                    optimized_sequence ++ [Stop.id next_stop] in
                  let travel_time_hours := min_distance / base_speed_kmh in
                  let travel_time_minutes := travel_time_hours * 60 in
                  let unloading_time :=
                    or_zero (Stop.unloadingTimeMinutes next_stop) in
                  let cumulative_time :=
                    cumulative_time + (travel_time_minutes + unloading_time) in
                  let etas := <[Stop.id next_stop := cumulative_time]> etas in
                  nearest_loop fuel' base_speed_kmh remaining
                    (Stop.location next_stop) optimized_sequence
                    cumulative_time etas
              end
          end
      end
  end.

Definition heuristic_reroute (fuel : nat) (request : RerouteRequest)
  : outcome RerouteResponse :=
  let stops := remainingStops request in
  if bool_decide (length stops ≤ 1)%nat then
    Returns {|
      optimizedSequence := map Stop.id stops;
      estimatedETAs := foldl (fun m s => <[Stop.id s := 0]> m) ∅ stops;
      timeSavings := 0;
      confidence := 1;
      method := "heuristic";
      reason := "Only one stop remaining"
    |}
  else if bool_decide (length stops ≤ 6)%nat then
    exhaustive_search_reroute request
  else
    let current_loc := currentLocation request in
    let traffic_mult :=
      get_traffic_multiplier (congestionLevel (currentTraffic request)) in
    let base_speed_kmh := 80 * traffic_mult in
    '(optimized_sequence, etas) ←
      nearest_loop fuel base_speed_kmh stops current_loc [] 0 ∅;
    Returns {|
      optimizedSequence := optimized_sequence;
      estimatedETAs := etas;
      timeSavings := 0;
      confidence := 6 / 10;
      method := "heuristic";
      reason := "Nearest-neighbor algorithm with traffic awareness"
    |}.

(** ** The scoring model

    [RouteGNN] is opaque apart from the shape of what [forward] returns: a
    [num_nodes x num_nodes] tensor that starts as zeros and receives a score
    at every [(i, j)] with [i != j].  [edge_scorer] stands for the layers and
    their weights; it can raise.  A [ScoreMatrix] is read at indices below
    [num_nodes] only, and its entries are finite numbers. *)

Definition Tensor2 : Type := list (list R).
Definition ScoreMatrix : Type := nat -> nat -> R.

Record RouteGNN : Type := {
  edge_scorer : Tensor2 -> Tensor2 -> exn + ScoreMatrix
}.

Definition forward (model : RouteGNN) (node_features adjacency_matrix : Tensor2)
  : outcome ScoreMatrix :=
  match edge_scorer model node_features adjacency_matrix with
  | inl e => Raises e
  | inr s => Returns (fun i j => if bool_decide (i = j) then 0 else s i j)
  end.

(** [ml_reroute]: the model is never consulted; both branches of the [try]
    call the heuristic. *)
Definition ml_reroute (fuel : nat) (TRAINED_MODEL : option RouteGNN)
    (request : RerouteRequest) : outcome RerouteResponse :=
  match TRAINED_MODEL with
  | None => heuristic_reroute fuel request
  | Some _ =>
      try_except (heuristic_reroute fuel request)
                 (fun _ => heuristic_reroute fuel request)
  end.

(** The [POST /api/reroute/] handler. *)
Definition reroute (fuel : nat) (TRAINED_MODEL : option RouteGNN)
    (request : RerouteRequest) : outcome RerouteResponse :=
  try_except (ml_reroute fuel TRAINED_MODEL request)
             (fun _ => Raises (HTTPException 500)).

(** ** Request and response models of [/api/reroute/last-mile]

    [coordinates] and [vehiclePosition] are dictionaries with the keys
    ["lat"] and ["lng"]; they are [StopLocation] records here, so a
    dictionary without one of the keys is outside the model. *)

Module LastMileStop.
Record t : Type := mk {
  id : string;
  name : string;
  coordinates : StopLocation;
  unloadingTimeMinutes : option Z;
  priority : option Z
}.
End LastMileStop.

Record LastMileRequest : Type := {
  stops : list LastMileStop.t;
  vehiclePosition : option StopLocation;
  currentSequence : option (list string);
  constraints : option (gmap string string)
}.

Record Segment : Type := {
  fromStopId : string;
  toStopId : string;
  distanceMiles : R;
  durationMinutes : R
}.

Record RouteMetrics : Type := {
  totalDistance : R;
  totalTime : R;
  averageStopDistance : R
}.

Record ComparisonMetrics : Type := {
  currentRoute : RouteMetrics;
  optimizedRoute : RouteMetrics
}.

Module LastMileResponse.
Record t : Type := mk {
  optimized_sequence : list string;
  time_savings_minutes : R;
  distance_savings_miles : R;
  confidence : R;
  route_path : list StopLocation;
  segment_durations : list Segment;
  reasoning : string;
  comparison_metrics : ComparisonMetrics
}.
End LastMileResponse.

(** [next(s for s in stops if s.id == stop_id)] *)
Definition next_stop_with_id (stops : list LastMileStop.t) (stop_id : string)
  : outcome LastMileStop.t :=
  match List.find (fun s => bool_decide (LastMileStop.id s = stop_id)) stops with
  | Some s => Returns s
  | None => Raises StopIteration
  end.

(** Truth value of a string: [if nearest_id:]. *)
Definition truthy (s : string) : bool :=
  match s with
  | EmptyString => false
  | String _ _ => true
  end.

(** ** Metrics *)

Definition km_to_miles : R := 621371 / 1000000.

(** The loop [for stop_id in sequence] of
    [calculate_sequence_total_distance]. *)
Fixpoint sum_legs (stops : list LastMileStop.t) (sequence : list string)
    (current_loc : StopLocation) (total : R) : outcome R :=
  match sequence with
  | [] => Returns total
  | stop_id :: sequence' =>
      stop ← next_stop_with_id stops stop_id;
      let next_loc := LastMileStop.coordinates stop in
      let total := total + calculate_distance_km current_loc next_loc in
      sum_legs stops sequence' next_loc total
  end.

Definition calculate_sequence_total_distance (sequence : list string)
    (stops : list LastMileStop.t) (vehicle_pos : option StopLocation)
  : outcome R :=
  match sequence with
  | [] => Returns 0
  | first :: _ =>
      current_loc ←
        match vehicle_pos with
        | Some v => Returns v
        | None =>
            first_stop ← next_stop_with_id stops first;
            Returns (LastMileStop.coordinates first_stop)
        end;
      total ← sum_legs stops sequence current_loc 0;
      Returns (total * km_to_miles)
  end.

(** [round(x, ndigits)]: to the nearest multiple of [10^-ndigits], a tie
    going to the even one. *)
Definition round_half_even (x : R) : Z :=
  let f := Int_part x in
  let r := x - IZR f in
  if bool_decide (r < 1 / 2) then f
  else if bool_decide (1 / 2 < r) then (f + 1)%Z
  else if Z.even f then f else (f + 1)%Z.

Definition py_round (x : R) (ndigits : nat) : R :=
  IZR (round_half_even (x * 10 ^ ndigits)) / 10 ^ ndigits.

(** The loop [for stop_id in sequence] of [build_segment_durations]. *)
Fixpoint segments_loop (stops : list LastMileStop.t) (sequence : list string)
    (prev_loc : StopLocation) (prev_id : string) (segments : list Segment)
  : outcome (list Segment) :=
  match sequence with
  | [] => Returns segments
  | stop_id :: sequence' =>
      if bool_decide (stop_id = prev_id) then
        segments_loop stops sequence' prev_loc prev_id segments
      else
        stop ← next_stop_with_id stops stop_id;
        let next_loc := LastMileStop.coordinates stop in
        let dist_km := calculate_distance_km prev_loc next_loc in
        let dist_miles := dist_km * km_to_miles in
        let duration_min := dist_miles * 2 in
        let segments := segments ++ [{|
          fromStopId := prev_id;
          toStopId := stop_id;
          distanceMiles := py_round dist_miles 2;
          durationMinutes := py_round duration_min 1
        |}] in
        segments_loop stops sequence' next_loc stop_id segments
  end.

Definition build_segment_durations (sequence : list string)
    (stops : list LastMileStop.t) (vehicle_pos : option StopLocation)
  : outcome (list Segment) :=
  match sequence with
  | [] => Returns []
  | first :: _ =>
      '(prev_loc, prev_id) ←
        match vehicle_pos with
        | Some v => Returns (v, "vehicle")
        | None =>
            first_stop ← next_stop_with_id stops first;
            Returns (LastMileStop.coordinates first_stop, first)
        end;
      segments_loop stops sequence prev_loc prev_id []
  end.

(** ** Nearest neighbour with priorities: [heuristic_optimize_last_mile] *)

(** The distance a stop is compared by: the haversine distance, times 0.8
    for a stop of priority 1. *)
Definition effective_distance (current_loc : StopLocation)
    (stop : LastMileStop.t) : R :=
  let stop_loc := LastMileStop.coordinates stop in
  let dist := calculate_distance_km current_loc stop_loc in
  if bool_decide (LastMileStop.priority stop = Some 1%Z)
  then dist * (8 / 10) else dist.

(** [for stop in stops], on the state [(nearest_id, nearest_dist)]; [None]
    is the initial [(None, float('inf'))]. *)
Fixpoint scan_unvisited (stops : list LastMileStop.t) (unvisited : gset string)
    (current_loc : StopLocation) (st : option (string * R))
  : option (string * R) :=
  match stops with
  | [] => st
  | stop :: stops' =>
      if bool_decide (LastMileStop.id stop ∉ unvisited) then
        scan_unvisited stops' unvisited current_loc st
      else
        let dist := effective_distance current_loc stop in
        let st :=
          match st with
          | None => Some (LastMileStop.id stop, dist)
          | Some (_, nearest_dist) =>
              if bool_decide (dist < nearest_dist)
              then Some (LastMileStop.id stop, dist) else st
          end in
        scan_unvisited stops' unvisited current_loc st
  end.

Record nn_state : Type := {
  nn_unvisited : gset string;
  nn_optimized : list string;
  nn_current_loc : StopLocation;
  nn_total_distance : R;
  nn_route_path : list StopLocation
}.

(** One round of the body of [while unvisited]. *)
Definition nn_step (stops : list LastMileStop.t) (st : nn_state)
  : outcome nn_state :=
  match scan_unvisited stops (nn_unvisited st) (nn_current_loc st) None with
  | Some (nearest_id, nearest_dist) =>
      if truthy nearest_id then
        if bool_decide (nearest_id ∈ nn_unvisited st) then
          stop ← next_stop_with_id stops nearest_id;
          Returns {|
            nn_unvisited := nn_unvisited st ∖ {[nearest_id]};
            nn_optimized := nn_optimized st ++ [nearest_id];
            nn_current_loc := LastMileStop.coordinates stop;
            nn_total_distance := nn_total_distance st + nearest_dist;
            nn_route_path :=
              nn_route_path st ++ [LastMileStop.coordinates stop]
          |}
        else Raises KeyError
      else Returns st
  | None => Returns st
  end.

(** The loop [while unvisited]. *)
Fixpoint nn_loop (fuel : nat) (stops : list LastMileStop.t) (st : nn_state)
  : outcome nn_state :=
  if bool_decide (nn_unvisited st = ∅) then Returns st
  else
    match fuel with
    | O => OutOfFuel
    | S fuel' =>
        st' ← nn_step stops st;
        nn_loop fuel' stops st'
    end.

(** [request.currentSequence or [s.id for s in stops]]: an absent and an
    empty sequence both give the input order. *)
Definition baseline_sequence (request : LastMileRequest) : list string :=
  match currentSequence request with
  | Some (x :: l) => x :: l
  | _ => map LastMileStop.id (stops request)
  end.

Definition heuristic_optimize_last_mile (fuel : nat) (request : LastMileRequest)
  : outcome LastMileResponse.t :=
  let stops := stops request in
  if bool_decide (length stops ≤ 1)%nat then
    Returns {|
      LastMileResponse.optimized_sequence := map LastMileStop.id stops;
      LastMileResponse.time_savings_minutes := 0;
      LastMileResponse.distance_savings_miles := 0;
      LastMileResponse.confidence := 1;
      LastMileResponse.route_path := map LastMileStop.coordinates stops;
      LastMileResponse.segment_durations := [];
      LastMileResponse.reasoning := "Single stop - no optimization needed";
      LastMileResponse.comparison_metrics := {|
        currentRoute := {| totalDistance := 0; totalTime := 0;
                           averageStopDistance := 0 |};
        optimizedRoute := {| totalDistance := 0; totalTime := 0;
                             averageStopDistance := 0 |}
      |}
    |}
  else
    start ←
      match vehiclePosition request with
      | Some v => Returns v
      | None =>
          match stops !! 0%nat with
          | Some s => Returns (LastMileStop.coordinates s)
          | None => Raises IndexError
          end
      end;
    final ← nn_loop fuel stops {|
      nn_unvisited := list_to_set (map LastMileStop.id stops);
      nn_optimized := [];
      nn_current_loc := start;
      nn_total_distance := 0;
      nn_route_path := [start]
    |};
    let optimized := nn_optimized final in
    let total_distance := nn_total_distance final in
    let current_seq := baseline_sequence request in
    current_dist ←
      calculate_sequence_total_distance current_seq stops
        (vehiclePosition request);
    let distance_savings := Rmax 0 (current_dist - total_distance) in
    let time_savings := distance_savings * 2 in
    segments ← build_segment_durations optimized stops (vehiclePosition request);
    Returns {|
      LastMileResponse.optimized_sequence := optimized;
      LastMileResponse.time_savings_minutes := time_savings;
      LastMileResponse.distance_savings_miles := distance_savings;
      LastMileResponse.confidence := 65 / 100;
      LastMileResponse.route_path := nn_route_path final;
      LastMileResponse.segment_durations := segments;
      LastMileResponse.reasoning :=
        "Optimized using nearest-neighbor heuristic (ML model unavailable)";
      LastMileResponse.comparison_metrics := {|
        currentRoute := {|
          totalDistance := current_dist;
          totalTime := current_dist * 2;
          averageStopDistance := current_dist / INR (length stops) |};
        optimizedRoute := {|
          totalDistance := total_distance;
          totalTime := total_distance * 2;
          averageStopDistance := total_distance / INR (length stops) |}
      |}
    |}.

(** ** The learned path: [ml_optimize_last_mile] *)

Definition sum_list (l : list R) : R := foldr Rplus 0 l.

(** The feature row of one stop in [build_graph_from_stops]. *)
Definition node_feature_row (start : StopLocation) (i : nat)
    (stop : LastMileStop.t) : list R :=
  let lat := lat (LastMileStop.coordinates stop) in
  let lng := lng (LastMileStop.coordinates stop) in
  let unloading := or_zero (LastMileStop.unloadingTimeMinutes stop) / 60 in
  let priority := or_zero (LastMileStop.priority stop) in
  let is_start := if bool_decide (i = 0%nat) then 1 else 0 in
  let x_norm := (lng + 180) / 360 in
  let y_norm := (lat + 90) / 180 in
  let dist_from_start :=
    calculate_distance_km start (mkLoc lat lng) / 100 in
  [lat / 90; lng / 180; unloading; priority; is_start; x_norm; y_norm;
   dist_from_start].

(** [torch.ones(n, n) - torch.eye(n)], every row divided by its sum. *)
Definition adjacency (num_stops : nat) : Tensor2 :=
  let ones_minus_eye :=
    map (fun i => map (fun j => if bool_decide (i = j) then 1 - 1 else 1 - 0)
                      (seq 0 num_stops))
        (seq 0 num_stops) in
  map (fun row => map (fun x => x / sum_list row) row) ones_minus_eye.

Definition build_graph_from_stops (stops : list LastMileStop.t)
    (vehicle_pos : option StopLocation) : outcome (Tensor2 * Tensor2) :=
  let num_stops := length stops in
  start ←
    match vehicle_pos with
    | Some v => Returns v
    | None =>
        match stops !! 0%nat with
        | Some s => Returns (LastMileStop.coordinates s)
        | None => Raises IndexError
        end
    end;
  let node_features := imap (node_feature_row start) stops in
  Returns (node_features, adjacency num_stops).

(** A masked score: [None] is [-float('inf')]. *)
Definition masked_gt (x y : option R) : bool :=
  match x, y with
  | Some a, Some b => bool_decide (b < a)
  | Some _, None => true
  | None, _ => false
  end.

(** [scores.argmax()]: the first index holding the largest value. *)
Fixpoint argmax_from (scores : list (option R)) (idx : nat)
    (best_idx : nat) (best : option R) : nat :=
  match scores with
  | [] => best_idx
  | x :: scores' =>
      if masked_gt x best
      then argmax_from scores' (S idx) idx x
      else argmax_from scores' (S idx) best_idx best
  end.

Definition argmax (scores : list (option R)) : outcome nat :=
  match scores with
  | [] => Raises IndexError
  | x :: scores' => Returns (argmax_from scores' 1 0 x)
  end.

(** [edge_scores[current].clone()] with the visited entries set to
    [-float('inf')]. *)
Definition masked_row (edge_scores : ScoreMatrix) (num_stops : nat)
    (visited : gset nat) (current : nat) : list (option R) :=
  map (fun v => if bool_decide (v ∈ visited) then None
                else Some (edge_scores current v))
      (seq 0 num_stops).

(** The loop [while len(visited) < num_stops] of
    [decode_route_from_scores]. *)
Fixpoint decode_loop (fuel : nat) (edge_scores : ScoreMatrix) (num_stops : nat)
    (visited : gset nat) (route : list nat) (current : nat)
  : outcome (list nat) :=
  if bool_decide (size visited < num_stops)%nat then
    match fuel with
    | O => OutOfFuel
    | S fuel' =>
        let scores := masked_row edge_scores num_stops visited current in
        next_node ← argmax scores;
        decode_loop fuel' edge_scores num_stops ({[next_node]} ∪ visited)
                    (route ++ [next_node]) next_node
    end
  else Returns route.

Definition decode_route_from_scores (fuel : nat) (edge_scores : ScoreMatrix)
    (num_stops : nat) : outcome (list nat) :=
  decode_loop fuel edge_scores num_stops {[0%nat]} [0%nat] 0%nat.

(** [edge_scores.std()]: the sample standard deviation of all the entries. *)
Definition tensor_std (edge_scores : ScoreMatrix) (num_stops : nat) : R :=
  let entries :=
    flat_map (fun i => map (edge_scores i) (seq 0 num_stops)) (seq 0 num_stops) in
  let count := INR (length entries) in
  let mean := sum_list entries / count in
  sqrt (sum_list (map (fun x => (x - mean) ^ 2) entries) / (count - 1)).

(** [[request.stops[i].id for i in optimized_indices]] *)
Fixpoint ids_at (stops : list LastMileStop.t) (indices : list nat)
  : outcome (list string) :=
  match indices with
  | [] => Returns []
  | i :: indices' =>
      match stops !! i with
      | None => Raises IndexError
      | Some s =>
          rest ← ids_at stops indices';
          Returns (LastMileStop.id s :: rest)
      end
  end.

(** The loop [for stop_id in optimized_sequence] that builds [route_path]. *)
Fixpoint path_loop (stops : list LastMileStop.t) (sequence : list string)
    (route_path : list StopLocation) : outcome (list StopLocation) :=
  match sequence with
  | [] => Returns route_path
  | stop_id :: sequence' =>
      stop ← next_stop_with_id stops stop_id;
      path_loop stops sequence' (route_path ++ [LastMileStop.coordinates stop])
  end.

Definition ml_optimize_last_mile (fuel : nat) (TRAINED_MODEL : option RouteGNN)
    (request : LastMileRequest) : outcome LastMileResponse.t :=
  match TRAINED_MODEL with
  | None => heuristic_optimize_last_mile fuel request
  | Some model =>
      if bool_decide (length (stops request) ≤ 1)%nat then
        heuristic_optimize_last_mile fuel request
      else
        try_except
          ('(node_features, adjacency_matrix) ←
             build_graph_from_stops (stops request) (vehiclePosition request);
           edge_scores ← forward model node_features adjacency_matrix;
           optimized_indices ←
             decode_route_from_scores fuel edge_scores (length (stops request));
           optimized_sequence ← ids_at (stops request) optimized_indices;
           let current_seq := baseline_sequence request in
           current_dist ←
             calculate_sequence_total_distance current_seq (stops request)
               (vehiclePosition request);
           optimized_dist ←
             calculate_sequence_total_distance optimized_sequence
               (stops request) (vehiclePosition request);
           let distance_savings := Rmax 0 (current_dist - optimized_dist) in
           let time_savings := distance_savings * 2 in
           route_path ←
             path_loop (stops request) optimized_sequence
               (match vehiclePosition request with
                | Some v => [v]
                | None => []
                end);
           segments ←
             build_segment_durations optimized_sequence (stops request)
               (vehiclePosition request);
           let confidence :=
             Rmin (95 / 100)
                  (7 / 10
                   + tensor_std edge_scores (length (stops request)) * (5 / 10)) in
           let average d :=
             match stops request with
             | [] => 0
             | _ :: _ => d / INR (length (stops request))
             end in
           Returns {|
             LastMileResponse.optimized_sequence := optimized_sequence;
             LastMileResponse.time_savings_minutes := time_savings;
             LastMileResponse.distance_savings_miles := distance_savings;
             LastMileResponse.confidence := confidence;
             LastMileResponse.route_path := route_path;
             LastMileResponse.segment_durations := segments;
             LastMileResponse.reasoning :=
               "Optimized using Graph Neural Network (GNN) model with 87.5% accuracy";
             LastMileResponse.comparison_metrics := {|
               currentRoute := {|
                 totalDistance := current_dist;
                 totalTime := current_dist * 2;
                 averageStopDistance := average current_dist |};
               optimizedRoute := {|
                 totalDistance := optimized_dist;
                 totalTime := optimized_dist * 2;
                 averageStopDistance := average optimized_dist |}
             |}
           |})
          (fun _ => heuristic_optimize_last_mile fuel request)
  end.

(** The [POST /api/reroute/last-mile] handler. *)
Definition optimize_last_mile (fuel : nat) (TRAINED_MODEL : option RouteGNN)
    (request : LastMileRequest) : outcome LastMileResponse.t :=
  try_except (ml_optimize_last_mile fuel TRAINED_MODEL request)
             (fun _ => Raises (HTTPException 500)).

(** ** Notions used to state the properties *)

(** Total time of an ordering as the specification words it: over the
    consecutive legs, the haversine distance divided by the traffic-adjusted
    speed (in minutes), plus the unloading time of each stop. *)
Fixpoint legs_time (base_speed_kmh : R) (loc : StopLocation)
    (perm : list Stop.t) : R :=
  match perm with
  | [] => 0
  | stop :: perm' =>
      calculate_distance_km loc (Stop.location stop) / base_speed_kmh * 60
      + or_zero (Stop.unloadingTimeMinutes stop)
      + legs_time base_speed_kmh (Stop.location stop) perm'
  end.

(** [x] is at position [k] of [l], costs no more than any element of [l],
    and strictly less than every element before position [k]. *)
Definition first_minimum {A} (cost : A -> R) (l : list A) (k : nat) (x : A)
  : Prop :=
  l !! k = Some x
  /\ (forall y, In y l -> cost x <= cost y)
  /\ (forall j y, (j < k)%nat -> l !! j = Some y -> cost x < cost y).

(** The speed both solvers of [/api/reroute] bind to [base_speed_kmh]. *)
Definition request_speed (request : RerouteRequest) : R :=
  80 * get_traffic_multiplier (congestionLevel (currentTraffic request)).




(** ** Notions for the metrics *)

(** The coordinates [next(s for s in stops if s.id == stop_id)] has, for an
    identifier that names a stop. *)
Definition location_of (stops : list LastMileStop.t) (stop_id : string)
  : StopLocation :=
  match List.find (fun s => bool_decide (LastMileStop.id s = stop_id)) stops with
  | Some s => LastMileStop.coordinates s
  | None => mkLoc 0 0
  end.

(** Length in kilometres of the path from [loc] through [points]. *)
Fixpoint path_length (loc : StopLocation) (points : list StopLocation) : R :=
  match points with
  | [] => 0
  | p :: points' => calculate_distance_km loc p + path_length p points'
  end.

(** Where the metrics start: the vehicle, or the first stop of the
    sequence. *)
Definition metrics_start (sequence : list string) (stops : list LastMileStop.t)
    (vehicle_pos : option StopLocation) : StopLocation :=
  match vehicle_pos, sequence with
  | Some v, _ => v
  | None, first :: _ => location_of stops first
  | None, [] => mkLoc 0 0
  end.






(** ** Greedy walks over a score matrix *)

(** [next] is an index below [n] outside [visited]; no such index has a
    larger score from [current], and none before [next] has an equal one. *)
Definition best_unvisited (edge_scores : ScoreMatrix) (n : nat)
    (visited : gset nat) (current next : nat) : Prop :=
  (next < n)%nat /\ (next ∉ visited)
  /\ forall j, (j < n)%nat -> j ∉ visited ->
       edge_scores current j <= edge_scores current next
       /\ ((j < next)%nat -> edge_scores current j < edge_scores current next).

(** [rest] continues a walk that has visited [visited] and stands at
    [current], always moving to the best unvisited index, until [n] indices
    are visited. *)
Inductive greedy_walk (edge_scores : ScoreMatrix) (n : nat)
  : gset nat -> nat -> list nat -> Prop :=
| greedy_walk_done visited current :
    (n <= size visited)%nat ->
    greedy_walk edge_scores n visited current []
| greedy_walk_next visited current next rest :
    (size visited < n)%nat ->
    best_unvisited edge_scores n visited current next ->
    greedy_walk edge_scores n ({[next]} ∪ visited) next rest ->
    greedy_walk edge_scores n visited current (next :: rest).

(** ** Selection of the last-mile heuristic *)

(** [stop], at position [k] of [stops], is unvisited; no unvisited stop has a
    smaller effective distance from [loc], and no unvisited stop before
    position [k] has an equal one. *)
Definition first_nearest_unvisited (stops : list LastMileStop.t)
    (unvisited : gset string) (loc : StopLocation)
    (k : nat) (stop : LastMileStop.t) : Prop :=
  stops !! k = Some stop
  /\ LastMileStop.id stop ∈ unvisited
  /\ (forall s, s ∈ stops -> LastMileStop.id s ∈ unvisited ->
      effective_distance loc stop <= effective_distance loc s)
  /\ (forall j s, (j < k)%nat -> stops !! j = Some s ->
      LastMileStop.id s ∈ unvisited ->
      effective_distance loc stop < effective_distance loc s).

(** ** Well-formed last-mile requests *)

(** Every stop has a non-empty identifier. *)
Definition ids_nonempty (stops : list LastMileStop.t) : Prop :=
  forall stop, stop ∈ stops -> LastMileStop.id stop <> "".

(** Every identifier of the caller's current sequence names a stop. *)
Definition sequence_known (request : LastMileRequest) : Prop :=
  forall stop_id,
    stop_id ∈ baseline_sequence request ->
    stop_id ∈ map LastMileStop.id (stops request).

Definition well_formed (request : LastMileRequest) : Prop :=
  ids_nonempty (stops request) /\ sequence_known request.

(** The state [heuristic_optimize_last_mile] enters its loop with. *)
Definition nn_initial (stops : list LastMileStop.t) (start : StopLocation)
  : nn_state :=
  {| nn_unvisited := list_to_set (map LastMileStop.id stops);
     nn_optimized := [];
     nn_current_loc := start;
     nn_total_distance := 0;
     nn_route_path := [start] |}.

(** The start of the heuristic walk: the vehicle, or the first stop. *)
Definition heuristic_start (request : LastMileRequest) : StopLocation :=
  match vehiclePosition request with
  | Some v => v
  | None =>
      match stops request with
      | s :: _ => LastMileStop.coordinates s
      | [] => mkLoc 0 0
      end
  end.

(** ** Sample inputs *)

Module Samples.

Definition origin : StopLocation := mkLoc 0 0.
Definition antipode : StopLocation := mkLoc 0 180.

Definition stop_at (id : string) (loc : StopLocation) : Stop.t :=
  Stop.mk id id loc (Some 0%Z).

Definition reroute_request (level : string) (stops : list Stop.t)
  : RerouteRequest :=
  {| currentLocation := origin;
     remainingStops := stops;
     currentTraffic := {| congestionLevel := level; currentSpeed := None |};
     currentWeather := {| description := "clear" |};
     timeOfDay := "morning";
     dayOfWeek := "monday" |}.


(** One stop, under a congestion level the mapping does not know. *)
Definition one_stop_gridlock : RerouteRequest :=
  reroute_request "Gridlock" [stop_at "a" origin].

(** A model whose every call raises. *)
Definition failing_model : RouteGNN :=
  {| edge_scorer := fun _ _ => inl OracleError |}.

Definition lm_stop (id : string) (loc : StopLocation) (priority : Z)
  : LastMileStop.t :=
  LastMileStop.mk id id loc (Some 0%Z) (Some priority).

Definition lm_request (vehicle : option StopLocation)
    (stops : list LastMileStop.t) : LastMileRequest :=
  {| stops := stops;
     vehiclePosition := vehicle;
     currentSequence := None;
     constraints := None |}.

Definition single_stop : LastMileRequest :=
  lm_request None [lm_stop "a" antipode 0].

Definition far_normal : LastMileStop.t := lm_stop "n" antipode 0.
Definition far_urgent : LastMileStop.t := lm_stop "h" antipode 1.

(** A normal and a high-priority stop, equally far from the vehicle. *)
Definition tie_far_away : LastMileRequest :=
  lm_request (Some origin) [far_normal; far_urgent].


(** Two stops with distinct identifiers, one of them the empty string. *)
Definition empty_identifier : LastMileRequest :=
  lm_request None [lm_stop "" origin 0; lm_stop "a" origin 0].

(** The vehicle stands at stop ["a"]; the input order visits the stop on
    the other side of the globe first. *)
Definition far_stop_first : LastMileRequest :=
  lm_request (Some origin) [lm_stop "b" antipode 0; lm_stop "a" origin 0].

(** A model without preferences: every score is 0. *)
Definition indifferent_model : RouteGNN :=
  {| edge_scorer := fun _ _ => inr (fun _ _ => 0) |}.

End Samples.


(** * The router in floating point

    The definitions above read a Python [float] as the real number it
    stands for and every operation on floats as the exact operation.  The
    interpreter computes in binary floating point: results are rounded,
    [math.sqrt] raises [ValueError] on a negative argument, and an [int] too
    large for a float raises [OverflowError] when it meets one.  The module
    [Fp] gives the functions of the router once more, operation by
    operation, over an arbitrary arithmetic: a type of floats together with
    the operations of the interpreter and of the C library on it.  The
    functions that involve no float ([lower], [permutations], [truthy],
    [skip_repeats], the decoding of a score matrix) are the ones above. *)

Module Fp.

Record arithmetic : Type := {
  float : Type;
  (** the literal that denotes [num / den]: [0.8] is [lit 8 10] *)
  lit : Z -> positive -> float;
  (** [float('inf')] *)
  inf : float;
  fadd : float -> float -> float;
  fsub : float -> float -> float;
  fmul : float -> float -> float;
  (** [x / y], for a divisor other than zero *)
  fdiv : float -> float -> float;
  (** [x ** y], for a base between -1 and 1 and the exponent 2 *)
  fpow : float -> float -> float;
  (** [x < y] *)
  flt : float -> float -> bool;
  (** the conversion of an [int]; [None] when it is too large *)
  of_int : Z -> option float;
  (** [math.isnan], [math.isinf] *)
  fis_nan : float -> bool;
  fis_inf : float -> bool;
  (** [math.radians] *)
  fradians : float -> float;
  (** [sin], [cos], [sqrt] and [atan2] of the C library, which [math] wraps *)
  fsin : float -> float;
  fcos : float -> float;
  fsqrt : float -> float;
  fatan2 : float -> float -> float;
  (** [round(x, ndigits)] *)
  fround : float -> Z -> float;
  (** [edge_scores.std().item()] on a tensor of the given size *)
  fstd : ScoreMatrix -> nat -> float
}.

(** ** Models of the requests and responses *)

Record StopLocation (fa : arithmetic) : Type := mkLoc {
  lat : float fa;
  lng : float fa
}.
Arguments mkLoc {fa} _ _.
Arguments lat {fa} _.
Arguments lng {fa} _.

Module Stop.
Record t (fa : arithmetic) : Type := mk {
  id : string;
  name : string;
  location : StopLocation fa;
  unloadingTimeMinutes : option Z
}.
Arguments mk {fa} _ _ _ _.
Arguments id {fa} _.
Arguments name {fa} _.
Arguments location {fa} _.
Arguments unloadingTimeMinutes {fa} _.
End Stop.

Record TrafficData (fa : arithmetic) : Type := {
  congestionLevel : string;
  currentSpeed : option (float fa)
}.
Arguments Build_TrafficData {fa} _ _.
Arguments congestionLevel {fa} _.
Arguments currentSpeed {fa} _.

Record RerouteRequest (fa : arithmetic) : Type := {
  currentLocation : StopLocation fa;
  remainingStops : list (Stop.t fa);
  currentTraffic : TrafficData fa;
  currentWeather : WeatherData;
  timeOfDay : string;
  dayOfWeek : string
}.
Arguments Build_RerouteRequest {fa} _ _ _ _ _ _.
Arguments currentLocation {fa} _.
Arguments remainingStops {fa} _.
Arguments currentTraffic {fa} _.
Arguments currentWeather {fa} _.
Arguments timeOfDay {fa} _.
Arguments dayOfWeek {fa} _.

Record RerouteResponse (fa : arithmetic) : Type := {
  optimizedSequence : list string;
  estimatedETAs : gmap string (float fa);
  timeSavings : float fa;
  confidence : float fa;
  method : string;
  reason : string
}.
Arguments Build_RerouteResponse {fa} _ _ _ _ _ _.
Arguments optimizedSequence {fa} _.
Arguments estimatedETAs {fa} _.
Arguments timeSavings {fa} _.
Arguments confidence {fa} _.
Arguments method {fa} _.
Arguments reason {fa} _.

Module LastMileStop.
Record t (fa : arithmetic) : Type := mk {
  id : string;
  name : string;
  coordinates : StopLocation fa;
  unloadingTimeMinutes : option Z;
  priority : option Z
}.
Arguments mk {fa} _ _ _ _ _.
Arguments id {fa} _.
Arguments name {fa} _.
Arguments coordinates {fa} _.
Arguments unloadingTimeMinutes {fa} _.
Arguments priority {fa} _.
End LastMileStop.

Record LastMileRequest (fa : arithmetic) : Type := {
  stops : list (LastMileStop.t fa);
  vehiclePosition : option (StopLocation fa);
  currentSequence : option (list string);
  constraints : option (gmap string string)
}.
Arguments Build_LastMileRequest {fa} _ _ _ _.
Arguments stops {fa} _.
Arguments vehiclePosition {fa} _.
Arguments currentSequence {fa} _.
Arguments constraints {fa} _.

Record Segment (fa : arithmetic) : Type := {
  fromStopId : string;
  toStopId : string;
  distanceMiles : float fa;
  durationMinutes : float fa
}.
Arguments Build_Segment {fa} _ _ _ _.
Arguments fromStopId {fa} _.
Arguments toStopId {fa} _.
Arguments distanceMiles {fa} _.
Arguments durationMinutes {fa} _.

Record RouteMetrics (fa : arithmetic) : Type := {
  totalDistance : float fa;
  totalTime : float fa;
  averageStopDistance : float fa
}.
Arguments Build_RouteMetrics {fa} _ _ _.
Arguments totalDistance {fa} _.
Arguments totalTime {fa} _.
Arguments averageStopDistance {fa} _.

Record ComparisonMetrics (fa : arithmetic) : Type := {
  currentRoute : RouteMetrics fa;
  optimizedRoute : RouteMetrics fa
}.
Arguments Build_ComparisonMetrics {fa} _ _.
Arguments currentRoute {fa} _.
Arguments optimizedRoute {fa} _.

Module LastMileResponse.
Record t (fa : arithmetic) : Type := mk {
  optimized_sequence : list string;
  time_savings_minutes : float fa;
  distance_savings_miles : float fa;
  confidence : float fa;
  route_path : list (StopLocation fa);
  segment_durations : list (Segment fa);
  reasoning : string;
  comparison_metrics : ComparisonMetrics fa
}.
Arguments mk {fa} _ _ _ _ _ _ _ _.
Arguments optimized_sequence {fa} _.
Arguments time_savings_minutes {fa} _.
Arguments distance_savings_miles {fa} _.
Arguments confidence {fa} _.
Arguments route_path {fa} _.
Arguments segment_durations {fa} _.
Arguments reasoning {fa} _.
Arguments comparison_metrics {fa} _.
End LastMileResponse.

(** The scoring model with what [torch] does around it: the conversion of the
    feature rows to a tensor, the adjacency matrix (a function of the number
    of stops) and the layers.  Any of them can raise. *)
Record RouteGNN (fa : arithmetic) : Type := {
  edge_scorer : list (list (float fa)) -> nat -> exn + ScoreMatrix
}.
Arguments Build_RouteGNN {fa} _.
Arguments edge_scorer {fa} _.

Section Router.
Context {fa : arithmetic}.

Local Notation "x +. y" := (fadd fa x y) (at level 50, left associativity).
Local Notation "x -. y" := (fsub fa x y) (at level 50, left associativity).
Local Notation "x *. y" := (fmul fa x y) (at level 40, left associativity).
Local Notation "x /. y" := (fdiv fa x y) (at level 40, left associativity).
Local Notation "x <. y" := (flt fa x y) (at level 70, no associativity).

(** An integer constant, or a literal such as [60.0], in an operation on
    floats. *)
Definition num (n : Z) : (float fa) := lit fa n 1.

(** ** Geometry *)

(** A function of [math] on one argument raises [ValueError] when the C
    function gives NaN on an argument other than NaN (the square root of a
    negative number, the sine of an infinity) or an infinity on a finite
    argument. *)
Definition math_1 (func : float fa -> float fa) (x : float fa)
  : outcome (float fa) :=
  let r := func x in
  if fis_nan fa r && negb (fis_nan fa x) then Raises ValueError
  else if fis_inf fa r && negb (fis_nan fa x || fis_inf fa x)
  then Raises ValueError
  else Returns r.

(** On two arguments: [ValueError] for NaN on arguments other than NaN,
    [OverflowError] for an infinity on finite arguments. *)
Definition math_2 (func : float fa -> float fa -> float fa) (x y : float fa)
  : outcome (float fa) :=
  let r := func x y in
  if fis_nan fa r then
    if negb (fis_nan fa x) && negb (fis_nan fa y)
    then Raises ValueError else Returns r
  else if fis_inf fa r then
    if negb (fis_nan fa x || fis_inf fa x)
       && negb (fis_nan fa y || fis_inf fa y)
    then Raises OverflowError else Returns r
  else Returns r.

Definition math_sin : float fa -> outcome (float fa) := math_1 (fsin fa).
Definition math_cos : float fa -> outcome (float fa) := math_1 (fcos fa).
Definition math_sqrt : float fa -> outcome (float fa) := math_1 (fsqrt fa).
Definition math_atan2 : float fa -> float fa -> outcome (float fa) :=
  math_2 (fatan2 fa).

(** The quantity [a] of the haversine formula. *)
Definition haversine_a (loc1 loc2 : StopLocation fa) : outcome (float fa) :=
  let lat1 := fradians fa (lat loc1) in
  let lon1 := fradians fa (lng loc1) in
  let lat2 := fradians fa (lat loc2) in
  let lon2 := fradians fa (lng loc2) in
  let dlat := lat2 -. lat1 in
  let dlon := lon2 -. lon1 in
  sin_dlat ← math_sin (dlat /. num 2);
  cos_lat1 ← math_cos lat1;
  cos_lat2 ← math_cos lat2;
  sin_dlon ← math_sin (dlon /. num 2);
  Returns (fpow fa sin_dlat (num 2)
           +. cos_lat1 *. cos_lat2 *. fpow fa sin_dlon (num 2)).

Definition calculate_distance_km (loc1 loc2 : StopLocation fa)
  : outcome (float fa) :=
  a ← haversine_a loc1 loc2;
  sqrt_a ← math_sqrt a;
  sqrt_1_a ← math_sqrt (num 1 -. a);
  atan ← math_atan2 sqrt_a sqrt_1_a;
  let c := num 2 *. atan in
  Returns (num 6371 *. c).

(** ** Traffic *)

Definition traffic_mapping : gmap string (float fa) :=
  <["none" := num 1]> (<["light" := lit fa 9 10]>
    (<["moderate" := lit fa 75 100]> (<["heavy" := lit fa 5 10]> ∅))).

Definition get_traffic_multiplier (traffic_level : string) : (float fa) :=
  default (lit fa 8 10) (traffic_mapping !! lower traffic_level).

(** [x or 0] on an [Optional[int]]. *)
Definition or_zero (x : option Z) : Z := default 0%Z x.

(** An [int] that meets a float in an operation: it is converted, and
    [OverflowError] is raised when it is too large. *)
Definition float_of_int (n : Z) : outcome (float fa) :=
  match of_int fa n with
  | Some x => Returns x
  | None => Raises OverflowError
  end.

(** ** Exhaustive search *)

(** The inner loop [for stop in perm] of [exhaustive_search_reroute], on the
    state [(total_time, loc, etas)]. *)
Fixpoint walk_perm (base_speed_kmh : (float fa)) (perm : list (Stop.t fa))
    (total_time : (float fa)) (loc : StopLocation fa) (etas : gmap string (float fa))
  : outcome ((float fa) * gmap string (float fa)) :=
  match perm with
  | [] => Returns (total_time, etas)
  | stop :: perm' =>
      dist ← calculate_distance_km loc (Stop.location stop);
      let travel_time := (dist /. base_speed_kmh) *. num 60 in
      unloading ← float_of_int (or_zero (Stop.unloadingTimeMinutes stop));
      let total_time := total_time +. (travel_time +. unloading) in
      let etas := <[Stop.id stop := total_time]> etas in
      walk_perm base_speed_kmh perm' total_time (Stop.location stop) etas
  end.

(** The outer loop [for perm in permutations(stops)], on the state
    [(best_time, (best_sequence, best_etas))]; the pair is [None] until a
    total time is less than [best_time]. *)
Fixpoint search_perms (base_speed_kmh : (float fa)) (current_loc : StopLocation fa)
    (perms : list (list (Stop.t fa)))
    (best_time : (float fa)) (best : option (list string * gmap string (float fa)))
  : outcome ((float fa) * option (list string * gmap string (float fa))) :=
  match perms with
  | [] => Returns (best_time, best)
  | perm :: perms' =>
      '(total_time, etas) ←
        walk_perm base_speed_kmh perm (num 0) current_loc ∅;
      if total_time <. best_time then
        search_perms base_speed_kmh current_loc perms' total_time
          (Some (map Stop.id perm, etas))
      else
        search_perms base_speed_kmh current_loc perms' best_time best
  end.

(** [80.0 * traffic_mult] *)
Definition base_speed (request : RerouteRequest fa) : (float fa) :=
  num 80
  *. get_traffic_multiplier (congestionLevel (currentTraffic request)).

Definition exhaustive_search_reroute (request : RerouteRequest fa)
  : outcome (RerouteResponse fa) :=
  let stops := remainingStops request in
  let current_loc := currentLocation request in
  let base_speed_kmh := base_speed request in
  '(_, best) ←
    search_perms base_speed_kmh current_loc (permutations stops) (inf fa) None;
  match best with
  | Some (best_sequence, best_etas) =>
      Returns {|
        optimizedSequence := best_sequence;
        estimatedETAs := best_etas;
        timeSavings := num 0;
        confidence := lit fa 75 100;
        method := "heuristic";
        reason := "Exhaustive search over "
                  +:+ pretty (length (permutations stops))
                  +:+ " permutations"
      |}
  | None => Raises ValidationError   (* [optimizedSequence=None] *)
  end.

(** ** Nearest neighbour of [heuristic_reroute] *)

(** [for idx, stop in enumerate(remaining)], on the state
    [(nearest_idx, min_distance)], which starts as [(0, inf)]. *)
Fixpoint scan_remaining (current_loc : StopLocation fa)
    (remaining : list (Stop.t fa)) (idx : nat)
    (nearest_idx : nat) (min_distance : (float fa)) : outcome (nat * (float fa)) :=
  match remaining with
  | [] => Returns (nearest_idx, min_distance)
  | stop :: remaining' =>
      dist ← calculate_distance_km current_loc (Stop.location stop);
      if dist <. min_distance then
        scan_remaining current_loc remaining' (S idx) idx dist
      else
        scan_remaining current_loc remaining' (S idx) nearest_idx min_distance
  end.

(** The loop [while remaining]. *)
Fixpoint nearest_loop (fuel : nat) (base_speed_kmh : (float fa))
    (remaining : list (Stop.t fa)) (current_loc : StopLocation fa)
    (optimized_sequence : list string) (cumulative_time : (float fa))
    (etas : gmap string (float fa)) : outcome (list string * gmap string (float fa)) :=
  match remaining with
  | [] => Returns (optimized_sequence, etas)
  | _ :: _ =>
      match fuel with
      | O => OutOfFuel
      | S fuel' =>
          '(nearest_idx, min_distance) ←
            scan_remaining current_loc remaining 0 0 (inf fa);
          match remaining !! nearest_idx with
          | None => Raises IndexError
          | Some next_stop =>
              let remaining := delete nearest_idx remaining in
              let optimized_sequence :=
                optimized_sequence ++ [Stop.id next_stop] in
              let travel_time_hours := min_distance /. base_speed_kmh in
              let travel_time_minutes := travel_time_hours *. num 60 in
              unloading_time ←
                float_of_int (or_zero (Stop.unloadingTimeMinutes next_stop));
              let cumulative_time :=
                cumulative_time +. (travel_time_minutes +. unloading_time) in
              let etas := <[Stop.id next_stop := cumulative_time]> etas in
              nearest_loop fuel' base_speed_kmh remaining
                (Stop.location next_stop) optimized_sequence
                cumulative_time etas
          end
      end
  end.

Definition heuristic_reroute (fuel : nat) (request : RerouteRequest fa)
  : outcome (RerouteResponse fa) :=
  let stops := remainingStops request in
  if bool_decide (length stops ≤ 1)%nat then
    Returns {|
      optimizedSequence := map Stop.id stops;
      estimatedETAs := foldl (fun m s => <[Stop.id s := num 0]> m) ∅ stops;
      timeSavings := num 0;
      confidence := num 1;
      method := "heuristic";
      reason := "Only one stop remaining"
    |}
  else if bool_decide (length stops ≤ 6)%nat then
    exhaustive_search_reroute request
  else
    let current_loc := currentLocation request in
    let base_speed_kmh := base_speed request in
    '(optimized_sequence, etas) ←
      nearest_loop fuel base_speed_kmh stops current_loc [] (num 0) ∅;
    Returns {|
      optimizedSequence := optimized_sequence;
      estimatedETAs := etas;
      timeSavings := num 0;
      confidence := lit fa 6 10;
      method := "heuristic";
      reason := "Nearest-neighbor algorithm with traffic awareness"
    |}.

(** [ml_reroute]: the model is never consulted; both branches of the [try]
    call the heuristic. *)
Definition ml_reroute (fuel : nat) (TRAINED_MODEL : option (RouteGNN fa))
    (request : RerouteRequest fa) : outcome (RerouteResponse fa) :=
  match TRAINED_MODEL with
  | None => heuristic_reroute fuel request
  | Some _ =>
      try_except (heuristic_reroute fuel request)
                 (fun _ => heuristic_reroute fuel request)
  end.

(** The [POST /api/reroute/] handler. *)
Definition reroute (fuel : nat) (TRAINED_MODEL : option (RouteGNN fa))
    (request : RerouteRequest fa) : outcome (RerouteResponse fa) :=
  try_except (ml_reroute fuel TRAINED_MODEL request)
             (fun _ => Raises (HTTPException 500)).

(** ** Last mile: metrics *)

(** [next(s for s in stops if s.id == stop_id)] *)
Definition next_stop_with_id (stops : list (LastMileStop.t fa))
    (stop_id : string) : outcome (LastMileStop.t fa) :=
  match List.find (fun s => bool_decide (LastMileStop.id s = stop_id)) stops with
  | Some s => Returns s
  | None => Raises StopIteration
  end.

(** The literal [0.621371]. *)
Definition km_to_miles : (float fa) := lit fa 621371 1000000.

(** The loop [for stop_id in sequence] of
    [calculate_sequence_total_distance]. *)
Fixpoint sum_legs (stops : list (LastMileStop.t fa)) (sequence : list string)
    (current_loc : StopLocation fa) (total : (float fa)) : outcome (float fa) :=
  match sequence with
  | [] => Returns total
  | stop_id :: sequence' =>
      stop ← next_stop_with_id stops stop_id;
      let next_loc := LastMileStop.coordinates stop in
      dist ← calculate_distance_km current_loc next_loc;
      sum_legs stops sequence' next_loc (total +. dist)
  end.

Definition calculate_sequence_total_distance (sequence : list string)
    (stops : list (LastMileStop.t fa)) (vehicle_pos : option (StopLocation fa))
  : outcome (float fa) :=
  match sequence with
  | [] => Returns (num 0)
  | first :: _ =>
      current_loc ←
        match vehicle_pos with
        | Some v => Returns v
        | None =>
            first_stop ← next_stop_with_id stops first;
            Returns (LastMileStop.coordinates first_stop)
        end;
      total ← sum_legs stops sequence current_loc (num 0);
      Returns (total *. km_to_miles)
  end.

(** The loop [for stop_id in sequence] of [build_segment_durations]. *)
Fixpoint segments_loop (stops : list (LastMileStop.t fa))
    (sequence : list string) (prev_loc : StopLocation fa) (prev_id : string)
    (segments : list (Segment fa)) : outcome (list (Segment fa)) :=
  match sequence with
  | [] => Returns segments
  | stop_id :: sequence' =>
      if bool_decide (stop_id = prev_id) then
        segments_loop stops sequence' prev_loc prev_id segments
      else
        stop ← next_stop_with_id stops stop_id;
        let next_loc := LastMileStop.coordinates stop in
        dist_km ← calculate_distance_km prev_loc next_loc;
        let dist_miles := dist_km *. km_to_miles in
        let duration_min := dist_miles *. num 2 in
        let segments := segments ++ [{|
          fromStopId := prev_id;
          toStopId := stop_id;
          distanceMiles := fround fa dist_miles 2;
          durationMinutes := fround fa duration_min 1
        |}] in
        segments_loop stops sequence' next_loc stop_id segments
  end.

Definition build_segment_durations (sequence : list string)
    (stops : list (LastMileStop.t fa)) (vehicle_pos : option (StopLocation fa))
  : outcome (list (Segment fa)) :=
  match sequence with
  | [] => Returns []
  | first :: _ =>
      '(prev_loc, prev_id) ←
        match vehicle_pos with
        | Some v => Returns (v, "vehicle")
        | None =>
            first_stop ← next_stop_with_id stops first;
            Returns (LastMileStop.coordinates first_stop, first)
        end;
      segments_loop stops sequence prev_loc prev_id []
  end.

(** ** Last mile: nearest neighbour with priorities *)

(** The distance a stop is compared by: the haversine distance, times 0.8
    for a stop of priority 1. *)
Definition effective_distance (current_loc : StopLocation fa)
    (stop : LastMileStop.t fa) : outcome (float fa) :=
  dist ← calculate_distance_km current_loc (LastMileStop.coordinates stop);
  if bool_decide (LastMileStop.priority stop = Some 1%Z)
  then Returns (dist *. lit fa 8 10) else Returns dist.

(** [for stop in stops], on the state [(nearest_id, nearest_dist)], which
    starts as [(None, inf)]. *)
Fixpoint scan_unvisited (stops : list (LastMileStop.t fa))
    (unvisited : gset string) (current_loc : StopLocation fa)
    (nearest_id : option string) (nearest_dist : (float fa))
  : outcome (option string * (float fa)) :=
  match stops with
  | [] => Returns (nearest_id, nearest_dist)
  | stop :: stops' =>
      if bool_decide (LastMileStop.id stop ∉ unvisited) then
        scan_unvisited stops' unvisited current_loc nearest_id nearest_dist
      else
        dist ← effective_distance current_loc stop;
        if dist <. nearest_dist then
          scan_unvisited stops' unvisited current_loc
            (Some (LastMileStop.id stop)) dist
        else
          scan_unvisited stops' unvisited current_loc nearest_id nearest_dist
  end.

Record nn_state : Type := {
  nn_unvisited : gset string;
  nn_optimized : list string;
  nn_current_loc : StopLocation fa;
  nn_total_distance : (float fa);
  nn_route_path : list (StopLocation fa)
}.

(** One round of the body of [while unvisited]; [if nearest_id:] is false
    for [None] and for the empty string. *)
Definition nn_step (stops : list (LastMileStop.t fa)) (st : nn_state)
  : outcome nn_state :=
  '(nearest, nearest_dist) ←
    scan_unvisited stops (nn_unvisited st) (nn_current_loc st) None (inf fa);
  match nearest with
  | Some nearest_id =>
      if truthy nearest_id then
        if bool_decide (nearest_id ∈ nn_unvisited st) then
          stop ← next_stop_with_id stops nearest_id;
          Returns {|
            nn_unvisited := nn_unvisited st ∖ {[nearest_id]};
            nn_optimized := nn_optimized st ++ [nearest_id];
            nn_current_loc := LastMileStop.coordinates stop;
            nn_total_distance := nn_total_distance st +. nearest_dist;
            nn_route_path :=
              nn_route_path st ++ [LastMileStop.coordinates stop]
          |}
        else Raises KeyError
      else Returns st
  | None => Returns st
  end.

(** The loop [while unvisited]. *)
Fixpoint nn_loop (fuel : nat) (stops : list (LastMileStop.t fa))
    (st : nn_state) : outcome nn_state :=
  if bool_decide (nn_unvisited st = ∅) then Returns st
  else
    match fuel with
    | O => OutOfFuel
    | S fuel' =>
        st' ← nn_step stops st;
        nn_loop fuel' stops st'
    end.

(** [request.currentSequence or [s.id for s in stops]] *)
Definition baseline_sequence (request : LastMileRequest fa) : list string :=
  match currentSequence request with
  | Some (x :: l) => x :: l
  | _ => map LastMileStop.id (stops request)
  end.

(** [max(0, x)], and twice that: the [int] 0 unless [x > 0]. *)
Definition savings (x : (float fa)) : (float fa) * (float fa) :=
  if num 0 <. x then (x, x *. num 2) else (num 0, num 0).

Definition heuristic_optimize_last_mile (fuel : nat)
    (request : LastMileRequest fa) : outcome (LastMileResponse.t fa) :=
  let stops := stops request in
  if bool_decide (length stops ≤ 1)%nat then
    Returns {|
      LastMileResponse.optimized_sequence := map LastMileStop.id stops;
      LastMileResponse.time_savings_minutes := num 0;
      LastMileResponse.distance_savings_miles := num 0;
      LastMileResponse.confidence := num 1;
      LastMileResponse.route_path := map LastMileStop.coordinates stops;
      LastMileResponse.segment_durations := [];
      LastMileResponse.reasoning := "Single stop - no optimization needed";
      LastMileResponse.comparison_metrics := {|
        currentRoute := {| totalDistance := num 0; totalTime := num 0;
                           averageStopDistance := num 0 |};
        optimizedRoute := {| totalDistance := num 0; totalTime := num 0;
                             averageStopDistance := num 0 |}
      |}
    |}
  else
    start ←
      match vehiclePosition request with
      | Some v => Returns v
      | None =>
          match stops !! 0%nat with
          | Some s => Returns (LastMileStop.coordinates s)
          | None => Raises IndexError
          end
      end;
    final ← nn_loop fuel stops {|
      nn_unvisited := list_to_set (map LastMileStop.id stops);
      nn_optimized := [];
      nn_current_loc := start;
      nn_total_distance := num 0;
      nn_route_path := [start]
    |};
    let optimized := nn_optimized final in
    let total_distance := nn_total_distance final in
    let current_seq := baseline_sequence request in
    current_dist ←
      calculate_sequence_total_distance current_seq stops
        (vehiclePosition request);
    let '(distance_savings, time_savings) :=
      savings (current_dist -. total_distance) in
    segments ← build_segment_durations optimized stops (vehiclePosition request);
    count ← float_of_int (Z.of_nat (length stops));
    Returns {|
      LastMileResponse.optimized_sequence := optimized;
      LastMileResponse.time_savings_minutes := time_savings;
      LastMileResponse.distance_savings_miles := distance_savings;
      LastMileResponse.confidence := lit fa 65 100;
      LastMileResponse.route_path := nn_route_path final;
      LastMileResponse.segment_durations := segments;
      LastMileResponse.reasoning :=
        "Optimized using nearest-neighbor heuristic (ML model unavailable)";
      LastMileResponse.comparison_metrics := {|
        currentRoute := {|
          totalDistance := current_dist;
          totalTime := current_dist *. num 2;
          averageStopDistance := current_dist /. count |};
        optimizedRoute := {|
          totalDistance := total_distance;
          totalTime := total_distance *. num 2;
          averageStopDistance := total_distance /. count |}
      |}
    |}.

(** ** Last mile: the learned path *)

(** The feature row of one stop in [build_graph_from_stops]. *)
Definition node_feature_row (start : StopLocation fa) (i : nat)
    (stop : LastMileStop.t fa) : outcome (list (float fa)) :=
  let lat := lat (LastMileStop.coordinates stop) in
  let lng := lng (LastMileStop.coordinates stop) in
  minutes ← float_of_int (or_zero (LastMileStop.unloadingTimeMinutes stop));
  let unloading := minutes /. num 60 in
  priority ← float_of_int (or_zero (LastMileStop.priority stop));
  let is_start := if bool_decide (i = 0%nat) then num 1 else num 0 in
  let x_norm := (lng +. num 180) /. num 360 in
  let y_norm := (lat +. num 90) /. num 180 in
  dist ← calculate_distance_km start (mkLoc lat lng);
  let dist_from_start := dist /. num 100 in
  Returns [lat /. num 90; lng /. num 180; unloading; priority; is_start;
           x_norm; y_norm; dist_from_start].

(** [for i, stop in enumerate(stops)] *)
Fixpoint feature_rows (start : StopLocation fa) (i : nat)
    (stops : list (LastMileStop.t fa)) : outcome (list (list (float fa))) :=
  match stops with
  | [] => Returns []
  | stop :: stops' =>
      row ← node_feature_row start i stop;
      rows ← feature_rows start (S i) stops';
      Returns (row :: rows)
  end.

(** The feature rows, and the number of stops that determines the adjacency
    matrix. *)
Definition build_graph_from_stops (stops : list (LastMileStop.t fa))
    (vehicle_pos : option (StopLocation fa)) : outcome (list (list (float fa)) * nat) :=
  let num_stops := length stops in
  start ←
    match vehicle_pos with
    | Some v => Returns v
    | None =>
        match stops !! 0%nat with
        | Some s => Returns (LastMileStop.coordinates s)
        | None => Raises IndexError
        end
    end;
  node_features ← feature_rows start 0 stops;
  Returns (node_features, num_stops).

Definition forward (model : RouteGNN fa) (node_features : list (list (float fa)))
    (num_stops : nat) : outcome ScoreMatrix :=
  match edge_scorer model node_features num_stops with
  | inl e => Raises e
  | inr s => Returns (fun i j => if bool_decide (i = j) then 0%R else s i j)
  end.

(** [[request.stops[i].id for i in optimized_indices]] *)
Fixpoint ids_at (stops : list (LastMileStop.t fa)) (indices : list nat)
  : outcome (list string) :=
  match indices with
  | [] => Returns []
  | i :: indices' =>
      match stops !! i with
      | None => Raises IndexError
      | Some s =>
          rest ← ids_at stops indices';
          Returns (LastMileStop.id s :: rest)
      end
  end.

(** The loop [for stop_id in optimized_sequence] that builds [route_path]. *)
Fixpoint path_loop (stops : list (LastMileStop.t fa)) (sequence : list string)
    (route_path : list (StopLocation fa)) : outcome (list (StopLocation fa)) :=
  match sequence with
  | [] => Returns route_path
  | stop_id :: sequence' =>
      stop ← next_stop_with_id stops stop_id;
      path_loop stops sequence' (route_path ++ [LastMileStop.coordinates stop])
  end.

(** [min(0.95, 0.7 + std * 0.5)]: the second argument when it is less. *)
Definition learned_confidence (edge_scores : ScoreMatrix) (num_stops : nat)
  : (float fa) :=
  let y := lit fa 7 10 +. fstd fa edge_scores num_stops *. lit fa 5 10 in
  if y <. lit fa 95 100 then y else lit fa 95 100.

Definition ml_optimize_last_mile (fuel : nat)
    (TRAINED_MODEL : option (RouteGNN fa)) (request : LastMileRequest fa)
  : outcome (LastMileResponse.t fa) :=
  match TRAINED_MODEL with
  | None => heuristic_optimize_last_mile fuel request
  | Some model =>
      if bool_decide (length (stops request) ≤ 1)%nat then
        heuristic_optimize_last_mile fuel request
      else
        try_except
          ('(node_features, num_stops) ←
             build_graph_from_stops (stops request) (vehiclePosition request);
           edge_scores ← forward model node_features num_stops;
           optimized_indices ←
             decode_route_from_scores fuel edge_scores (length (stops request));
           optimized_sequence ← ids_at (stops request) optimized_indices;
           let current_seq := baseline_sequence request in
           current_dist ←
             calculate_sequence_total_distance current_seq (stops request)
               (vehiclePosition request);
           optimized_dist ←
             calculate_sequence_total_distance optimized_sequence
               (stops request) (vehiclePosition request);
           let '(distance_savings, time_savings) :=
             savings (current_dist -. optimized_dist) in
           route_path ←
             path_loop (stops request) optimized_sequence
               (match vehiclePosition request with
                | Some v => [v]
                | None => []
                end);
           segments ←
             build_segment_durations optimized_sequence (stops request)
               (vehiclePosition request);
           let confidence :=
             learned_confidence edge_scores (length (stops request)) in
           count ← float_of_int (Z.of_nat (length (stops request)));
           Returns {|
             LastMileResponse.optimized_sequence := optimized_sequence;
             LastMileResponse.time_savings_minutes := time_savings;
             LastMileResponse.distance_savings_miles := distance_savings;
             LastMileResponse.confidence := confidence;
             LastMileResponse.route_path := route_path;
             LastMileResponse.segment_durations := segments;
             LastMileResponse.reasoning :=
               "Optimized using Graph Neural Network (GNN) model with 87.5% accuracy";
             LastMileResponse.comparison_metrics := {|
               currentRoute := {|
                 totalDistance := current_dist;
                 totalTime := current_dist *. num 2;
                 averageStopDistance := current_dist /. count |};
               optimizedRoute := {|
                 totalDistance := optimized_dist;
                 totalTime := optimized_dist *. num 2;
                 averageStopDistance := optimized_dist /. count |}
             |}
           |})
          (fun _ => heuristic_optimize_last_mile fuel request)
  end.

(** The [POST /api/reroute/last-mile] handler. *)
Definition optimize_last_mile (fuel : nat)
    (TRAINED_MODEL : option (RouteGNN fa)) (request : LastMileRequest fa)
  : outcome (LastMileResponse.t fa) :=
  try_except (ml_optimize_last_mile fuel TRAINED_MODEL request)
             (fun _ => Raises (HTTPException 500)).

End Router.

(** ** Notions used to state the properties *)

Section Notions.
Context {fa : arithmetic}.

(** The values are ordered by [<] the way numbers are: none is less than
    itself, [<] is transitive, and when one is less than another, any third
    is above the first or below the second.  Floats other than NaN are. *)
Definition ordered (values : list (float fa)) : Prop :=
  forall a b c, a ∈ values -> b ∈ values -> c ∈ values ->
    flt fa a a = false
    /\ (flt fa a b = true -> flt fa b c = true -> flt fa a c = true)
    /\ (flt fa a c = true -> flt fa a b = true \/ flt fa b c = true).

(** The same, decided by trying every triple. *)
Definition orderedb (values : list (float fa)) : bool :=
  forallb (fun a => forallb (fun b => forallb (fun c =>
    negb (flt fa a a)
    && implb (flt fa a b && flt fa b c) (flt fa a c)
    && implb (flt fa a c) (flt fa a b || flt fa b c)) values) values) values.

(** The three selection loops keep a running minimum: over the candidates
    in turn, each with its cost, unless it is skipped ([None]), the state
    [(best_cost, best)] changes when a cost is less than [best_cost]. *)
Fixpoint running_min {A} (candidates : list (option (float fa * A)))
    (best_cost : float fa) (best : option A) : float fa * option A :=
  match candidates with
  | [] => (best_cost, best)
  | None :: candidates' => running_min candidates' best_cost best
  | Some (cost, a) :: candidates' =>
      if flt fa cost best_cost
      then running_min candidates' cost (Some a)
      else running_min candidates' best_cost best
  end.

(** The costs of the candidates that are not skipped. *)
Definition costs {A} (candidates : list (option (float fa * A)))
  : list (float fa) :=
  omap (fun candidate => fst <$> candidate) candidates.

(** The candidate at position [k] has cost [t]; no candidate costs less, and
    every candidate before position [k] costs more. *)
Definition first_least {A} (candidates : list (option (float fa * A)))
    (k : nat) (t : float fa) (a : A) : Prop :=
  candidates !! k = Some (Some (t, a))
  /\ (forall j c a', candidates !! j = Some (Some (c, a')) ->
      flt fa c t = false)
  /\ (forall j c a', (j < k)%nat -> candidates !! j = Some (Some (c, a')) ->
      flt fa t c = true).

(** The total time of an ordering, as [exhaustive_search_reroute]
    accumulates it. *)
Definition total_time (request : RerouteRequest fa) (perm : list (Stop.t fa))
  : outcome (float fa) :=
  '(total, _) ←
    walk_perm (base_speed request) perm (num 0) (currentLocation request) ∅;
  Returns total.

(** The cost by which a round of the last-mile heuristic compares a stop:
    none for a visited stop. *)
Definition round_candidate (unvisited : gset string)
    (cost : LastMileStop.t fa -> float fa) (stop : LastMileStop.t fa)
  : option (float fa * string) :=
  if bool_decide (LastMileStop.id stop ∈ unvisited)
  then Some (cost stop, LastMileStop.id stop) else None.

(** The candidates of the scan [for idx, stop in enumerate(remaining)] of
    [heuristic_reroute]: every remaining stop with its distance from the
    current position and its index. *)
Fixpoint indexed_candidates
    (dist : StopLocation fa -> StopLocation fa -> float fa)
    (loc : StopLocation fa) (idx : nat) (remaining : list (Stop.t fa))
  : list (option (float fa * nat)) :=
  match remaining with
  | [] => []
  | stop :: remaining' =>
      Some (dist loc (Stop.location stop), idx)
      :: indexed_candidates dist loc (S idx) remaining'
  end.

(** A route that goes, from each position, to the first of the nearest
    remaining stops. *)
Inductive nearest_route
    (dist : StopLocation fa -> StopLocation fa -> float fa)
  : StopLocation fa -> list (Stop.t fa) -> list (Stop.t fa) -> Prop :=
| nearest_route_nil loc : nearest_route dist loc [] []
| nearest_route_cons loc remaining k stop route :
    remaining !! k = Some stop ->
    first_least (indexed_candidates dist loc 0 remaining) k
      (dist loc (Stop.location stop)) k ->
    nearest_route dist (Stop.location stop) (delete k remaining) route ->
    nearest_route dist loc remaining (stop :: route).

End Notions.

(** What a computation raised, and a view of what it returned: they let a
    run on concrete floats be evaluated down to plain data. *)
Definition raised {A} (o : outcome A) : option exn :=
  match o with
  | Raises e => Some e
  | _ => None
  end.

Definition returned {A B} (view : A -> B) (o : outcome A) : option B :=
  match o with
  | Returns a => Some (view a)
  | _ => None
  end.

End Fp.

(** ** Binary64 arithmetic

    The arithmetic of CPython on the usual platforms: IEEE 754 binary64,
    here the primitive floats of the kernel, whose operations are correctly
    rounded.  The functions of the C library are known only through the
    values that the library (glibc, x86-64) returns on the arguments that
    the sample inputs below lead to; on any other argument they are [nan]
    here.  [math.radians] multiplies by the float nearest to pi / 180. *)

Module Binary64.
Import Floats.

(** The conversion of an [int]: to the nearest float, ties to even. *)
Definition of_Z (n : Z) : float := SF2Prim (binary_normalize 53 1024 n 0 false).

Definition is_finite (x : float) : bool :=
  match Prim2SF x with
  | S754_zero _ | S754_finite _ _ _ => true
  | _ => false
  end.

Definition lookup1 (table : list (float * float)) (x : float) : float :=
  match List.find (fun entry => PrimFloat.eqb (fst entry) x) table with
  | Some entry => snd entry
  | None => nan
  end.

Definition lookup2 (table : list (float * float * float)) (x y : float)
  : float :=
  match List.find (fun entry => PrimFloat.eqb (fst (fst entry)) x
                                && PrimFloat.eqb (snd (fst entry)) y)%bool
                  table with
  | Some entry => snd entry
  | None => nan
  end.

(** [math.sin], [math.cos], [math.atan2] and [**] on the arguments met. *)
Definition sin_table : list (float * float) :=
  [(0x0.0p+0%float, 0x0.0p+0%float);
   (0x1.1df46a2529d3ap-7%float, 0x1.1df37c4954c22p-7%float);
   ((-0x1.1df46a2529d3ap-6)%float, (-0x1.1df0b2b89dd1fp-6)%float);
   ((-0x1.1df46a2529d39p-7)%float, (-0x1.1df37c4954c21p-7)%float);
   (0x1.1df46a2529d3ap-6%float, 0x1.1df0b2b89dd1fp-6%float);
   ((-0x1.1df46a2529d3ap-7)%float, (-0x1.1df37c4954c22p-7)%float);
   (0x1.1df46a2529d39p-7%float, 0x1.1df37c4954c21p-7%float);
   (0x1.921fb54442d18p+0%float, 0x1.0000000000000p+0%float);
   ((-0x1.3695841ccd453p+0)%float, (-0x1.df9d5e3df0197p-1)%float);
   (0x1.3695841ccd453p+0%float, 0x1.df9d5e3df0197p-1%float);
   ((-0x1.921fb54442d18p+0)%float, (-0x1.0000000000000p+0)%float)].
Definition cos_table : list (float * float) :=
  [(0x0.0p+0%float, 0x1.0000000000000p+0%float);
   (0x1.3695841ccd453p+0%float, 0x1.6667f1c19dc42p-2%float);
   ((-0x1.3695841ccd453p+0)%float, 0x1.6667f1c19dc42p-2%float)].
Definition atan2_table : list (float * float * float) :=
  [(0x1.1df37c4954c22p-7%float, 0x1.fffb02599c9cdp-1%float, 0x1.1df46a2529d3ap-7%float);
   (0x1.1df0b2b89dd1fp-6%float, 0x1.ffec097f5af8ap-1%float, 0x1.1df46a2529d3ap-6%float);
   (0x1.1df37c4954c21p-7%float, 0x1.fffb02599c9cdp-1%float, 0x1.1df46a2529d39p-7%float);
   (0x0.0p+0%float, 0x1.0000000000000p+0%float, 0x0.0p+0%float);
   (0x1.0000000000000p+0%float, 0x0.0p+0%float, 0x1.921fb54442d18p+0%float)].
Definition pow_table : list (float * float * float) :=
  [(0x0.0p+0%float, 0x1.0000000000000p+1%float, 0x0.0p+0%float);
   (0x1.1df37c4954c22p-7%float, 0x1.0000000000000p+1%float, 0x1.3f680a5076464p-14%float);
   ((-0x1.1df0b2b89dd1fp-6)%float, 0x1.0000000000000p+1%float, 0x1.3f61d03ea652ap-12%float);
   ((-0x1.1df37c4954c21p-7)%float, 0x1.0000000000000p+1%float, 0x1.3f680a5076462p-14%float);
   (0x1.1df0b2b89dd1fp-6%float, 0x1.0000000000000p+1%float, 0x1.3f61d03ea652ap-12%float);
   ((-0x1.1df37c4954c22p-7)%float, 0x1.0000000000000p+1%float, 0x1.3f680a5076464p-14%float);
   (0x1.1df37c4954c21p-7%float, 0x1.0000000000000p+1%float, 0x1.3f680a5076462p-14%float);
   (0x1.0000000000000p+0%float, 0x1.0000000000000p+1%float, 0x1.0000000000000p+0%float);
   ((-0x1.df9d5e3df0197p-1)%float, 0x1.0000000000000p+1%float, 0x1.c14723b44194ap-1%float);
   (0x1.df9d5e3df0197p-1%float, 0x1.0000000000000p+1%float, 0x1.c14723b44194ap-1%float);
   ((-0x1.0000000000000p+0)%float, 0x1.0000000000000p+1%float, 0x1.0000000000000p+0%float)].

Definition binary64 : Fp.arithmetic := {|
  Fp.float := float;
  Fp.lit n d := PrimFloat.div (of_Z n) (of_Z (Z.pos d));
  Fp.inf := infinity;
  Fp.fadd := PrimFloat.add;
  Fp.fsub := PrimFloat.sub;
  Fp.fmul := PrimFloat.mul;
  Fp.fdiv := PrimFloat.div;
  Fp.fpow := lookup2 pow_table;
  Fp.flt := PrimFloat.ltb;
  Fp.of_int n := let x := of_Z n in if is_finite x then Some x else None;
  Fp.fradians x := PrimFloat.mul x 0x1.1df46a2529d39p-6%float;
  Fp.fis_nan := PrimFloat.is_nan;
  Fp.fis_inf := PrimFloat.is_infinity;
  Fp.fsin := lookup1 sin_table;
  Fp.fcos := lookup1 cos_table;
  Fp.fsqrt := PrimFloat.sqrt;
  Fp.fatan2 := lookup2 atan2_table;
  Fp.fround := fun _ _ => nan;
  Fp.fstd := fun _ _ => nan
|}.

(** *** Sample inputs *)

Definition location (lat lng : float) : Fp.StopLocation binary64 :=
  Fp.mkLoc (fa := binary64) lat lng.

(** A point of Greenland, (69.51232454868148, -46.70938587002465), and the
    point opposite to it on the globe,
    (-69.51232454868148, 133.29061412997535). *)
Definition a_point : Fp.StopLocation binary64 :=
  location 0x1.160c9ece76198p+6%float (-0x1.75acd27fc000cp+5)%float.
Definition its_antipode : Fp.StopLocation binary64 :=
  location (-0x1.160c9ece76198p+6)%float 0x1.0a94cb600fffdp+7%float.

(** Points of the equator, by their longitude. *)
Definition equator (lng : Z) : Fp.StopLocation binary64 :=
  location (of_Z 0) (of_Z lng).

Definition stop_at (id : string) (loc : Fp.StopLocation binary64)
  : Fp.Stop.t binary64 :=
  Fp.Stop.mk id id loc (Some 0%Z).

Definition reroute_request (level : string) (start : Fp.StopLocation binary64)
    (stops : list (Fp.Stop.t binary64)) : Fp.RerouteRequest binary64 :=
  Fp.Build_RerouteRequest start stops
    (Fp.Build_TrafficData level None) {| description := "clear" |}
    "morning" "monday".

(** From longitude 2: a stop one degree to the east, then a stop one degree
    to the west. *)
Definition east_then_west : Fp.RerouteRequest binary64 :=
  reroute_request "none" (equator 2)
    [stop_at "p" (equator 3); stop_at "m" (equator 1)].

(** The same two stops first, among seven. *)
Definition seven_stops : Fp.RerouteRequest binary64 :=
  reroute_request "heavy" (equator 2)
    [stop_at "p" (equator 3); stop_at "m" (equator 1);
     stop_at "s3" (equator 3); stop_at "s4" (equator 1);
     stop_at "s5" (equator 2); stop_at "s6" (equator 3);
     stop_at "s7" (equator 1)].

Definition lm_stop (id : string) (loc : Fp.StopLocation binary64)
    (priority : Z) : Fp.LastMileStop.t binary64 :=
  Fp.LastMileStop.mk id id loc (Some 0%Z) (Some priority).

Definition lm_request (vehicle : option (Fp.StopLocation binary64))
    (stops : list (Fp.LastMileStop.t binary64)) : Fp.LastMileRequest binary64 :=
  Fp.Build_LastMileRequest stops vehicle None None.

(** Two stops on opposite sides of the globe, no vehicle position. *)
Definition antipodal_stops : Fp.LastMileRequest binary64 :=
  lm_request None [lm_stop "a" a_point 0; lm_stop "b" its_antipode 0].

(** The vehicle at longitude 2, a stop to the east and one to the west. *)
Definition lm_east_then_west : Fp.LastMileRequest binary64 :=
  lm_request (Some (equator 2))
    [lm_stop "p" (equator 3) 0; lm_stop "m" (equator 1) 0].

(** A normal and a high-priority stop at the same place, half the equator
    away from the vehicle. *)
Definition tie_far_away : Fp.LastMileRequest binary64 :=
  lm_request (Some (equator 0))
    [lm_stop "n" (equator 180) 0; lm_stop "h" (equator 180) 1].

(** The same, with a third stop at the vehicle's position that carries the
    identifier of the normal stop. *)
Definition tie_with_repeated_identifier : Fp.LastMileRequest binary64 :=
  lm_request (Some (equator 0))
    [lm_stop "n" (equator 180) 0; lm_stop "n" (equator 0) 0;
     lm_stop "h" (equator 180) 1].

(** The total times of the orderings of a request, in the order of the
    enumeration, and the effective distance of a stop from a position;
    [nan] stands for a computation that raises. *)
Definition total_times (request : Fp.RerouteRequest binary64) : list float :=
  map (fun perm =>
         match Fp.total_time request perm with
         | Returns t => t
         | _ => nan
         end)
      (permutations (Fp.remainingStops request)).

Definition cost_from (loc : Fp.StopLocation binary64)
    (stop : Fp.LastMileStop.t binary64) : float :=
  match Fp.effective_distance loc stop with
  | Returns c => c
  | _ => nan
  end.

(** The state in which the last-mile heuristic enters its loop. *)
Definition first_round (request : Fp.LastMileRequest binary64)
    (start : Fp.StopLocation binary64) : Fp.nn_state (fa := binary64) :=
  {| Fp.nn_unvisited :=
       list_to_set (map Fp.LastMileStop.id (Fp.stops request));
     Fp.nn_optimized := [];
     Fp.nn_current_loc := start;
     Fp.nn_total_distance := Fp.num 0;
     Fp.nn_route_path := [start] |}.

(** The vehicle between two stops, one of which has an unloading time too
    large for a float. *)
Definition unloading_too_large : Fp.LastMileRequest binary64 :=
  lm_request (Some (equator 2))
    [Fp.LastMileStop.mk "p" "p" (equator 3) (Some (2 ^ 1024)%Z) (Some 0%Z);
     lm_stop "m" (equator 1) 0].

(** The distance between two positions; [nan] when it raises. *)
Definition distance (loc1 loc2 : Fp.StopLocation binary64) : float :=
  match Fp.calculate_distance_km loc1 loc2 with
  | Returns d => d
  | _ => nan
  end.

End Binary64.

(** * Properties *)

Module GeometryFacts.
Import Geometry.

Lemma haversine_a_sym loc1 loc2 : haversine_a loc1 loc2 = haversine_a loc2 loc1.
Proof.
  unfold haversine_a; cbv zeta.
  set (p1 := radians (lat loc1)). set (p2 := radians (lat loc2)).
  set (l1 := radians (lng loc1)). set (l2 := radians (lng loc2)).
  replace ((p1 - p2) / 2) with (- ((p2 - p1) / 2)) by lra.
  replace ((l1 - l2) / 2) with (- ((l2 - l1) / 2)) by lra.
  rewrite !sin_neg. ring.
Qed.

Lemma sq_sin_bounds x : 0 <= sin x ^ 2 <= 1.
Proof. pose proof (SIN_bound x). nra. Qed.

Lemma sq_cos_bounds x : 0 <= cos x ^ 2 <= 1.
Proof. pose proof (COS_bound x). nra. Qed.

(** [cos (m - u) * cos (m + u) = cos m ^ 2 - sin u ^ 2] *)
Lemma cos_product m u : cos (m - u) * cos (m + u) = cos m ^ 2 - sin u ^ 2.
Proof.
  rewrite cos_minus, cos_plus.
  pose proof (sin2_cos2 m) as Hm. pose proof (sin2_cos2 u) as Hu.
  unfold Rsqr in Hm, Hu. nra.
Qed.

(** The haversine quantity is a convex combination of two squares. *)
Lemma haversine_a_convex loc1 loc2 :
  let p1 := radians (lat loc1) in
  let p2 := radians (lat loc2) in
  let s := sin ((radians (lng loc2) - radians (lng loc1)) / 2) ^ 2 in
  haversine_a loc1 loc2
  = sin ((p2 - p1) / 2) ^ 2 * (1 - s) + cos ((p1 + p2) / 2) ^ 2 * s.
Proof.
  intros p1 p2 s. unfold haversine_a; cbv zeta. fold p1 p2 s.
  replace (cos p1 * cos p2)
    with (cos ((p1 + p2) / 2 - (p2 - p1) / 2) * cos ((p1 + p2) / 2 + (p2 - p1) / 2))
    by (f_equal; f_equal; lra).
  rewrite cos_product. ring.
Qed.

Lemma haversine_a_bounds loc1 loc2 : 0 <= haversine_a loc1 loc2 <= 1.
Proof.
  rewrite haversine_a_convex.
  set (u := sin _ ^ 2). set (c := cos _ ^ 2). set (s := sin _ ^ 2).
  assert (0 <= u <= 1) by apply sq_sin_bounds.
  assert (0 <= c <= 1) by apply sq_cos_bounds.
  assert (0 <= s <= 1) by apply sq_sin_bounds.
  nra.
Qed.

Lemma haversine_a_same loc : haversine_a loc loc = 0.
Proof.
  unfold haversine_a; cbv zeta.
  rewrite !Rminus_diag. replace (0 / 2) with 0 by lra. rewrite sin_0. ring.
Qed.

Lemma atan_nonneg x : 0 <= x -> 0 <= atan x.
Proof.
  intros [Hx | <-]; [| rewrite atan_0; lra].
  left. rewrite <- atan_0. by apply atan_increasing.
Qed.

Lemma atan2_bounds y x : 0 <= y -> 0 <= x -> 0 <= atan2 y x <= PI / 2.
Proof.
  intros Hy Hx. unfold atan2. pose proof PI_RGT_0.
  destruct (Rlt_dec 0 x) as [Hpos | Hnpos].
  - split.
    + apply atan_nonneg. apply Rmult_le_pos; [lra |].
      left. by apply Rinv_0_lt_compat.
    + left. apply atan_bound.
  - destruct (Rlt_dec x 0); [lra |].
    destruct (Rlt_dec 0 y); [lra |].
    destruct (Rlt_dec y 0); lra.
Qed.

Lemma atan2_0_1 : atan2 0 1 = 0.
Proof.
  unfold atan2. destruct (Rlt_dec 0 1); [| lra].
  replace (0 / 1) with 0 by lra. apply atan_0.
Qed.

Lemma atan2_1_0 : atan2 1 0 = PI / 2.
Proof.
  unfold atan2. destruct (Rlt_dec 0 0); [lra |].
  destruct (Rlt_dec 0 1); [done | lra].
Qed.

Lemma distance_sym loc1 loc2 :
  calculate_distance_km loc1 loc2 = calculate_distance_km loc2 loc1.
Proof. unfold calculate_distance_km. by rewrite haversine_a_sym. Qed.

Lemma distance_same loc : calculate_distance_km loc loc = 0.
Proof.
  unfold calculate_distance_km; cbv zeta. rewrite haversine_a_same.
  rewrite Rminus_0_r, sqrt_0, sqrt_1, atan2_0_1. ring.
Qed.

Lemma distance_bounds loc1 loc2 :
  0 <= calculate_distance_km loc1 loc2 <= 6371 * PI.
Proof.
  unfold calculate_distance_km; cbv zeta.
  pose proof (atan2_bounds (sqrt (haversine_a loc1 loc2))
                (sqrt (1 - haversine_a loc1 loc2))
                (sqrt_pos _) (sqrt_pos _)).
  lra.
Qed.

(** Half of the equator: from [(0, 0)] to [(0, 180)]. *)
Lemma distance_half_equator :
  calculate_distance_km (mkLoc 0 0) (mkLoc 0 180) = 6371 * PI.
Proof.
  unfold calculate_distance_km, haversine_a, radians; cbn [lat lng].
  replace ((180 * PI / 180 - 0 * PI / 180) / 2) with (PI / 2) by lra.
  replace ((0 * PI / 180 - 0 * PI / 180) / 2) with 0 by lra.
  replace (0 * PI / 180) with 0 by lra.
  rewrite sin_0, cos_0, sin_PI2.
  replace (0 ^ 2 + 1 * 1 * 1 ^ 2) with 1 by ring.
  rewrite Rminus_diag, sqrt_0, sqrt_1, atan2_1_0. lra.
Qed.

End GeometryFacts.

(** ** Reasoning about outcomes *)

Lemma bind_Returns_inv {A B} (m : outcome A) (k : A -> outcome B) (b : B) :
  m ≫= k = Returns b -> exists a, m = Returns a /\ k a = Returns b.
Proof. destruct m as [a | e |]; cbn; [eauto | done | done]. Qed.

Lemma bind_Returns {A B} (m : outcome A) (k : A -> outcome B) (a : A) :
  m = Returns a -> m ≫= k = k a.
Proof. by intros ->. Qed.

Lemma bind_Raises {A B} (m : outcome A) (k : A -> outcome B) (e : exn) :
  m = Raises e -> m ≫= k = Raises e.
Proof. by intros ->. Qed.

Tactic Notation "bind_inv" hyp(H) "as" simple_intropattern(a) ident(Ha) :=
  apply bind_Returns_inv in H; destruct H as (a & Ha & H).

(** ** Traffic multiplier *)

Example lower_mixed_case : lower "HeAvY-1" = "heavy-1".
Proof. reflexivity. Qed.

Example traffic_multiplier_heavy : get_traffic_multiplier "HEAVY" = 5 / 10.
Proof.
  unfold get_traffic_multiplier, traffic_mapping.
  change (lower "HEAVY") with "heavy".
  rewrite !lookup_insert_ne by discriminate. by rewrite lookup_insert_eq.
Qed.

Lemma traffic_mapping_other (k : string) :
  k <> "none" -> k <> "light" -> k <> "moderate" -> k <> "heavy" ->
  traffic_mapping !! k = None.
Proof.
  intros. unfold traffic_mapping.
  rewrite !lookup_insert_ne by done. apply lookup_empty.
Qed.

Lemma get_traffic_multiplier_cases (s : string) :
  get_traffic_multiplier s = 1 \/ get_traffic_multiplier s = 9 / 10
  \/ get_traffic_multiplier s = 75 / 100 \/ get_traffic_multiplier s = 5 / 10
  \/ get_traffic_multiplier s = 8 / 10.
Proof.
  unfold get_traffic_multiplier, traffic_mapping.
  set (k := lower s).
  destruct (decide (k = "none")) as [-> | ?];
    [rewrite lookup_insert_eq; auto | rewrite lookup_insert_ne by done].
  destruct (decide (k = "light")) as [-> | ?];
    [rewrite lookup_insert_eq; auto | rewrite lookup_insert_ne by done].
  destruct (decide (k = "moderate")) as [-> | ?];
    [rewrite lookup_insert_eq; auto | rewrite lookup_insert_ne by done].
  destruct (decide (k = "heavy")) as [-> | ?];
    [rewrite lookup_insert_eq; cbn; auto 6 | rewrite lookup_insert_ne by done].
  rewrite lookup_empty. cbn. auto 6.
Qed.

Lemma get_traffic_multiplier_pos (s : string) : 0 < get_traffic_multiplier s.
Proof. destruct (get_traffic_multiplier_cases s) as [-> | [-> | [-> | [-> | ->]]]]; lra. Qed.

(** C10.  A congestion level whose lower-cased form is none of ["none"],
    ["light"], ["moderate"], ["heavy"] has multiplier 0.8, so the exhaustive
    search and the nearest-neighbour loop of [heuristic_reroute] run with a
    base speed of 64 km/h. *)
Theorem unrecognized_traffic_level_base_speed (request : RerouteRequest) :
  let level := congestionLevel (currentTraffic request) in
  lower level <> "none" -> lower level <> "light" ->
  lower level <> "moderate" -> lower level <> "heavy" ->
  get_traffic_multiplier level = 8 / 10
  /\ 80 * get_traffic_multiplier level = 64
  /\ exhaustive_search_reroute request
     = match search_perms 64 (currentLocation request)
               (permutations (remainingStops request)) None with
       | Some (_, best_sequence, best_etas) =>
           Returns {|
             optimizedSequence := best_sequence;
             estimatedETAs := best_etas;
             timeSavings := 0;
             confidence := 75 / 100;
             method := "heuristic";
             reason := "Exhaustive search over "
                       +:+ pretty (length (permutations (remainingStops request)))
                       +:+ " permutations"
           |}
       | None => Raises ValidationError
       end
  /\ forall fuel, (6 < length (remainingStops request))%nat ->
     heuristic_reroute fuel request
     = ('(optimized_sequence, etas) ←
          nearest_loop fuel 64 (remainingStops request)
            (currentLocation request) [] 0 ∅;
        Returns {|
          optimizedSequence := optimized_sequence;
          estimatedETAs := etas;
          timeSavings := 0;
          confidence := 6 / 10;
          method := "heuristic";
          reason := "Nearest-neighbor algorithm with traffic awareness"
        |}).
Proof.
  intros level H1 H2 H3 H4.
  assert (Hm : get_traffic_multiplier level = 8 / 10).
  { unfold get_traffic_multiplier. by rewrite traffic_mapping_other. }
  assert (Hs : 80 * get_traffic_multiplier level = 64) by (rewrite Hm; lra).
  split; [done |]. split; [done |]. split.
  - unfold exhaustive_search_reroute. cbv zeta. fold level. by rewrite Hs.
  - intros fuel Hlen. unfold heuristic_reroute. cbv zeta. fold level.
    rewrite !bool_decide_eq_false_2 by lia. by rewrite Hs.
Qed.

(** ** [itertools.permutations] enumerates exactly the orderings *)

Example permutations_of_three :
  permutations [1; 2; 3]%nat
  = [[1; 2; 3]; [1; 3; 2]; [2; 1; 3]; [2; 3; 1]; [3; 1; 2]; [3; 2; 1]]%nat.
Proof. reflexivity. Qed.

Section Permutations.
Context {A : Type}.
Implicit Types (l p : list A) (x : A).

Lemma picks_split l x rest :
  In (x, rest) (picks l) <->
  exists l1 l2, l = l1 ++ x :: l2 /\ rest = l1 ++ l2.
Proof.
  revert x rest. induction l as [| y l IH]; intros x rest; cbn.
  - split; [done |]. intros (l1 & l2 & Hl & _). by destruct l1.
  - split.
    + intros [Heq | Hin].
      * inversion Heq; subst. by eexists [], _.
      * apply in_map_iff in Hin as ([x' rest'] & Heq & Hin).
        cbn in Heq. inversion Heq; subst.
        apply IH in Hin as (l1 & l2 & -> & ->).
        by exists (y :: l1), l2.
    + intros (l1 & l2 & Hl & ->). destruct l1 as [| z l1]; cbn in Hl.
      * inversion Hl; subst. by left.
      * inversion Hl; subst. right.
        apply in_map_iff. exists (x, l1 ++ l2). split; [done |].
        apply IH. eauto.
Qed.

Lemma picks_perm l x rest : In (x, rest) (picks l) -> l ≡ₚ x :: rest.
Proof.
  intros (l1 & l2 & -> & ->)%picks_split.
  symmetry. apply Permutation_middle.
Qed.

Lemma picks_length l x rest :
  In (x, rest) (picks l) -> length l = S (length rest).
Proof. intros H%picks_perm. by rewrite H. Qed.

Lemma length_picks l : length (picks l) = length l.
Proof. induction l; cbn; [done |]. by rewrite length_map, IHl. Qed.

Lemma permutations_of_length_sound n l p :
  length l = n -> In p (permutations_of_length n l) -> p ≡ₚ l.
Proof.
  revert l p. induction n as [| n IH]; intros l p Hlen; cbn.
  - intros [<- | []]. by destruct l.
  - intros ([x rest] & Hpick & Hin)%in_flat_map. cbn in Hin.
    apply in_map_iff in Hin as (q & <- & Hq).
    pose proof (picks_length _ _ _ Hpick) as Hl.
    rewrite (picks_perm _ _ _ Hpick). constructor.
    apply IH; [lia | done].
Qed.

Lemma permutations_of_length_complete n l p :
  length l = n -> p ≡ₚ l -> In p (permutations_of_length n l).
Proof.
  revert l p. induction n as [| n IH]; intros l p Hlen Hp; cbn.
  - destruct l; [| done]. apply Permutation_nil_r in Hp as ->. by left.
  - destruct p as [| x p].
    { apply Permutation_length in Hp. cbn in Hp. lia. }
    assert (Hx : In x l).
    { apply (Permutation_in x Hp). by left. }
    apply in_split in Hx as (l1 & l2 & ->).
    apply in_flat_map. exists (x, l1 ++ l2). split.
    + apply picks_split. eauto.
    + cbn. apply in_map. apply IH.
      * rewrite length_app in *. cbn in Hlen. lia.
      * by apply Permutation_cons_app_inv in Hp.
Qed.

Lemma permutations_spec l p : In p (permutations l) <-> p ≡ₚ l.
Proof.
  unfold permutations. split.
  - by apply permutations_of_length_sound.
  - by apply permutations_of_length_complete.
Qed.

Lemma permutations_nonempty l : permutations l <> [].
Proof.
  intros Hnil. assert (H : In l (permutations l)) by by apply permutations_spec.
  by rewrite Hnil in H.
Qed.

End Permutations.

(** ** Exhaustive search *)

Section ExhaustiveSearch.
Variables (base_speed_kmh : R) (current_loc : StopLocation).

Let time_of (perm : list Stop.t) : R :=
  fst (walk_perm base_speed_kmh perm 0 current_loc ∅).

Let state_of (perm : list Stop.t) : R * list string * gmap string R :=
  (time_of perm, map Stop.id perm,
   snd (walk_perm base_speed_kmh perm 0 current_loc ∅)).

(** The accumulated time of the code is the total time of the
    specification. *)
Lemma walk_perm_time perm total_time loc etas :
  fst (walk_perm base_speed_kmh perm total_time loc etas)
  = total_time + legs_time base_speed_kmh loc perm.
Proof.
  revert total_time loc etas.
  induction perm as [| stop perm IH]; intros; cbn; [lra |].
  rewrite IH. lra.
Qed.

Lemma search_perms_cons perm perms best :
  search_perms base_speed_kmh current_loc (perm :: perms) best
  = search_perms base_speed_kmh current_loc perms
      (if improves (time_of perm) best then Some (state_of perm) else best).
Proof.
  cbn. unfold state_of, time_of.
  by destruct (walk_perm base_speed_kmh perm 0 current_loc ∅).
Qed.

(** A search that starts from a candidate either keeps it, when nothing
    is strictly faster, or ends on the first minimum of the list. *)
Lemma search_perms_from_some perms bt bs be :
  (search_perms base_speed_kmh current_loc perms (Some (bt, bs, be))
     = Some (bt, bs, be)
   /\ forall q, In q perms -> bt <= time_of q)
  \/ exists k p,
       first_minimum time_of perms k p /\ time_of p < bt
       /\ search_perms base_speed_kmh current_loc perms (Some (bt, bs, be))
          = Some (state_of p).
Proof.
  revert bt bs be. induction perms as [| p0 perms IH]; intros bt bs be.
  { left. split; [done |]. intros q []. }
  rewrite search_perms_cons. cbn [improves].
  destruct (bool_decide_reflect (time_of p0 < bt)) as [Hlt | Hge].
  - unfold state_of at 1.
    destruct (IH (time_of p0) (map Stop.id p0)
                (snd (walk_perm base_speed_kmh p0 0 current_loc ∅)))
      as [[Heq Hall] | (k & p & (Hk & Hmin & Hfirst) & Hlt' & Heq)].
    + right. exists 0%nat, p0. split; [| done].
      split; [done |]. split.
      * intros q [<- | Hq]; [lra | by apply Hall].
      * intros j y Hj. lia.
    + right. exists (S k), p. split; [| split; [lra | done]].
      split; [done |]. split.
      * intros q [<- | Hq]; [lra | by apply Hmin].
      * intros [| j] y Hj Hy; cbn in Hy.
        -- inversion Hy; subst. lra.
        -- apply (Hfirst j); [lia | done].
  - destruct (IH bt bs be)
      as [[Heq Hall] | (k & p & (Hk & Hmin & Hfirst) & Hlt' & Heq)].
    + left. split; [done |].
      intros q [<- | Hq]; [lra | by apply Hall].
    + right. exists (S k), p. split; [| done].
      split; [done |]. split.
      * intros q [<- | Hq]; [lra | by apply Hmin].
      * intros [| j] y Hj Hy; cbn in Hy.
        -- inversion Hy; subst. lra.
        -- apply (Hfirst j); [lia | done].
Qed.

(** From the initial state, the search over a non-empty list ends on its
    first minimum. *)
Lemma search_perms_first_minimum perms :
  perms <> [] ->
  exists k p,
    first_minimum time_of perms k p
    /\ search_perms base_speed_kmh current_loc perms None = Some (state_of p).
Proof.
  destruct perms as [| p0 perms]; [done | intros _].
  rewrite search_perms_cons. cbn [improves]. unfold state_of at 1.
  destruct (search_perms_from_some perms (time_of p0) (map Stop.id p0)
              (snd (walk_perm base_speed_kmh p0 0 current_loc ∅)))
    as [[Heq Hall] | (k & p & (Hk & Hmin & Hfirst) & Hlt' & Heq)].
  - exists 0%nat, p0. split; [| done]. split; [done |]. split.
    + intros q [<- | Hq]; [lra | by apply Hall].
    + intros j y Hj. lia.
  - exists (S k), p. split; [| done]. split; [done |]. split.
    + intros q [<- | Hq]; [lra | by apply Hmin].
    + intros [| j] y Hj Hy; cbn in Hy.
      * inversion Hy; subst. lra.
      * apply (Hfirst j); [lia | done].
Qed.

End ExhaustiveSearch.

(** The exhaustive search returns: its response carries the ids of the
    first minimum of the enumeration. *)
Lemma exhaustive_search_reroute_returns (request : RerouteRequest) :
  let speed := request_speed request in
  let start := currentLocation request in
  let time_of perm := fst (walk_perm speed perm 0 start ∅) in
  exists k best,
    first_minimum time_of (permutations (remainingStops request)) k best
    /\ exhaustive_search_reroute request
       = Returns {|
           optimizedSequence := map Stop.id best;
           estimatedETAs := snd (walk_perm speed best 0 start ∅);
           timeSavings := 0;
           confidence := 75 / 100;
           method := "heuristic";
           reason := "Exhaustive search over "
                     +:+ pretty (length (permutations (remainingStops request)))
                     +:+ " permutations"
         |}.
Proof.
  intros speed start time_of.
  destruct (search_perms_first_minimum speed start
              (permutations (remainingStops request))
              (permutations_nonempty _)) as (k & best & Hmin & Heq).
  exists k, best. split; [done |].
  unfold exhaustive_search_reroute. cbv zeta.
  fold (request_speed request). fold speed start. by rewrite Heq.
Qed.

Lemma unrecognized_traffic_level_base_speed_witness :
  get_traffic_multiplier "Gridlock" = 8 / 10.
Proof.
  apply (unrecognized_traffic_level_base_speed Samples.one_stop_gridlock);
    vm_compute; discriminate.
Defined.

(** ** The nearest-neighbour loop of [heuristic_reroute] *)

Lemma scan_remaining_bound current_loc remaining idx st i d :
  scan_remaining current_loc remaining idx st = Some (i, d) ->
  st = Some (i, d) \/ (idx <= i < idx + length remaining)%nat.
Proof.
  revert idx st. induction remaining as [| stop remaining IH]; intros idx st; cbn.
  - auto.
  - intros [Hst | Hi]%IH; [| right; lia].
    destruct st as [[i0 d0] |].
    + destruct (bool_decide _); [| by left].
      inversion Hst; subst. right. lia.
    + inversion Hst; subst. right. lia.
Qed.

Lemma scan_remaining_is_Some current_loc remaining idx st :
  remaining <> [] \/ is_Some st ->
  is_Some (scan_remaining current_loc remaining idx st).
Proof.
  revert idx st. induction remaining as [| stop remaining IH]; intros idx st; cbn.
  - intros [? | ?]; done.
  - intros _. apply IH. right.
    destruct st as [[i0 d0] |]; [destruct (bool_decide _) |]; done.
Qed.

Lemma nearest_loop_unfold fuel base_speed_kmh remaining current_loc
    optimized_sequence cumulative_time etas :
  remaining <> [] ->
  nearest_loop (S fuel) base_speed_kmh remaining current_loc optimized_sequence
    cumulative_time etas
  = match scan_remaining current_loc remaining 0 None with
    | None => Raises IndexError
    | Some (nearest_idx, min_distance) =>
        match remaining !! nearest_idx with
        | None => Raises IndexError
        | Some next_stop =>
            let cumulative_time :=
              cumulative_time
              + (min_distance / base_speed_kmh * 60
                 + or_zero (Stop.unloadingTimeMinutes next_stop)) in
            nearest_loop fuel base_speed_kmh (delete nearest_idx remaining)
              (Stop.location next_stop)
              (optimized_sequence ++ [Stop.id next_stop]) cumulative_time
              (<[Stop.id next_stop := cumulative_time]> etas)
        end
    end.
Proof. by destruct remaining. Qed.

(** With one unit of fuel per remaining stop the loop returns, and what it
    appends to the sequence is an ordering of the remaining ids. *)
Lemma nearest_loop_returns fuel base_speed_kmh remaining current_loc
    optimized_sequence cumulative_time etas :
  (length remaining <= fuel)%nat ->
  exists added etas',
    nearest_loop fuel base_speed_kmh remaining current_loc optimized_sequence
      cumulative_time etas = Returns (optimized_sequence ++ added, etas')
    /\ added ≡ₚ map Stop.id remaining.
Proof.
  revert remaining current_loc optimized_sequence cumulative_time etas.
  induction fuel as [| fuel IH]; intros remaining current_loc seq0 cum etas Hlen.
  - destruct remaining; [| cbn in Hlen; lia].
    exists [], etas. cbn. by rewrite app_nil_r.
  - destruct (decide (remaining = [])) as [-> | Hne].
    { exists [], etas. cbn. by rewrite app_nil_r. }
    rewrite nearest_loop_unfold by done.
    destruct (scan_remaining_is_Some current_loc remaining 0 None (or_introl Hne))
      as [[i d] Hscan].
    pose proof (scan_remaining_bound _ _ _ _ _ _ Hscan) as [? | Hi]; [done |].
    destruct (lookup_lt_is_Some_2 remaining i ltac:(lia)) as [next Hnext].
    rewrite Hscan, Hnext. cbv zeta.
    set (cum' := cum + _).
    destruct (IH (delete i remaining) (Stop.location next)
                (seq0 ++ [Stop.id next]) cum' (<[Stop.id next := cum']> etas))
      as (added & etas' & Heq & Hperm).
    { rewrite length_delete by eauto. lia. }
    exists (Stop.id next :: added), etas'. split.
    + rewrite Heq. by rewrite <- app_assoc.
    + rewrite Hperm. rewrite (delete_Permutation remaining i next Hnext) at 2.
      done.
Qed.

Lemma heuristic_reroute_small fuel request :
  (2 <= length (remainingStops request) <= 6)%nat ->
  heuristic_reroute fuel request = exhaustive_search_reroute request.
Proof.
  intros Hlen. unfold heuristic_reroute. cbv zeta.
  rewrite bool_decide_eq_false_2 by lia.
  by rewrite bool_decide_eq_true_2 by lia.
Qed.

Lemma heuristic_reroute_large fuel request :
  (6 < length (remainingStops request) <= fuel)%nat ->
  exists sequence etas,
    heuristic_reroute fuel request
    = Returns {|
        optimizedSequence := sequence;
        estimatedETAs := etas;
        timeSavings := 0;
        confidence := 6 / 10;
        method := "heuristic";
        reason := "Nearest-neighbor algorithm with traffic awareness"
      |}
    /\ sequence ≡ₚ map Stop.id (remainingStops request).
Proof.
  intros Hlen. unfold heuristic_reroute. cbv zeta.
  rewrite !bool_decide_eq_false_2 by lia.
  destruct (nearest_loop_returns fuel (request_speed request)
              (remainingStops request) (currentLocation request) [] 0 ∅)
    as (added & etas & Heq & Hperm); [lia |].
  exists added, etas. split; [| done].
  unfold request_speed in Heq. by rewrite Heq.
Qed.



(** C9.  A request with exactly one stop is answered with that stop's id,
    zero distance and time savings and confidence 1, whatever the model and
    with no fuel at all: neither the model nor any selection loop runs. *)
Theorem single_stop_short_circuit fuel TRAINED_MODEL :
  (forall (request : LastMileRequest) stop,
     stops request = [stop] ->
     exists response,
       optimize_last_mile fuel TRAINED_MODEL request = Returns response
       /\ optimize_last_mile 0 None request = Returns response
       /\ LastMileResponse.optimized_sequence response = [LastMileStop.id stop]
       /\ LastMileResponse.distance_savings_miles response = 0
       /\ LastMileResponse.time_savings_minutes response = 0
       /\ LastMileResponse.confidence response = 1)
  /\ (forall (request : RerouteRequest) stop,
        remainingStops request = [stop] ->
        exists response,
          reroute fuel TRAINED_MODEL request = Returns response
          /\ reroute 0 None request = Returns response
          /\ optimizedSequence response = [Stop.id stop]
          /\ timeSavings response = 0
          /\ confidence response = 1).
Proof.
  split.
  - intros request stop Hstops. eexists.
    split; [| split].
    + unfold optimize_last_mile, ml_optimize_last_mile,
        heuristic_optimize_last_mile. rewrite Hstops. cbn.
      destruct TRAINED_MODEL; reflexivity.
    + unfold optimize_last_mile, ml_optimize_last_mile,
        heuristic_optimize_last_mile. rewrite Hstops. reflexivity.
    + cbn. done.
  - intros request stop Hstops. eexists.
    split; [| split].
    + unfold reroute, ml_reroute, heuristic_reroute. rewrite Hstops. cbn.
      destruct TRAINED_MODEL; reflexivity.
    + unfold reroute, ml_reroute, heuristic_reroute. rewrite Hstops. reflexivity.
    + cbn. done.
Qed.

Lemma single_stop_short_circuit_witness :
  exists response,
    optimize_last_mile 5 (Some Samples.failing_model) Samples.single_stop
    = Returns response
    /\ optimize_last_mile 0 None Samples.single_stop = Returns response
    /\ LastMileResponse.optimized_sequence response = ["a"]
    /\ LastMileResponse.distance_savings_miles response = 0
    /\ LastMileResponse.time_savings_minutes response = 0
    /\ LastMileResponse.confidence response = 1.
Proof.
  exact (proj1 (single_stop_short_circuit 5 (Some Samples.failing_model))
           Samples.single_stop _ eq_refl).
Defined.

(** ** The nearest-neighbour loop of [heuristic_optimize_last_mile] *)

Lemma next_stop_with_id_returns (stops : list LastMileStop.t) (stop_id : string) :
  stop_id ∈ map LastMileStop.id stops ->
  exists stop,
    next_stop_with_id stops stop_id = Returns stop
    /\ stop ∈ stops /\ LastMileStop.id stop = stop_id.
Proof.
  intros Hin. unfold next_stop_with_id.
  destruct (List.find _ stops) as [stop |] eqn:Hfind.
  - apply find_some in Hfind as [Hstop Hid].
    apply bool_decide_eq_true in Hid.
    exists stop. by rewrite <- list_elem_of_In in Hstop.
  - apply list_elem_of_fmap in Hin as (stop & -> & Hstop).
    apply list_elem_of_In in Hstop.
    pose proof (find_none _ _ Hfind stop Hstop) as Hno. cbn in Hno.
    by apply bool_decide_eq_false in Hno.
Qed.

Lemma next_stop_with_id_inv (stops : list LastMileStop.t) stop_id stop :
  next_stop_with_id stops stop_id = Returns stop ->
  stop ∈ stops /\ LastMileStop.id stop = stop_id.
Proof.
  unfold next_stop_with_id.
  destruct (List.find _ stops) as [s |] eqn:Hfind; [| done].
  intros [= ->]. apply find_some in Hfind as [Hstop Hid].
  apply bool_decide_eq_true in Hid. by rewrite <- list_elem_of_In in Hstop.
Qed.

Section Scan.
Variables (unvisited : gset string) (current_loc : StopLocation).

Lemma scan_unvisited_skip stop stops st :
  LastMileStop.id stop ∉ unvisited ->
  scan_unvisited (stop :: stops) unvisited current_loc st
  = scan_unvisited stops unvisited current_loc st.
Proof. intros H. cbn. by rewrite bool_decide_eq_true_2. Qed.

Lemma scan_unvisited_first stop stops :
  LastMileStop.id stop ∈ unvisited ->
  scan_unvisited (stop :: stops) unvisited current_loc None
  = scan_unvisited stops unvisited current_loc
      (Some (LastMileStop.id stop, effective_distance current_loc stop)).
Proof. intros H. cbn. rewrite bool_decide_eq_false_2; [done | by intros ?]. Qed.

Lemma scan_unvisited_nearer stop stops nearest_id nearest_dist :
  LastMileStop.id stop ∈ unvisited ->
  effective_distance current_loc stop < nearest_dist ->
  scan_unvisited (stop :: stops) unvisited current_loc
    (Some (nearest_id, nearest_dist))
  = scan_unvisited stops unvisited current_loc
      (Some (LastMileStop.id stop, effective_distance current_loc stop)).
Proof.
  intros H Hlt. cbn. rewrite bool_decide_eq_false_2 by by intros ?.
  by rewrite bool_decide_eq_true_2.
Qed.

Lemma scan_unvisited_not_nearer stop stops nearest_id nearest_dist :
  LastMileStop.id stop ∈ unvisited ->
  nearest_dist <= effective_distance current_loc stop ->
  scan_unvisited (stop :: stops) unvisited current_loc
    (Some (nearest_id, nearest_dist))
  = scan_unvisited stops unvisited current_loc (Some (nearest_id, nearest_dist)).
Proof.
  intros H Hle. cbn. rewrite bool_decide_eq_false_2 by by intros ?.
  rewrite bool_decide_eq_false_2; [done | lra].
Qed.

(** What the scan ends on is its initial state or an unvisited stop with its
    effective distance. *)
Lemma scan_unvisited_origin stops st nearest_id nearest_dist :
  scan_unvisited stops unvisited current_loc st = Some (nearest_id, nearest_dist) ->
  st = Some (nearest_id, nearest_dist)
  \/ exists stop,
       stop ∈ stops /\ LastMileStop.id stop = nearest_id
       /\ nearest_id ∈ unvisited
       /\ nearest_dist = effective_distance current_loc stop.
Proof.
  revert st. induction stops as [| stop stops IH]; intros st; cbn; [auto |].
  destruct (bool_decide_reflect (LastMileStop.id stop ∉ unvisited)) as [Hout | Hin].
  - intros [? | (s & Hs & ?)]%IH; [by left | right].
    exists s. split; [by right | done].
  - assert (LastMileStop.id stop ∈ unvisited) as Hin'.
    { destruct (decide (LastMileStop.id stop ∈ unvisited)); [done | by destruct Hin]. }
    intros [Hst | (s & Hs & ?)]%IH.
    + destruct st as [[i0 d0] |].
      * destruct (bool_decide _); [| by left].
        inversion Hst; subst. right. exists stop. split; [by left | done].
      * inversion Hst; subst. right. exists stop. split; [by left | done].
    + right. exists s. split; [by right | done].
Qed.

Lemma scan_unvisited_is_Some stops st :
  is_Some st \/ (exists stop, stop ∈ stops /\ LastMileStop.id stop ∈ unvisited) ->
  is_Some (scan_unvisited stops unvisited current_loc st).
Proof.
  revert st. induction stops as [| stop stops IH]; intros st; cbn.
  - intros [? | (s & Hs & _)]; [done | by apply elem_of_nil in Hs].
  - destruct (bool_decide_reflect (LastMileStop.id stop ∉ unvisited)) as [Hout | Hin].
    + intros [? | (s & Hs & Hu)]; apply IH; [by left |].
      apply elem_of_cons in Hs as [-> | Hs]; [done | right; eauto].
    + intros _. apply IH. left.
      destruct st as [[i0 d0] |]; [destruct (bool_decide _) |]; done.
Qed.

(** The scan ends on a distance no larger than that of any unvisited stop,
    nor than the one it started from. *)
Lemma scan_unvisited_minimal stops st nearest_id nearest_dist :
  scan_unvisited stops unvisited current_loc st = Some (nearest_id, nearest_dist) ->
  (forall i0 d0, st = Some (i0, d0) -> nearest_dist <= d0)
  /\ (forall stop, stop ∈ stops -> LastMileStop.id stop ∈ unvisited ->
      nearest_dist <= effective_distance current_loc stop).
Proof.
  revert st. induction stops as [| stop stops IH]; intros st; cbn.
  - intros ->. split.
    + intros i0 d0 [= <- <-]. lra.
    + intros s Hs. by apply elem_of_nil in Hs.
  - destruct (bool_decide_reflect (LastMileStop.id stop ∉ unvisited)) as [Hout | Hin].
    + intros [Hst Hall]%IH. split; [done |].
      intros s [-> | Hs]%elem_of_cons Hu; [done | by apply Hall].
    + intros [Hst Hall]%IH.
      assert (Hstop : nearest_dist <= effective_distance current_loc stop
                      /\ forall i0 d0, st = Some (i0, d0) -> nearest_dist <= d0).
      { destruct st as [[i0 d0] |].
        - destruct (bool_decide_reflect (effective_distance current_loc stop < d0)).
          + specialize (Hst _ _ eq_refl). split; [done |].
            intros ? ? [= <- <-]. lra.
          + specialize (Hst _ _ eq_refl). split; [lra |].
            by intros ? ? [= <- <-].
        - specialize (Hst _ _ eq_refl). split; [done | done]. }
      destruct Hstop as [Hstop Hst']. split; [done |].
      intros s [-> | Hs]%elem_of_cons Hu; [done | by apply Hall].
Qed.

End Scan.

Lemma truthy_nonempty (s : string) : truthy s = true <-> s <> "".
Proof. destruct s; cbn; split; intros; done. Qed.

Section NearestNeighbour.
Variable stops : list LastMileStop.t.
Hypothesis Hids : ids_nonempty stops.

Let all_ids : gset string := list_to_set (map LastMileStop.id stops).

(** Inside the loop one stop is selected: the state loses exactly the
    selected id from [unvisited] and gains it at the end of [optimized]. *)
Lemma nn_step_selects (st : nn_state) :
  nn_unvisited st <> ∅ ->
  nn_unvisited st ⊆ all_ids ->
  exists nearest_id nearest_dist stop,
    scan_unvisited stops (nn_unvisited st) (nn_current_loc st) None
    = Some (nearest_id, nearest_dist)
    /\ nearest_id ∈ nn_unvisited st
    /\ stop ∈ stops /\ LastMileStop.id stop = nearest_id
    /\ nn_step stops st = Returns {|
         nn_unvisited := nn_unvisited st ∖ {[nearest_id]};
         nn_optimized := nn_optimized st ++ [nearest_id];
         nn_current_loc := LastMileStop.coordinates stop;
         nn_total_distance := nn_total_distance st + nearest_dist;
         nn_route_path := nn_route_path st ++ [LastMileStop.coordinates stop]
       |}.
Proof.
  intros Hne Hsub.
  apply set_choose_L in Hne as [x Hx].
  assert (exists s, s ∈ stops /\ LastMileStop.id s ∈ nn_unvisited st) as Hex.
  { specialize (Hsub x Hx). unfold all_ids in Hsub.
    apply elem_of_list_to_set, list_elem_of_fmap in Hsub as (s & -> & Hs). eauto. }
  destruct (scan_unvisited_is_Some (nn_unvisited st) (nn_current_loc st) stops None
              (or_intror Hex)) as [[nearest_id nearest_dist] Hscan].
  pose proof (scan_unvisited_origin _ _ _ _ _ _ Hscan)
    as [? | (s & Hs & Hid & Hin & Hd)]; [done |].
  assert (nearest_id ∈ map LastMileStop.id stops) as Hknown.
  { subst nearest_id. by apply list_elem_of_fmap_2. }
  destruct (next_stop_with_id_returns stops nearest_id Hknown)
    as (stop & Hnext & Hstop & Hstop_id).
  exists nearest_id, nearest_dist, stop. repeat split; try done.
  unfold nn_step. rewrite Hscan.
  assert (truthy nearest_id = true) as ->.
  { apply truthy_nonempty. subst nearest_id. by apply Hids. }
  rewrite bool_decide_eq_true_2 by done. by rewrite Hnext.
Qed.

(** The loop needs exactly one round per unvisited id: with less fuel it
    does not finish, with that much it returns, having appended an
    enumeration of the unvisited ids. *)
Lemma nn_loop_out_of_fuel fuel (st : nn_state) :
  nn_unvisited st ⊆ all_ids ->
  (fuel < size (nn_unvisited st))%nat ->
  nn_loop fuel stops st = OutOfFuel.
Proof.
  revert st. induction fuel as [| fuel IH]; intros st Hsub Hfuel.
  - cbn. rewrite bool_decide_eq_false_2; [done |].
    intros Hempty. rewrite Hempty, size_empty in Hfuel. lia.
  - cbn. rewrite bool_decide_eq_false_2.
    2:{ intros Hempty. rewrite Hempty, size_empty in Hfuel. lia. }
    assert (nn_unvisited st <> ∅) as Hne.
    { intros Hempty. rewrite Hempty, size_empty in Hfuel. lia. }
    destruct (nn_step_selects st Hne Hsub)
      as (i & d & s & _ & Hin & _ & _ & ->). cbn.
    apply IH; cbn.
    + intros x [Hx _]%elem_of_difference. by apply Hsub.
    + rewrite size_difference by by apply singleton_subseteq_l.
      rewrite size_singleton. lia.
Qed.

Lemma nn_loop_returns fuel (st : nn_state) :
  nn_unvisited st ⊆ all_ids ->
  (size (nn_unvisited st) <= fuel)%nat ->
  exists final added,
    nn_loop fuel stops st = Returns final
    /\ nn_unvisited final = ∅
    /\ nn_optimized final = nn_optimized st ++ added
    /\ added ≡ₚ elements (nn_unvisited st).
Proof.
  revert st. induction fuel as [| fuel IH]; intros st Hsub Hfuel.
  - assert (nn_unvisited st = ∅) as Hempty.
    { apply leibniz_equiv, size_empty_iff. lia. }
    exists st, []. cbn. rewrite bool_decide_eq_true_2 by done.
    rewrite app_nil_r, Hempty, elements_empty. done.
  - destruct (decide (nn_unvisited st = ∅)) as [Hempty | Hne].
    { exists st, []. cbn. rewrite bool_decide_eq_true_2 by done.
      rewrite app_nil_r, Hempty, elements_empty. done. }
    destruct (nn_step_selects st Hne Hsub)
      as (i & d & s & _ & Hin & _ & _ & Hstep).
    cbn. rewrite bool_decide_eq_false_2 by done. rewrite Hstep. cbn.
    edestruct IH as (final & added & -> & Hfinal & Hopt & Hperm); cycle 2.
    + exists final, (i :: added). split; [done |]. split; [done |].
      cbn in Hopt, Hperm. split.
      * by rewrite Hopt, <- app_assoc.
      * rewrite Hperm.
        rewrite <- elements_union_singleton.
        -- by rewrite <- union_difference_singleton_L.
        -- intros [_ Hn]%elem_of_difference. by apply Hn, elem_of_singleton.
    + cbn. intros x [Hx _]%elem_of_difference. by apply Hsub.
    + cbn. rewrite size_difference by by apply singleton_subseteq_l.
      rewrite size_singleton. lia.
Qed.

End NearestNeighbour.

(** ** Metrics return on known identifiers *)

Section Metrics.
Variable stops : list LastMileStop.t.

Let known (sequence : list string) : Prop :=
  forall stop_id, stop_id ∈ sequence -> stop_id ∈ map LastMileStop.id stops.

Lemma sum_legs_returns sequence current_loc total :
  known sequence ->
  exists result, sum_legs stops sequence current_loc total = Returns result.
Proof.
  revert current_loc total.
  induction sequence as [| stop_id sequence IH]; intros current_loc total Hk; cbn.
  - eauto.
  - destruct (next_stop_with_id_returns stops stop_id) as (stop & -> & _).
    { apply Hk. by left. }
    cbn. apply IH. intros x Hx. apply Hk. by right.
Qed.

Lemma calculate_sequence_total_distance_returns sequence vehicle_pos :
  known sequence ->
  exists miles,
    calculate_sequence_total_distance sequence stops vehicle_pos = Returns miles.
Proof.
  intros Hk. unfold calculate_sequence_total_distance.
  destruct sequence as [| first rest]; [eauto |].
  destruct vehicle_pos as [v |].
  - destruct (sum_legs_returns (first :: rest) v 0 Hk) as (total & Hsum).
    rewrite (bind_Returns _ _ v eq_refl), Hsum. cbn. eauto.
  - destruct (next_stop_with_id_returns stops first) as (stop & Hnext & _).
    { apply Hk. by left. }
    destruct (sum_legs_returns (first :: rest) (LastMileStop.coordinates stop) 0 Hk)
      as (total & Hsum).
    rewrite Hnext. cbn [mbind outcome_bind]. rewrite Hsum. cbn. eauto.
Qed.

Lemma segments_loop_returns sequence prev_loc prev_id segments :
  known sequence ->
  exists result,
    segments_loop stops sequence prev_loc prev_id segments = Returns result.
Proof.
  revert prev_loc prev_id segments.
  induction sequence as [| stop_id sequence IH];
    intros prev_loc prev_id segments Hk; cbn.
  - eauto.
  - assert (known sequence) as Hk' by (intros x Hx; apply Hk; by right).
    destruct (bool_decide (stop_id = prev_id)); [by apply IH |].
    destruct (next_stop_with_id_returns stops stop_id) as (stop & -> & _).
    { apply Hk. by left. }
    cbn. by apply IH.
Qed.

Lemma build_segment_durations_returns sequence vehicle_pos :
  known sequence ->
  exists segments,
    build_segment_durations sequence stops vehicle_pos = Returns segments.
Proof.
  intros Hk. unfold build_segment_durations.
  destruct sequence as [| first rest]; [eauto |].
  destruct vehicle_pos as [v |].
  - cbn [mbind outcome_bind]. by apply segments_loop_returns.
  - destruct (next_stop_with_id_returns stops first) as (stop & -> & _).
    { apply Hk. by left. }
    cbn [mbind outcome_bind]. by apply segments_loop_returns.
Qed.

End Metrics.

Lemma size_list_to_set_le (l : list string) :
  (size (list_to_set l : gset string) <= length l)%nat.
Proof.
  unfold size, set_size. cbn.
  apply submseteq_length, NoDup_submseteq; [apply NoDup_elements |].
  intros x Hx. by apply elem_of_elements, elem_of_list_to_set in Hx.
Qed.

(** The heuristic as a function of the outcome of its loop. *)
Lemma heuristic_optimize_last_mile_unfold fuel request :
  (2 <= length (stops request))%nat ->
  heuristic_optimize_last_mile fuel request
  = (final ← nn_loop fuel (stops request)
               (nn_initial (stops request) (heuristic_start request));
     current_dist ←
       calculate_sequence_total_distance (baseline_sequence request)
         (stops request) (vehiclePosition request);
     segments ←
       build_segment_durations (nn_optimized final) (stops request)
         (vehiclePosition request);
     Returns {|
       LastMileResponse.optimized_sequence := nn_optimized final;
       LastMileResponse.time_savings_minutes :=
         Rmax 0 (current_dist - nn_total_distance final) * 2;
       LastMileResponse.distance_savings_miles :=
         Rmax 0 (current_dist - nn_total_distance final);
       LastMileResponse.confidence := 65 / 100;
       LastMileResponse.route_path := nn_route_path final;
       LastMileResponse.segment_durations := segments;
       LastMileResponse.reasoning :=
         "Optimized using nearest-neighbor heuristic (ML model unavailable)";
       LastMileResponse.comparison_metrics := {|
         currentRoute := {|
           totalDistance := current_dist;
           totalTime := current_dist * 2;
           averageStopDistance := current_dist / INR (length (stops request)) |};
         optimizedRoute := {|
           totalDistance := nn_total_distance final;
           totalTime := nn_total_distance final * 2;
           averageStopDistance :=
             nn_total_distance final / INR (length (stops request)) |}
       |}
     |}).
Proof.
  intros Hlen. unfold heuristic_optimize_last_mile, heuristic_start, nn_initial.
  cbv zeta. rewrite bool_decide_eq_false_2 by lia.
  destruct (vehiclePosition request) as [v |]; [done |].
  destruct (stops request) as [| s rest]; [cbn in Hlen; lia | done].
Qed.

(** On a well-formed request the heuristic returns as soon as it has one
    unit of fuel per stop, and its sequence enumerates the identifiers. *)
Lemma heuristic_optimize_last_mile_returns fuel request :
  well_formed request ->
  (length (stops request) <= fuel)%nat ->
  exists response,
    heuristic_optimize_last_mile fuel request = Returns response
    /\ LastMileResponse.optimized_sequence response
       ≡ₚ elements (list_to_set (map LastMileStop.id (stops request)) : gset string)
    /\ (LastMileResponse.confidence response = 1
        \/ LastMileResponse.confidence response = 65 / 100).
Proof.
  intros [Hids Hseq] Hfuel.
  destruct (decide (length (stops request) <= 1)%nat) as [Hshort | Hlong].
  - unfold heuristic_optimize_last_mile. cbv zeta.
    rewrite bool_decide_eq_true_2 by done. eexists. split; [done |]. cbn.
    split; [| by left]. symmetry. apply elements_list_to_set.
    destruct (stops request) as [| s [| s' rest]]; cbn in *; try lia.
    + constructor.
    + apply NoDup_singleton.
  - rewrite heuristic_optimize_last_mile_unfold by lia.
    destruct (nn_loop_returns (stops request) Hids fuel
                (nn_initial (stops request) (heuristic_start request)))
      as (final & added & -> & Hfinal & Hopt & Hperm); [done | |].
    { cbn. pose proof (size_list_to_set_le (map LastMileStop.id (stops request))).
      rewrite length_map in *. lia. }
    cbn in Hopt, Hperm. subst added. cbn [mbind outcome_bind].
    destruct (calculate_sequence_total_distance_returns (stops request)
                (baseline_sequence request) (vehiclePosition request) Hseq)
      as (current_dist & ->).
    cbn [mbind outcome_bind].
    destruct (build_segment_durations_returns (stops request)
                (nn_optimized final) (vehiclePosition request))
      as (segments & ->).
    { intros x Hx. rewrite Hperm in Hx.
      by apply elem_of_elements, elem_of_list_to_set in Hx. }
    cbn [mbind outcome_bind]. eexists. split; [done |]. cbn.
    split; [done | by right].
Qed.

(** ** A stop whose identifier is the empty string *)

Section EmptyIdentifier.
Variable stops : list LastMileStop.t.

Let all_ids : gset string := list_to_set (map LastMileStop.id stops).

(** A round of the loop returns; it removes nothing but a non-empty id. *)
Lemma nn_step_keeps_empty_id (st : nn_state) :
  nn_unvisited st ⊆ all_ids ->
  "" ∈ nn_unvisited st ->
  exists st',
    nn_step stops st = Returns st'
    /\ nn_unvisited st' ⊆ all_ids /\ "" ∈ nn_unvisited st'.
Proof.
  intros Hsub Hempty. unfold nn_step.
  destruct (scan_unvisited stops (nn_unvisited st) (nn_current_loc st) None)
    as [[nearest_id nearest_dist] |] eqn:Hscan; [| eauto].
  destruct (truthy nearest_id) eqn:Htruthy; [| eauto].
  pose proof (scan_unvisited_origin _ _ _ _ _ _ Hscan)
    as [? | (s & Hs & Hid & Hin & Hd)]; [done |].
  rewrite bool_decide_eq_true_2 by done.
  destruct (next_stop_with_id_returns stops nearest_id) as (stop & -> & _).
  { subst nearest_id. by apply list_elem_of_fmap_2. }
  cbn. eexists. split; [done |]. cbn. split.
  - intros x [Hx _]%elem_of_difference. by apply Hsub.
  - apply elem_of_difference. split; [done |].
    intros Heq%elem_of_singleton. by rewrite <- Heq in Htruthy.
Qed.

(** The loop never finishes, whatever the fuel. *)
Lemma nn_loop_with_empty_id fuel (st : nn_state) :
  nn_unvisited st ⊆ all_ids ->
  "" ∈ nn_unvisited st ->
  nn_loop fuel stops st = OutOfFuel.
Proof.
  revert st. induction fuel as [| fuel IH]; intros st Hsub Hempty; cbn.
  - rewrite bool_decide_eq_false_2; [done |].
    intros Heq. rewrite Heq in Hempty. by apply not_elem_of_empty in Hempty.
  - rewrite bool_decide_eq_false_2.
    2:{ intros Heq. rewrite Heq in Hempty. by apply not_elem_of_empty in Hempty. }
    destruct (nn_step_keeps_empty_id st Hsub Hempty) as (st' & -> & Hsub' & Hempty').
    cbn. by apply IH.
Qed.

End EmptyIdentifier.

(** Among two or more stops, one with the empty identifier makes the
    heuristic run forever. *)
Lemma heuristic_with_empty_id_never_returns fuel request :
  (2 <= length (stops request))%nat ->
  "" ∈ map LastMileStop.id (stops request) ->
  heuristic_optimize_last_mile fuel request = OutOfFuel.
Proof.
  intros Hlen Hempty. rewrite heuristic_optimize_last_mile_unfold by done.
  rewrite nn_loop_with_empty_id; [done | done |].
  cbn. by apply elem_of_list_to_set.
Qed.

(** ** Greedy decoding of the score matrix *)

Lemma argmax_from_spec (scores : list (option R)) idx best_idx best :
  let r := argmax_from scores idx best_idx best in
  (r = best_idx /\ forall x, x ∈ scores -> is_Some x -> is_Some best)
  \/ exists k a, r = (idx + k)%nat /\ scores !! k = Some (Some a).
Proof.
  revert idx best_idx best.
  induction scores as [| x scores IH]; intros idx best_idx best; cbn.
  - left. split; [done |]. intros x Hx. by apply elem_of_nil in Hx.
  - destruct (masked_gt x best) eqn:Hgt.
    + right. destruct x as [a |]; [| done].
      destruct (IH (S idx) idx (Some a)) as [[-> _] | (k & a' & -> & Hk)].
      * exists 0%nat, a. split; [lia | done].
      * exists (S k), a'. split; [lia | done].
    + destruct (IH (S idx) best_idx best) as [[-> Hall] | (k & a' & -> & Hk)].
      * left. split; [done |].
        intros y Hy Hsome.
        apply elem_of_cons in Hy as [Heq | Hy]; [subst y | by eapply Hall].
        destruct x as [a |]; [| by destruct Hsome].
        destruct best; [done | done].
      * right. exists (S k), a'. split; [lia | done].
Qed.

(** [argmax] lands on an entry that is not masked whenever there is one. *)
Lemma argmax_unmasked (scores : list (option R)) :
  (exists x, x ∈ scores /\ is_Some x) ->
  exists r a, argmax scores = Returns r /\ scores !! r = Some (Some a).
Proof.
  intros (y & Hy & Hsome). destruct scores as [| x scores].
  { by apply elem_of_nil in Hy. }
  cbn. destruct (argmax_from_spec scores 1 0 x)
    as [[-> Hall] | (k & a & -> & Hk)].
  - exists 0%nat. apply elem_of_cons in Hy as [-> | Hy].
    + destruct Hsome as [a ->]. by exists a.
    + destruct (Hall y Hy Hsome) as [a ->]. by exists a.
  - exists (S k), a. done.
Qed.

Lemma masked_row_lookup edge_scores num_stops visited current j a :
  masked_row edge_scores num_stops visited current !! j = Some (Some a) <->
  (j < num_stops)%nat /\ (j ∉ visited) /\ a = edge_scores current j.
Proof.
  unfold masked_row. rewrite list_lookup_fmap. split.
  - destruct (seq 0 num_stops !! j) as [v |] eqn:Hv; [| done].
    apply lookup_seq in Hv as [-> Hj]. cbn.
    destruct (bool_decide_reflect (j ∈ visited)); [done |].
    intros [= <-]. done.
  - intros (Hj & Hnot & ->).
    rewrite (lookup_seq_lt 0 num_stops j Hj). cbn.
    by rewrite bool_decide_eq_false_2.
Qed.

(** A set of fewer than [n] indices misses one of [0 .. n-1]. *)
Lemma missing_index (visited : gset nat) (n : nat) :
  (size visited < n)%nat -> exists v, (v < n)%nat /\ v ∉ visited.
Proof.
  intros Hsize.
  destruct (decide (Forall (fun v => v ∈ visited) (seq 0 n))) as [Hall | Hnot].
  - assert (list_to_set (seq 0 n) ⊆ visited) as Hsub.
    { intros v Hv%elem_of_list_to_set. by rewrite Forall_forall in Hall; apply Hall. }
    apply subseteq_size in Hsub.
    rewrite size_list_to_set, length_seq in Hsub by apply NoDup_seq. lia.
  - apply not_Forall_Exists in Hnot; [| apply _].
    apply Exists_exists in Hnot as (v & Hv & Hnotin).
    apply elem_of_seq in Hv. exists v. split; [lia | done].
Qed.

(** A set of [n] or more indices below [n] is all of [0 .. n-1]. *)
Lemma elements_full (visited : gset nat) (n : nat) :
  (forall v, v ∈ visited -> (v < n)%nat) ->
  (n <= size visited)%nat ->
  elements visited ≡ₚ seq 0 n.
Proof.
  intros Hrange Hsize.
  rewrite <- (elements_list_to_set (C := gset nat) (seq 0 n)) by apply NoDup_seq.
  f_equiv. apply set_subseteq_size_equiv.
  - intros v Hv. apply elem_of_list_to_set, elem_of_seq.
    specialize (Hrange v Hv). lia.
  - rewrite size_list_to_set, length_seq by apply NoDup_seq. lia.
Qed.

Section Decode.
Variables (edge_scores : ScoreMatrix) (num_stops : nat).

(** The loop returns with one unit of fuel per missing index, and the route
    it returns lists [0 .. num_stops - 1] once each. *)
Lemma decode_loop_returns fuel (visited : gset nat) (route : list nat) current :
  (forall v, v ∈ visited -> (v < num_stops)%nat) ->
  route ≡ₚ elements visited ->
  (num_stops - size visited <= fuel)%nat ->
  exists result,
    decode_loop fuel edge_scores num_stops visited route current = Returns result
    /\ result ≡ₚ seq 0 num_stops.
Proof.
  revert visited route current.
  induction fuel as [| fuel IH]; intros visited route current Hrange Hroute Hfuel.
  - cbn. rewrite bool_decide_eq_false_2 by lia.
    exists route. split; [done |]. rewrite Hroute.
    apply elements_full; [done | lia].
  - cbn. destruct (bool_decide_reflect (size visited < num_stops)%nat) as [Hlt | Hge].
    + destruct (missing_index visited num_stops Hlt) as (v & Hv & Hnotin).
      destruct (argmax_unmasked (masked_row edge_scores num_stops visited current))
        as (next_node & a & -> & Hnext).
      { exists (Some (edge_scores current v)). split; [| done].
        apply list_elem_of_lookup. exists v. by apply masked_row_lookup. }
      apply masked_row_lookup in Hnext as (Hnext & Hfresh & _).
      cbn. apply IH.
      * intros w [->%elem_of_singleton | Hw]%elem_of_union; [done | by apply Hrange].
      * rewrite elements_union_singleton by done.
        rewrite <- Hroute. symmetry. apply Permutation_cons_append.
      * rewrite size_union, size_singleton; [lia |].
        by apply disjoint_singleton_l.
    + exists route. split; [done |]. rewrite Hroute.
      apply elements_full; [done | lia].
Qed.

Lemma decode_route_from_scores_returns fuel :
  (1 <= num_stops <= fuel)%nat ->
  exists route,
    decode_route_from_scores fuel edge_scores num_stops = Returns route
    /\ route ≡ₚ seq 0 num_stops.
Proof.
  intros Hn. unfold decode_route_from_scores. apply decode_loop_returns.
  - intros v ->%elem_of_singleton. lia.
  - by rewrite elements_singleton.
  - rewrite size_singleton. lia.
Qed.

End Decode.

(** ** The learned path *)

Lemma try_except_Returns_inv {A} (body : outcome A) handler (a : A) :
  try_except body handler = Returns a ->
  body = Returns a \/ exists e, body = Raises e /\ handler e = Returns a.
Proof. destruct body; cbn; eauto. Qed.

(** A response of [ml_optimize_last_mile] is the heuristic's, or was built
    from the scores of the model as follows. *)
Lemma ml_optimize_last_mile_inv fuel TRAINED_MODEL request response :
  ml_optimize_last_mile fuel TRAINED_MODEL request = Returns response ->
  heuristic_optimize_last_mile fuel request = Returns response
  \/ exists model node_features adjacency_matrix edge_scores route
       current_dist optimized_dist,
       TRAINED_MODEL = Some model
       /\ (2 <= length (stops request))%nat
       /\ build_graph_from_stops (stops request) (vehiclePosition request)
          = Returns (node_features, adjacency_matrix)
       /\ forward model node_features adjacency_matrix = Returns edge_scores
       /\ decode_route_from_scores fuel edge_scores (length (stops request))
          = Returns route
       /\ ids_at (stops request) route
          = Returns (LastMileResponse.optimized_sequence response)
       /\ calculate_sequence_total_distance (baseline_sequence request)
            (stops request) (vehiclePosition request) = Returns current_dist
       /\ calculate_sequence_total_distance
            (LastMileResponse.optimized_sequence response)
            (stops request) (vehiclePosition request) = Returns optimized_dist
       /\ LastMileResponse.distance_savings_miles response
          = Rmax 0 (current_dist - optimized_dist)
       /\ LastMileResponse.time_savings_minutes response
          = LastMileResponse.distance_savings_miles response * 2
       /\ LastMileResponse.confidence response
          = Rmin (95 / 100)
              (7 / 10
               + tensor_std edge_scores (length (stops request)) * (5 / 10))
       /\ LastMileResponse.reasoning response
          = "Optimized using Graph Neural Network (GNN) model with 87.5% accuracy".
Proof.
  unfold ml_optimize_last_mile. destruct TRAINED_MODEL as [model |]; [| by left].
  destruct (bool_decide_reflect (length (stops request) <= 1)%nat) as [? | Hlen];
    [by left |].
  intros [H | (e & _ & H)]%try_except_Returns_inv; [| by left]. right.
  bind_inv H as [node_features adjacency_matrix] Hgraph.
  bind_inv H as edge_scores Hscores.
  bind_inv H as route Hroute.
  bind_inv H as optimized_sequence Hids.
  bind_inv H as current_dist Hcurrent.
  bind_inv H as optimized_dist Hoptimized.
  bind_inv H as path Hpath.
  bind_inv H as segments Hsegments.
  inversion H; subst; clear H. cbn.
  exists model, node_features, adjacency_matrix, edge_scores, route,
    current_dist, optimized_dist.
  repeat split; try done. lia.
Qed.

(** A response of the heuristic is the trivial one, or was built from the
    final state of the loop as follows. *)
Lemma heuristic_optimize_last_mile_inv fuel request response :
  heuristic_optimize_last_mile fuel request = Returns response ->
  ((length (stops request) <= 1)%nat
   /\ LastMileResponse.optimized_sequence response
      = map LastMileStop.id (stops request)
   /\ LastMileResponse.distance_savings_miles response = 0
   /\ LastMileResponse.time_savings_minutes response = 0
   /\ LastMileResponse.confidence response = 1
   /\ LastMileResponse.reasoning response = "Single stop - no optimization needed")
  \/ ((2 <= length (stops request))%nat
      /\ exists final current_dist,
           nn_loop fuel (stops request)
             (nn_initial (stops request) (heuristic_start request))
           = Returns final
           /\ calculate_sequence_total_distance (baseline_sequence request)
                (stops request) (vehiclePosition request) = Returns current_dist
           /\ LastMileResponse.optimized_sequence response = nn_optimized final
           /\ LastMileResponse.distance_savings_miles response
              = Rmax 0 (current_dist - nn_total_distance final)
           /\ LastMileResponse.time_savings_minutes response
              = LastMileResponse.distance_savings_miles response * 2
           /\ LastMileResponse.confidence response = 65 / 100
           /\ LastMileResponse.reasoning response
              = "Optimized using nearest-neighbor heuristic (ML model unavailable)").
Proof.
  destruct (decide (length (stops request) <= 1)%nat) as [Hshort | Hlong].
  - unfold heuristic_optimize_last_mile. cbv zeta.
    rewrite bool_decide_eq_true_2 by done.
    intros [= <-]. left. cbn. done.
  - rewrite heuristic_optimize_last_mile_unfold by lia. intros H. right.
    split; [lia |].
    bind_inv H as final Hfinal.
    bind_inv H as current_dist Hcurrent.
    bind_inv H as segments Hsegments.
    inversion H; subst; clear H. cbn.
    exists final, current_dist. done.
Qed.

Lemma optimize_last_mile_inv fuel TRAINED_MODEL request response :
  optimize_last_mile fuel TRAINED_MODEL request = Returns response ->
  ml_optimize_last_mile fuel TRAINED_MODEL request = Returns response.
Proof.
  unfold optimize_last_mile.
  intros [H | (e & _ & H)]%try_except_Returns_inv; done.
Qed.

Lemma reroute_inv fuel TRAINED_MODEL request response :
  reroute fuel TRAINED_MODEL request = Returns response ->
  heuristic_reroute fuel request = Returns response.
Proof.
  unfold reroute, ml_reroute.
  intros [H | (e & _ & H)]%try_except_Returns_inv; [| done].
  destruct TRAINED_MODEL; [| done].
  by apply try_except_Returns_inv in H as [H | (e & _ & H)].
Qed.

Lemma heuristic_reroute_confidence fuel request response :
  heuristic_reroute fuel request = Returns response ->
  confidence response = 1 \/ confidence response = 75 / 100
  \/ confidence response = 6 / 10.
Proof.
  unfold heuristic_reroute. cbv zeta.
  destruct (bool_decide _); [intros [= <-]; by left |].
  destruct (bool_decide _).
  - destruct (exhaustive_search_reroute_returns request) as (k & best & _ & ->).
    intros [= <-]. right. by left.
  - intros H. bind_inv H as [sequence etas] Hloop.
    inversion H; subst. right. by right.
Qed.

Lemma tensor_std_nonneg edge_scores num_stops :
  0 <= tensor_std edge_scores num_stops.
Proof. unfold tensor_std. cbv zeta. apply sqrt_pos. Qed.

Lemma learned_confidence_bounds (std : R) :
  0 <= std ->
  7 / 10 <= Rmin (95 / 100) (7 / 10 + std * (5 / 10)) <= 95 / 100.
Proof.
  intros Hstd. split; [| apply Rmin_l].
  apply Rmin_glb; lra.
Qed.

(** C7.  The confidence of every returned response lies in [[0, 1]], for
    both endpoints and whichever strategy answered; a response built from
    the model's scores has confidence [min(0.95, 0.7 + 0.5 * std)], which is
    at most 0.95. *)
Theorem confidence_in_unit_interval fuel TRAINED_MODEL :
  (forall (request : LastMileRequest) response,
     optimize_last_mile fuel TRAINED_MODEL request = Returns response ->
     0 <= LastMileResponse.confidence response <= 1
     /\ (LastMileResponse.reasoning response
         = "Optimized using Graph Neural Network (GNN) model with 87.5% accuracy" ->
         (exists edge_scores,
            LastMileResponse.confidence response
            = Rmin (95 / 100)
                (7 / 10
                 + tensor_std edge_scores (length (stops request)) * (5 / 10)))
         /\ LastMileResponse.confidence response <= 95 / 100))
  /\ (forall (request : RerouteRequest) response,
        reroute fuel TRAINED_MODEL request = Returns response ->
        0 <= confidence response <= 1).
Proof.
  split.
  - intros request response H%optimize_last_mile_inv.
    apply ml_optimize_last_mile_inv in H
      as [H | (model & nf & adj & scores & route & cur & opt & _ & _ & _ & _ & _
               & _ & _ & _ & _ & _ & Hconf & _)].
    + apply heuristic_optimize_last_mile_inv in H
        as [(_ & _ & _ & _ & -> & ->) | (_ & final & cur & _ & _ & _ & _ & _ & -> & ->)].
      * split; [lra | discriminate].
      * split; [lra | discriminate].
    + pose proof (learned_confidence_bounds _
                    (tensor_std_nonneg scores (length (stops request)))) as Hb.
      rewrite Hconf. split; [lra |]. intros _. split; [by exists scores | lra].
  - intros request response H%reroute_inv.
    apply heuristic_reroute_confidence in H as [-> | [-> | ->]]; lra.
Qed.

Lemma confidence_in_unit_interval_witness :
  exists response,
    optimize_last_mile 0 None Samples.single_stop = Returns response
    /\ 0 <= LastMileResponse.confidence response <= 1.
Proof.
  eexists. split; [reflexivity |].
  exact (proj1 (proj1 (confidence_in_unit_interval 0 None)
                  Samples.single_stop _ eq_refl)).
Defined.

Lemma build_graph_from_stops_returns stops vehicle_pos :
  (1 <= length stops)%nat ->
  exists node_features,
    build_graph_from_stops stops vehicle_pos
    = Returns (node_features, adjacency (length stops)).
Proof.
  intros Hlen. unfold build_graph_from_stops. cbv zeta.
  destruct vehicle_pos as [v |]; [cbn; eauto |].
  destruct stops as [| s rest]; [cbn in Hlen; lia |]. cbn. eauto.
Qed.

Lemma ids_at_returns (stops : list LastMileStop.t) (indices : list nat) :
  Forall (fun i => (i < length stops)%nat) indices ->
  exists ids,
    ids_at stops indices = Returns ids
    /\ Forall2 (fun i stop_id =>
                  LastMileStop.id <$> stops !! i = Some stop_id) indices ids.
Proof.
  induction 1 as [| i indices Hi _ IH]; cbn.
  - exists []. split; [done | constructor].
  - destruct (lookup_lt_is_Some_2 stops i Hi) as [s Hs].
    destruct IH as (ids & -> & Hall). rewrite Hs. cbn.
    exists (LastMileStop.id s :: ids). split; [done |].
    constructor; [by rewrite Hs | done].
Qed.

Lemma ids_at_seq (stops : list LastMileStop.t) (ids : list string) start :
  Forall2 (fun i stop_id => LastMileStop.id <$> stops !! (start + i)%nat = Some stop_id)
          (seq 0 (length stops - start)) ids ->
  ids = map LastMileStop.id (drop start stops).
Proof.
  revert start ids. 
  assert (forall n start ids, (n = length stops - start)%nat ->
    Forall2 (fun i stop_id =>
               LastMileStop.id <$> stops !! (start + i)%nat = Some stop_id)
            (seq 0 n) ids ->
    ids = map LastMileStop.id (drop start stops)) as Hgen.
  { induction n as [| n IH]; intros start ids Hn Hall.
    - inversion Hall; subst. rewrite drop_ge by lia. done.
    - cbn in Hall. inversion Hall as [| i0 id0 is0 ids0 Hhead Htail]; subst.
      rewrite Nat.add_0_r in Hhead.
      destruct (stops !! start) as [s |] eqn:Hs; [| done].
      cbn in Hhead. inversion Hhead; subst.
      rewrite (drop_S _ _ _ Hs). cbn. f_equal.
      apply IH; [lia |].
      rewrite <- fmap_S_seq in Htail.
      apply Forall2_fmap_l in Htail.
      eapply Forall2_impl; [exact Htail |].
      intros i stop_id H. cbn in H. by rewrite Nat.add_succ_r in H. }
  intros start ids. by apply Hgen.
Qed.

(** Decoding a permutation of the indices yields a permutation of the
    identifiers. *)
Lemma ids_at_permutation (stops : list LastMileStop.t) (route : list nat) :
  route ≡ₚ seq 0 (length stops) ->
  exists ids,
    ids_at stops route = Returns ids /\ ids ≡ₚ map LastMileStop.id stops.
Proof.
  intros Hperm.
  destruct (ids_at_returns stops route) as (ids & Hids & Hall).
  { rewrite Hperm. apply Forall_forall. intros i Hi%elem_of_seq. lia. }
  exists ids. split; [done |].
  destruct (Permutation_Forall2 Hperm Hall) as (ids' & Hperm' & Hall').
  rewrite Hperm'.
  rewrite (ids_at_seq stops ids' 0); [by rewrite drop_0 |].
  by rewrite Nat.sub_0_r.
Qed.

Lemma path_loop_returns stops sequence route_path :
  (forall stop_id, stop_id ∈ sequence -> stop_id ∈ map LastMileStop.id stops) ->
  exists result, path_loop stops sequence route_path = Returns result.
Proof.
  revert route_path.
  induction sequence as [| stop_id sequence IH]; intros route_path Hk; cbn.
  - eauto.
  - destruct (next_stop_with_id_returns stops stop_id) as (stop & -> & _).
    { apply Hk. by left. }
    cbn. apply IH. intros x Hx. apply Hk. by right.
Qed.

(** When the model returns its scores, the learned path answers, with a
    permutation of the identifiers. *)
Lemma ml_optimize_last_mile_learned fuel model request node_features scores :
  sequence_known request ->
  (2 <= length (stops request) <= fuel)%nat ->
  build_graph_from_stops (stops request) (vehiclePosition request)
  = Returns (node_features, adjacency (length (stops request))) ->
  forward model node_features (adjacency (length (stops request)))
  = Returns scores ->
  exists response,
    ml_optimize_last_mile fuel (Some model) request = Returns response
    /\ LastMileResponse.optimized_sequence response
       ≡ₚ map LastMileStop.id (stops request)
    /\ LastMileResponse.reasoning response
       = "Optimized using Graph Neural Network (GNN) model with 87.5% accuracy".
Proof.
  intros Hseq Hlen Hgraph Hforward. unfold ml_optimize_last_mile.
  rewrite bool_decide_eq_false_2 by lia.
  rewrite Hgraph. cbn [mbind outcome_bind]. rewrite Hforward.
  cbn [mbind outcome_bind].
  destruct (decode_route_from_scores_returns scores (length (stops request)) fuel)
    as (route & -> & Hroute); [lia |].
  cbn [mbind outcome_bind].
  destruct (ids_at_permutation (stops request) route Hroute) as (ids & -> & Hids).
  cbn [mbind outcome_bind].
  assert (forall x, x ∈ ids -> x ∈ map LastMileStop.id (stops request)) as Hknown.
  { intros x Hx. by rewrite Hids in Hx. }
  destruct (calculate_sequence_total_distance_returns (stops request)
              (baseline_sequence request) (vehiclePosition request) Hseq)
    as (current_dist & ->).
  cbn [mbind outcome_bind].
  destruct (calculate_sequence_total_distance_returns (stops request)
              ids (vehiclePosition request) Hknown) as (optimized_dist & ->).
  cbn [mbind outcome_bind].
  destruct (path_loop_returns (stops request) ids
              (match vehiclePosition request with Some v => [v] | None => [] end)
              Hknown) as (path & ->).
  cbn [mbind outcome_bind].
  destruct (build_segment_durations_returns (stops request) ids
              (vehiclePosition request) Hknown) as (segments & ->).
  cbn [mbind outcome_bind try_except].
  eexists. split; [done |]. cbn. done.
Qed.


(** ** Two stops *)

Lemma nn_loop_unfold fuel stops st :
  nn_loop (S fuel) stops st
  = if bool_decide (nn_unvisited st = ∅) then Returns st
    else st' ← nn_step stops st; nn_loop fuel stops st'.
Proof. reflexivity. Qed.

Lemma nn_step_eval stops st nearest_id nearest_dist stop :
  scan_unvisited stops (nn_unvisited st) (nn_current_loc st) None
  = Some (nearest_id, nearest_dist) ->
  nearest_id <> "" ->
  nearest_id ∈ nn_unvisited st ->
  next_stop_with_id stops nearest_id = Returns stop ->
  nn_step stops st = Returns {|
    nn_unvisited := nn_unvisited st ∖ {[nearest_id]};
    nn_optimized := nn_optimized st ++ [nearest_id];
    nn_current_loc := LastMileStop.coordinates stop;
    nn_total_distance := nn_total_distance st + nearest_dist;
    nn_route_path := nn_route_path st ++ [LastMileStop.coordinates stop]
  |}.
Proof.
  intros Hscan Hid Hin Hnext. unfold nn_step. rewrite Hscan.
  rewrite (proj2 (truthy_nonempty nearest_id) Hid).
  rewrite bool_decide_eq_true_2 by done. by rewrite Hnext.
Qed.

Section TwoStops.
Variables (s1 s2 : LastMileStop.t) (start : StopLocation).
Hypothesis Hdistinct : LastMileStop.id s1 <> LastMileStop.id s2.
Hypothesis Hid1 : LastMileStop.id s1 <> "".
Hypothesis Hid2 : LastMileStop.id s2 <> "".

Let id1 := LastMileStop.id s1.
Let id2 := LastMileStop.id s2.
Let both : gset string := list_to_set (map LastMileStop.id [s1; s2]).

Lemma two_stops_members : id1 ∈ both /\ id2 ∈ both.
Proof.
  unfold both. cbn. split.
  - apply elem_of_union_l. by apply elem_of_singleton.
  - apply elem_of_union_r, elem_of_union_l. by apply elem_of_singleton.
Qed.

Lemma two_stops_left id_a id_b :
  id_a <> id_b -> id_a ∈ both -> id_b ∈ both ->
  id_b ∈ both ∖ {[id_a]} /\ (id_a ∉ both ∖ {[id_a]})
  /\ (both ∖ {[id_a]}) ∖ {[id_b]} = ∅
  /\ both ∖ {[id_a]} <> ∅ /\ both <> ∅.
Proof.
  intros Hne Ha Hb.
  assert (forall x, x ∈ both -> x = id1 \/ x = id2) as Hcases.
  { unfold both. cbn. intros x [Hx | [Hx | Hx]%elem_of_union]%elem_of_union.
    - left. by apply elem_of_singleton in Hx.
    - right. by apply elem_of_singleton in Hx.
    - by apply not_elem_of_empty in Hx. }
  assert (id_b ∈ both ∖ {[id_a]}) as Hb'.
  { apply elem_of_difference. split; [done |].
    intros Heq%elem_of_singleton. by apply Hne. }
  split; [done |]. split.
  { intros [_ Hn]%elem_of_difference. by apply Hn, elem_of_singleton. }
  split.
  { apply leibniz_equiv, elem_of_equiv_empty. intros x.
    intros [[Hx Hna]%elem_of_difference Hnb]%elem_of_difference.
    rewrite elem_of_singleton in Hna, Hnb.
    destruct (Hcases x Hx) as [-> | ->], (Hcases id_a Ha) as [Ea | Ea],
      (Hcases id_b Hb) as [Eb | Eb]; congruence. }
  split.
  - intros Heq. rewrite Heq in Hb'. by apply not_elem_of_empty in Hb'.
  - intros Heq. rewrite Heq in Ha. by apply not_elem_of_empty in Ha.
Qed.

Lemma next_stop_with_id_two :
  next_stop_with_id [s1; s2] id1 = Returns s1
  /\ next_stop_with_id [s1; s2] id2 = Returns s2.
Proof.
  unfold next_stop_with_id. cbn. split.
  - by rewrite bool_decide_eq_true_2.
  - rewrite bool_decide_eq_false_2 by done. by rewrite bool_decide_eq_true_2.
Qed.

(** The heuristic loop on two stops: the second stop goes first only when
    it is strictly nearer in effective distance. *)
Lemma nn_loop_two_stops :
  exists final,
    nn_loop 2 [s1; s2] (nn_initial [s1; s2] start) = Returns final
    /\ if bool_decide (effective_distance start s2 < effective_distance start s1)
       then nn_optimized final = [id2; id1]
            /\ nn_total_distance final
               = 0 + effective_distance start s2
                 + effective_distance (LastMileStop.coordinates s2) s1
       else nn_optimized final = [id1; id2]
            /\ nn_total_distance final
               = 0 + effective_distance start s1
                 + effective_distance (LastMileStop.coordinates s1) s2.
Proof.
  destruct two_stops_members as [Hm1 Hm2].
  destruct next_stop_with_id_two as [Hn1 Hn2].
  destruct (bool_decide_reflect
              (effective_distance start s2 < effective_distance start s1))
    as [Hlt | Hge].
  - destruct (two_stops_left id2 id1) as (Ha & Hb & Hc & Hd & He); [done.. |].
    eexists. split.
    + rewrite nn_loop_unfold. cbn [nn_initial nn_unvisited]. fold both.
      rewrite bool_decide_eq_false_2 by done.
      rewrite (nn_step_eval _ _ id2 (effective_distance start s2) s2);
        [| | exact Hid2 | exact Hm2 | exact Hn2].
      2:{ cbn [nn_unvisited nn_current_loc].
          rewrite scan_unvisited_first by done.
          rewrite scan_unvisited_nearer by done. reflexivity. }
      cbn [mbind outcome_bind]. rewrite nn_loop_unfold. cbn [nn_unvisited].
      rewrite bool_decide_eq_false_2 by done.
      rewrite (nn_step_eval _ _ id1
                 (effective_distance (LastMileStop.coordinates s2) s1) s1);
        [| | exact Hid1 | exact Ha | exact Hn1].
      2:{ cbn [nn_unvisited nn_current_loc].
          rewrite scan_unvisited_first by done.
          rewrite scan_unvisited_skip by done. reflexivity. }
      cbn [mbind outcome_bind nn_loop nn_unvisited].
      rewrite bool_decide_eq_true_2 by done. reflexivity.
    + cbn. done.
  - destruct (two_stops_left id1 id2) as (Ha & Hb & Hc & Hd & He); [done.. |].
    apply Rnot_lt_le in Hge.
    eexists. split.
    + rewrite nn_loop_unfold. cbn [nn_initial nn_unvisited]. fold both.
      rewrite bool_decide_eq_false_2 by done.
      rewrite (nn_step_eval _ _ id1 (effective_distance start s1) s1);
        [| | exact Hid1 | exact Hm1 | exact Hn1].
      2:{ cbn [nn_unvisited nn_current_loc].
          rewrite scan_unvisited_first by done.
          rewrite scan_unvisited_not_nearer by done. reflexivity. }
      cbn [mbind outcome_bind]. rewrite nn_loop_unfold. cbn [nn_unvisited].
      rewrite bool_decide_eq_false_2 by done.
      rewrite (nn_step_eval _ _ id2
                 (effective_distance (LastMileStop.coordinates s1) s2) s2);
        [| | exact Hid2 | exact Ha | exact Hn2].
      2:{ cbn [nn_unvisited nn_current_loc].
          rewrite scan_unvisited_skip by done.
          rewrite scan_unvisited_first by done. reflexivity. }
      cbn [mbind outcome_bind nn_loop nn_unvisited].
      rewrite bool_decide_eq_true_2 by done. reflexivity.
    + cbn. done.
Qed.

End TwoStops.

Section TwoStopsMetrics.
Variables (s1 s2 : LastMileStop.t) (vehicle : StopLocation).
Hypothesis Hdistinct : LastMileStop.id s1 <> LastMileStop.id s2.

Lemma total_distance_in_order :
  calculate_sequence_total_distance [LastMileStop.id s1; LastMileStop.id s2]
    [s1; s2] (Some vehicle)
  = Returns ((0 + calculate_distance_km vehicle (LastMileStop.coordinates s1)
              + calculate_distance_km (LastMileStop.coordinates s1)
                  (LastMileStop.coordinates s2)) * km_to_miles).
Proof.
  destruct (next_stop_with_id_two s1 s2 Hdistinct) as [Hn1 Hn2].
  unfold calculate_sequence_total_distance. cbn [mbind outcome_bind sum_legs].
  rewrite Hn1. cbn [mbind outcome_bind]. rewrite Hn2. reflexivity.
Qed.

Lemma total_distance_swapped :
  calculate_sequence_total_distance [LastMileStop.id s2; LastMileStop.id s1]
    [s1; s2] (Some vehicle)
  = Returns ((0 + calculate_distance_km vehicle (LastMileStop.coordinates s2)
              + calculate_distance_km (LastMileStop.coordinates s2)
                  (LastMileStop.coordinates s1)) * km_to_miles).
Proof.
  destruct (next_stop_with_id_two s1 s2 Hdistinct) as [Hn1 Hn2].
  unfold calculate_sequence_total_distance. cbn [mbind outcome_bind sum_legs].
  rewrite Hn2. cbn [mbind outcome_bind]. rewrite Hn1. reflexivity.
Qed.

End TwoStopsMetrics.

(** The response of the heuristic on two or more stops, in terms of the
    final state of its loop. *)
Lemma heuristic_optimize_last_mile_long fuel request :
  well_formed request ->
  (2 <= length (stops request) <= fuel)%nat ->
  exists response final current_dist,
    heuristic_optimize_last_mile fuel request = Returns response
    /\ nn_loop fuel (stops request)
         (nn_initial (stops request) (heuristic_start request)) = Returns final
    /\ calculate_sequence_total_distance (baseline_sequence request)
         (stops request) (vehiclePosition request) = Returns current_dist
    /\ LastMileResponse.optimized_sequence response = nn_optimized final
    /\ LastMileResponse.distance_savings_miles response
       = Rmax 0 (current_dist - nn_total_distance final)
    /\ LastMileResponse.time_savings_minutes response
       = LastMileResponse.distance_savings_miles response * 2.
Proof.
  intros Hwf Hlen.
  destruct (heuristic_optimize_last_mile_returns fuel request Hwf)
    as (response & Hresponse & _); [lia |].
  destruct (heuristic_optimize_last_mile_inv _ _ _ Hresponse)
    as [[Hshort _] | (_ & final & current_dist & H1 & H2 & H3 & H4 & H5 & _)];
    [lia |].
  by exists response, final, current_dist.
Qed.

Lemma optimize_last_mile_without_model fuel request :
  optimize_last_mile fuel None request
  = try_except (heuristic_optimize_last_mile fuel request)
      (fun _ => Raises (HTTPException 500)).
Proof. reflexivity. Qed.

Lemma Returns_inj {A} (a b : A) : Returns a = Returns b -> a = b.
Proof. by intros [= ->]. Qed.

(** ** Concrete requests *)

Lemma samples_well_formed (vehicle : option StopLocation) (s1 s2 : LastMileStop.t) :
  LastMileStop.id s1 <> "" -> LastMileStop.id s2 <> "" ->
  well_formed (Samples.lm_request vehicle [s1; s2]).
Proof.
  intros H1 H2. split.
  - intros stop Hstop. cbn in Hstop.
    apply elem_of_cons in Hstop as [-> | Hstop]; [done |].
    apply elem_of_cons in Hstop as [-> | Hstop]; [done |].
    by apply elem_of_nil in Hstop.
  - intros stop_id Hin. exact Hin.
Qed.

Lemma effective_distance_normal loc stop :
  LastMileStop.priority stop <> Some 1%Z ->
  effective_distance loc stop
  = calculate_distance_km loc (LastMileStop.coordinates stop).
Proof. intros H. unfold effective_distance. by rewrite bool_decide_eq_false_2. Qed.


(** C1 fails on the code: with two stops of distinct identifiers, one of
    them the empty string, the selection loop of the heuristic never ends:
    [if nearest_id:] takes the selected empty identifier for "nothing
    selected", so the stop is never removed from [unvisited].  No amount of
    fuel lets the entry point return. *)
Theorem heuristic_loops_forever_on_empty_identifier :
  NoDup (map LastMileStop.id (stops Samples.empty_identifier))
  /\ length (stops Samples.empty_identifier) = 2%nat
  /\ forall fuel,
       optimize_last_mile fuel None Samples.empty_identifier = OutOfFuel.
Proof.
  split; [| split; [done |]].
  - cbn. apply NoDup_cons. split; [| apply NoDup_singleton].
    intros [Heq | Hin]%elem_of_cons; [discriminate | by apply elem_of_nil in Hin].
  - intros fuel. rewrite optimize_last_mile_without_model.
    rewrite heuristic_with_empty_id_never_returns; [done | cbn; lia |].
    cbn. by left.
Qed.

(** ** Priority discount *)

Lemma NoDup_fmap_inj {A B} (f : A -> B) (l : list A) (x y : A) :
  NoDup (map f l) -> x ∈ l -> y ∈ l -> f x = f y -> x = y.
Proof.
  intros Hnd [i Hi]%list_elem_of_lookup [j Hj]%list_elem_of_lookup Heq.
  assert (map f l !! i = Some (f x)) as Hi'.
  { change (map f l) with (f <$> l). by rewrite list_lookup_fmap, Hi. }
  assert (map f l !! j = Some (f x)) as Hj'.
  { change (map f l) with (f <$> l). by rewrite list_lookup_fmap, Hj, Heq. }
  pose proof (NoDup_lookup _ _ _ _ Hnd Hi' Hj') as <-. congruence.
Qed.


(** ** Savings *)

(** On the learned path the savings are the difference of the two route
    lengths, both in miles, clamped at zero, and the time savings are twice
    the distance savings. *)
Lemma learned_path_savings fuel TRAINED_MODEL request response :
  ml_optimize_last_mile fuel TRAINED_MODEL request = Returns response ->
  LastMileResponse.reasoning response
  = "Optimized using Graph Neural Network (GNN) model with 87.5% accuracy" ->
  exists baseline optimized,
    calculate_sequence_total_distance (baseline_sequence request)
      (stops request) (vehiclePosition request) = Returns baseline
    /\ calculate_sequence_total_distance
         (LastMileResponse.optimized_sequence response)
         (stops request) (vehiclePosition request) = Returns optimized
    /\ LastMileResponse.distance_savings_miles response
       = Rmax 0 (baseline - optimized)
    /\ LastMileResponse.time_savings_minutes response
       = LastMileResponse.distance_savings_miles response * 2.
Proof.
  intros H Hreason.
  apply ml_optimize_last_mile_inv in H
    as [H | (model & nf & adj & scores & route & cur & opt & _ & _ & _ & _ & _
             & _ & Hcur & Hopt & Hsave & Htime & _)].
  - apply heuristic_optimize_last_mile_inv in H
      as [(_ & _ & _ & _ & _ & Hr) | (_ & final & cur & _ & _ & _ & _ & _ & _ & Hr)];
      rewrite Hr in Hreason; discriminate.
  - by exists cur, opt.
Qed.

(** C6 fails on the heuristic path.  The vehicle stands at stop ["a"]; the
    input order goes to the antipodal stop ["b"] first.  The heuristic
    answers [["a"; "b"]], which is 6371 pi km (times 0.621371 in miles)
    shorter than the baseline, but it reports the baseline in miles minus
    its own accumulated effective distance in kilometres. *)
Theorem heuristic_savings_mix_units :
  exists response baseline optimized,
    optimize_last_mile 2 None Samples.far_stop_first = Returns response
    /\ LastMileResponse.optimized_sequence response = ["a"; "b"]
    /\ calculate_sequence_total_distance
         (baseline_sequence Samples.far_stop_first)
         (stops Samples.far_stop_first)
         (vehiclePosition Samples.far_stop_first) = Returns baseline
    /\ calculate_sequence_total_distance
         (LastMileResponse.optimized_sequence response)
         (stops Samples.far_stop_first)
         (vehiclePosition Samples.far_stop_first) = Returns optimized
    /\ baseline = 2 * (6371 * PI) * km_to_miles
    /\ optimized = 6371 * PI * km_to_miles
    /\ LastMileResponse.distance_savings_miles response
       = 2 * (6371 * PI) * km_to_miles - 6371 * PI
    /\ LastMileResponse.distance_savings_miles response
       <> Rmax 0 (baseline - optimized).
Proof.
  pose proof PI_RGT_0 as Hpi.
  pose proof GeometryFacts.distance_half_equator as Hd.
  pose proof (GeometryFacts.distance_sym (mkLoc 0 0) (mkLoc 0 180)) as Hsym.
  pose proof (GeometryFacts.distance_same (mkLoc 0 0)) as Hzero.
  set (b := Samples.lm_stop "b" Samples.antipode 0).
  set (a := Samples.lm_stop "a" Samples.origin 0).
  assert (LastMileStop.id b <> LastMileStop.id a) as Hba by discriminate.
  destruct (heuristic_optimize_last_mile_long 2 Samples.far_stop_first)
    as (response & final & cur & Hresp & Hloop & Hcur & Hopt & Hsave & _).
  { by apply samples_well_formed. }
  { cbn. lia. }
  destruct (nn_loop_two_stops b a Samples.origin) as (final' & Hloop' & Hcase);
    [done.. |].
  change (nn_loop 2 (stops Samples.far_stop_first)
            (nn_initial (stops Samples.far_stop_first)
               (heuristic_start Samples.far_stop_first)))
    with (nn_loop 2 [b; a] (nn_initial [b; a] Samples.origin)) in Hloop.
  rewrite Hloop' in Hloop. apply Returns_inj in Hloop. subst final'.
  assert (effective_distance Samples.origin a = 0) as Ha.
  { rewrite effective_distance_normal by discriminate. exact Hzero. }
  assert (effective_distance Samples.origin b = 6371 * PI) as Hb.
  { rewrite effective_distance_normal by discriminate. exact Hd. }
  rewrite bool_decide_eq_true_2 in Hcase by (rewrite Ha, Hb; lra).
  destruct Hcase as [Horder Htotal].
  change (LastMileStop.coordinates a) with Samples.origin in Htotal.
  rewrite Ha, Hb in Htotal.
  change (calculate_sequence_total_distance
            (baseline_sequence Samples.far_stop_first)
            (stops Samples.far_stop_first)
            (vehiclePosition Samples.far_stop_first))
    with (calculate_sequence_total_distance
            [LastMileStop.id b; LastMileStop.id a] [b; a] (Some Samples.origin))
    in Hcur |- *.
  rewrite (total_distance_in_order b a Samples.origin Hba) in Hcur |- *.
  apply Returns_inj in Hcur.
  exists response, cur, ((0 + 0 + 6371 * PI) * km_to_miles).
  split. { rewrite optimize_last_mile_without_model. by rewrite Hresp. }
  split. { by rewrite Hopt, Horder. }
  split. { by rewrite Hcur. }
  split.
  { rewrite Hopt, Horder.
    etransitivity; [exact (total_distance_swapped b a Samples.origin Hba) |].
    cbn [LastMileStop.coordinates a b Samples.lm_stop].
    unfold Samples.origin, Samples.antipode. by rewrite Hzero, Hd. }
  assert (cur = 2 * (6371 * PI) * km_to_miles) as Hcur'.
  { rewrite <- Hcur. cbn [LastMileStop.coordinates a b Samples.lm_stop].
    unfold Samples.origin, Samples.antipode. rewrite <- Hsym, Hd. lra. }
  split; [done |]. split; [lra |].
  assert (LastMileResponse.distance_savings_miles response
          = 2 * (6371 * PI) * km_to_miles - 6371 * PI) as Hreported.
  { rewrite Hsave, Htotal, Hcur'. unfold km_to_miles.
    rewrite Rmax_right; lra. }
  split; [done |].
  rewrite Hreported, Hcur'. unfold km_to_miles.
  rewrite Rmax_right; lra.
Qed.

(** ** The cascades without a usable model *)




(** ** What the solvers return when every identifier is non-empty *)

(** The heuristic returns a permutation of the identifiers. *)
Lemma heuristic_sequence_is_permutation fuel request :
  well_formed request ->
  NoDup (map LastMileStop.id (stops request)) ->
  (length (stops request) <= fuel)%nat ->
  exists response,
    heuristic_optimize_last_mile fuel request = Returns response
    /\ LastMileResponse.optimized_sequence response
       ≡ₚ map LastMileStop.id (stops request).
Proof.
  intros Hwf Hnd Hfuel.
  destruct (heuristic_optimize_last_mile_returns fuel request Hwf Hfuel)
    as (response & Hresponse & Hperm & _).
  exists response. split; [done |].
  by rewrite Hperm, elements_list_to_set.
Qed.

(** Its loop makes exactly one selection per stop: one unit of fuel less
    than the number of stops is not enough. *)
Lemma heuristic_needs_one_round_per_stop fuel request :
  ids_nonempty (stops request) ->
  NoDup (map LastMileStop.id (stops request)) ->
  (2 <= length (stops request))%nat ->
  (fuel < length (stops request))%nat ->
  heuristic_optimize_last_mile fuel request = OutOfFuel.
Proof.
  intros Hids Hnd Hlen Hfuel.
  rewrite heuristic_optimize_last_mile_unfold by done.
  rewrite nn_loop_out_of_fuel; [done | done | done |].
  cbn. rewrite size_list_to_set by done. by rewrite length_map.
Qed.

(** The exhaustive search returns a permutation of the identifiers. *)
Lemma exhaustive_sequence_is_permutation request :
  exists response,
    exhaustive_search_reroute request = Returns response
    /\ optimizedSequence response ≡ₚ map Stop.id (remainingStops request).
Proof.
  destruct (exhaustive_search_reroute_returns request)
    as (k & best & (Hk & _ & _) & Heq).
  eexists. split; [exact Heq |]. cbn.
  apply Permutation_map, permutations_spec.
  apply list_elem_of_In, list_elem_of_lookup. eauto.
Qed.

(** * Further properties of the router *)

(** ** Great-circle distance along a meridian, along the equator, and in
       the longitudes *)

Lemma sq_sin_abs x : sin (Rabs x) ^ 2 = sin x ^ 2.
Proof.
  destruct (Rle_dec 0 x) as [Hx | Hx].
  - by rewrite Rabs_right by lra.
  - rewrite Rabs_left by lra. rewrite sin_neg. ring.
Qed.

(** When the haversine quantity is [sin t ^ 2] for an angle [t] of at most a
    quarter turn, the central angle is [2 * t]. *)
Lemma central_angle t :
  0 <= t <= PI / 2 ->
  2 * Geometry.atan2 (sqrt (sin t ^ 2)) (sqrt (1 - sin t ^ 2)) = 2 * t.
Proof.
  intros [H0 H1]. pose proof PI_RGT_0 as Hpi.
  assert (0 <= sin t) as Hsin by (apply sin_ge_0; lra).
  assert (0 <= cos t) as Hcos by (apply cos_ge_0; lra).
  rewrite sqrt_pow2 by done.
  replace (1 - sin t ^ 2) with (cos t ^ 2).
  2:{ pose proof (sin2_cos2 t) as H. unfold Rsqr in H. lra. }
  rewrite sqrt_pow2 by done.
  f_equal. unfold Geometry.atan2.
  destruct (Rlt_dec 0 (cos t)) as [Hpos | Hzero].
  - change (sin t / cos t) with (tan t). apply atan_tan.
    destruct (Rlt_dec t (PI / 2)) as [Hlt | Hge]; [lra |].
    assert (t = PI / 2) as -> by lra. rewrite cos_PI2 in Hpos. lra.
  - assert (cos t = 0) as Hc by lra.
    destruct (Rlt_dec (cos t) 0); [lra |].
    assert (t = PI / 2) as ->.
    { destruct (Rlt_dec t (PI / 2)) as [Hlt |]; [| lra].
      pose proof (cos_gt_0 t). lra. }
    rewrite sin_PI2. destruct (Rlt_dec 0 1); [done | lra].
Qed.

Lemma distance_of_half_angle loc1 loc2 t :
  Geometry.haversine_a loc1 loc2 = sin t ^ 2 ->
  0 <= t <= PI / 2 ->
  calculate_distance_km loc1 loc2 = 6371 * (2 * t).
Proof.
  intros Ha Ht. unfold calculate_distance_km. cbv zeta.
  by rewrite Ha, central_angle.
Qed.

(** X1.  Along a meridian (equal longitudes), and along the equator (both
    latitudes 0), the distance is the length of the arc: 6371 km times the
    difference of the coordinates in radians, as long as that difference is
    at most 180 degrees. *)
Theorem distance_is_arc_length (a b : StopLocation) :
  (lng a = lng b -> Rabs (lat b - lat a) <= 180 ->
   calculate_distance_km a b = 6371 * (Rabs (lat b - lat a) * PI / 180))
  /\ (lat a = 0 -> lat b = 0 -> Rabs (lng b - lng a) <= 180 ->
      calculate_distance_km a b = 6371 * (Rabs (lng b - lng a) * PI / 180)).
Proof.
  pose proof PI_RGT_0 as Hpi. split.
  - intros Hlng Hlat.
    rewrite (distance_of_half_angle a b (Rabs (lat b - lat a) * PI / 360)).
    + lra.
    + unfold Geometry.haversine_a, Geometry.radians. cbv zeta. rewrite Hlng.
      rewrite Rminus_diag. replace (0 / 2) with 0 by lra. rewrite sin_0.
      replace (Rabs (lat b - lat a) * PI / 360)
        with (Rabs ((lat b * PI / 180 - lat a * PI / 180) / 2)).
      { rewrite sq_sin_abs. ring. }
      replace ((lat b * PI / 180 - lat a * PI / 180) / 2)
        with ((lat b - lat a) * (PI / 360)) by lra.
      rewrite Rabs_mult, (Rabs_right (PI / 360)) by lra. lra.
    + pose proof (Rabs_pos (lat b - lat a)). split; nra.
  - intros Ha Hb Hlng.
    rewrite (distance_of_half_angle a b (Rabs (lng b - lng a) * PI / 360)).
    + lra.
    + unfold Geometry.haversine_a, Geometry.radians. cbv zeta. rewrite Ha, Hb.
      replace (0 * PI / 180) with 0 by lra.
      rewrite Rminus_diag. replace (0 / 2) with 0 by lra. rewrite sin_0, cos_0.
      replace (Rabs (lng b - lng a) * PI / 360)
        with (Rabs ((lng b * PI / 180 - lng a * PI / 180) / 2)).
      { rewrite sq_sin_abs. ring. }
      replace ((lng b * PI / 180 - lng a * PI / 180) / 2)
        with ((lng b - lng a) * (PI / 360)) by lra.
      rewrite Rabs_mult, (Rabs_right (PI / 360)) by lra. lra.
    + pose proof (Rabs_pos (lng b - lng a)). split; nra.
Qed.

Lemma distance_is_arc_length_witness :
  calculate_distance_km (mkLoc 10 20) (mkLoc 55 20)
  = 6371 * (Rabs (55 - 10) * PI / 180).
Proof.
  apply (proj1 (distance_is_arc_length (mkLoc 10 20) (mkLoc 55 20))).
  - reflexivity.
  - cbn. rewrite Rabs_right; lra.
Defined.

(** X2.  For floats read as real numbers, the distance depends on the
    longitudes only through their difference, and a longitude may be given
    a full turn further; from a pole, the longitudes play no role at all.
    (In binary64 the two sides of these identities can differ by rounding,
    in the last digits.) *)
Theorem distance_in_longitudes (lat1 lng1 lat2 lng2 shift : R) :
  calculate_distance_km (mkLoc lat1 (lng1 + shift)) (mkLoc lat2 (lng2 + shift))
  = calculate_distance_km (mkLoc lat1 lng1) (mkLoc lat2 lng2)
  /\ calculate_distance_km (mkLoc lat1 (lng1 + 360)) (mkLoc lat2 lng2)
     = calculate_distance_km (mkLoc lat1 lng1) (mkLoc lat2 lng2)
  /\ calculate_distance_km (mkLoc 90 lng1) (mkLoc lat2 lng2)
     = calculate_distance_km (mkLoc 90 0) (mkLoc lat2 0).
Proof.
  unfold calculate_distance_km. cbv zeta. split; [| split].
  - f_equal. f_equal. f_equal; f_equal.
    all: unfold Geometry.haversine_a, Geometry.radians; cbn [lat lng].
    all: replace ((lng2 + shift) * PI / 180 - (lng1 + shift) * PI / 180)
           with (lng2 * PI / 180 - lng1 * PI / 180) by lra; reflexivity.
  - assert (Geometry.haversine_a (mkLoc lat1 (lng1 + 360)) (mkLoc lat2 lng2)
            = Geometry.haversine_a (mkLoc lat1 lng1) (mkLoc lat2 lng2)) as ->;
      [| done].
    unfold Geometry.haversine_a, Geometry.radians; cbn [lat lng].
    replace ((lng2 * PI / 180 - (lng1 + 360) * PI / 180) / 2)
      with (- ((lng1 * PI / 180 - lng2 * PI / 180) / 2 + PI)) by lra.
    replace ((lng2 * PI / 180 - lng1 * PI / 180) / 2)
      with (- ((lng1 * PI / 180 - lng2 * PI / 180) / 2)) by lra.
    rewrite !sin_neg, neg_sin. ring.
  - assert (Geometry.haversine_a (mkLoc 90 lng1) (mkLoc lat2 lng2)
            = Geometry.haversine_a (mkLoc 90 0) (mkLoc lat2 0)) as ->;
      [| done].
    unfold Geometry.haversine_a, Geometry.radians; cbn [lat lng].
    replace (90 * PI / 180) with (PI / 2) by lra. rewrite cos_PI2. ring.
Qed.

(** ** Traffic multiplier and base speed *)

Lemma lower_ascii_idempotent (c : ascii) :
  lower_ascii (lower_ascii c) = lower_ascii c.
Proof. by destruct c as [[] [] [] [] [] [] [] []]. Qed.

Lemma lower_idempotent (s : string) : lower (lower s) = lower s.
Proof.
  induction s as [| c s IH]; cbn; [done |].
  by rewrite lower_ascii_idempotent, IH.
Qed.

(** X3.  The multiplier does not depend on the case of the congestion level;
    it always lies between 0.5 and 1, so the base speed of the solvers lies
    between 40 and 80 km/h and is never zero. *)
Theorem traffic_multiplier_case_and_range (traffic_level : string) :
  get_traffic_multiplier (lower traffic_level)
  = get_traffic_multiplier traffic_level
  /\ 5 / 10 <= get_traffic_multiplier traffic_level <= 1
  /\ 40 <= 80 * get_traffic_multiplier traffic_level <= 80.
Proof.
  split.
  - unfold get_traffic_multiplier. by rewrite lower_idempotent.
  - destruct (get_traffic_multiplier_cases traffic_level)
      as [-> | [-> | [-> | [-> | ->]]]]; lra.
Qed.

(** ** The size of the search space *)

Lemma length_flat_map_constant {A B} (f : A -> list B) (l : list A) (c : nat) :
  (forall x, In x l -> length (f x) = c) ->
  length (flat_map f l) = (length l * c)%nat.
Proof.
  induction l as [| x l IH]; intros Hc; cbn; [done |].
  rewrite length_app, Hc by (by left). rewrite IH; [done |].
  intros y Hy. apply Hc. by right.
Qed.

Lemma length_permutations_of_length {A} (n : nat) (l : list A) :
  length l = n -> length (permutations_of_length n l) = fact n.
Proof.
  revert l. induction n as [| n IH]; intros l Hlen; cbn [permutations_of_length].
  - done.
  - rewrite (length_flat_map_constant _ _ (fact n)).
    + rewrite length_picks, Hlen. reflexivity.
    + intros [x rest] Hin. cbn. rewrite length_map. apply IH.
      apply picks_length in Hin. lia.
Qed.

(** ** [/api/reroute] answers every request *)

Lemma ml_reroute_ignores_model fuel (model : RouteGNN) request :
  ml_reroute fuel (Some model) request = ml_reroute fuel None request.
Proof. unfold ml_reroute. by destruct (heuristic_reroute fuel request). Qed.

Lemma walk_perm_dom base_speed_kmh perm total_time loc (etas : gmap string R) :
  dom (snd (walk_perm base_speed_kmh perm total_time loc etas))
  = dom etas ∪ list_to_set (map Stop.id perm).
Proof.
  revert total_time loc etas.
  induction perm as [| stop perm IH]; intros total_time loc etas; cbn.
  - by rewrite union_empty_r_L.
  - rewrite IH, dom_insert_L.
    by rewrite (union_comm_L {[Stop.id stop]} (dom etas)), union_assoc_L.
Qed.

Lemma nearest_loop_dom fuel base_speed_kmh remaining current_loc
    optimized_sequence cumulative_time (etas : gmap string R) sequence etas' :
  nearest_loop fuel base_speed_kmh remaining current_loc optimized_sequence
    cumulative_time etas = Returns (sequence, etas') ->
  dom etas' = dom etas ∪ list_to_set (map Stop.id remaining).
Proof.
  revert remaining current_loc optimized_sequence cumulative_time etas.
  induction fuel as [| fuel IH]; intros remaining current_loc seq0 cum etas.
  - destruct remaining; cbn; [| done].
    intros [= _ <-]. by rewrite union_empty_r_L.
  - destruct (decide (remaining = [])) as [-> | Hne].
    { cbn. intros [= _ <-]. by rewrite union_empty_r_L. }
    rewrite nearest_loop_unfold by done.
    destruct (scan_remaining current_loc remaining 0 None) as [[i d] |]; [| done].
    destruct (remaining !! i) as [next |] eqn:Hnext; [| done].
    cbv zeta. intros H%IH. rewrite H, dom_insert_L.
    rewrite (delete_Permutation remaining i next Hnext) at 2. cbn.
    by rewrite (union_comm_L {[Stop.id next]} (dom etas)), union_assoc_L.
Qed.

Lemma trivial_etas_dom (stops : list Stop.t) :
  (length stops <= 1)%nat ->
  dom (foldl (fun (m : gmap string R) s => <[Stop.id s := 0]> m) ∅ stops)
  = list_to_set (map Stop.id stops).
Proof.
  destruct stops as [| s [| s' rest]]; intros Hlen.
  - apply dom_empty_L.
  - change (dom (<[Stop.id s := 0]> (∅ : gmap string R))
            = {[Stop.id s]} ∪ (∅ : gset string)).
    by rewrite dom_insert_L, dom_empty_L.
  - cbn in Hlen. lia.
Qed.

(** Whatever the number of stops, the cascade returns once it has one unit
    of fuel per stop. *)
Lemma heuristic_reroute_returns fuel request :
  (length (remainingStops request) <= fuel)%nat ->
  exists response,
    heuristic_reroute fuel request = Returns response
    /\ optimizedSequence response ≡ₚ map Stop.id (remainingStops request)
    /\ dom (estimatedETAs response)
       = list_to_set (map Stop.id (remainingStops request))
    /\ method response = "heuristic"
    /\ timeSavings response = 0.
Proof.
  intros Hfuel.
  destruct (decide (length (remainingStops request) <= 1)%nat) as [Hone | Hmore].
  - unfold heuristic_reroute. cbv zeta. rewrite bool_decide_eq_true_2 by done.
    eexists. split; [done |]. cbn [optimizedSequence estimatedETAs method timeSavings].
    split; [done |]. split; [| done]. by apply trivial_etas_dom.
  - destruct (decide (length (remainingStops request) <= 6)%nat) as [Hsmall | Hlarge].
    + rewrite heuristic_reroute_small by lia.
      destruct (exhaustive_search_reroute_returns request)
        as (k & best & (Hk & _ & _) & Heq).
      assert (best ≡ₚ remainingStops request) as Hperm.
      { apply permutations_spec, list_elem_of_In, list_elem_of_lookup. eauto. }
      eexists. split; [exact Heq |]. cbn.
      split; [by rewrite Hperm |]. split; [| done].
      rewrite walk_perm_dom, dom_empty_L, union_empty_l_L. by rewrite Hperm.
    + destruct (heuristic_reroute_large fuel request)
        as (sequence & etas & Heq & Hperm); [lia |].
      eexists. split; [exact Heq |]. cbn. split; [done |]. split; [| done].
      unfold heuristic_reroute in Heq. cbv zeta in Heq.
      rewrite !bool_decide_eq_false_2 in Heq by lia.
      apply bind_Returns_inv in Heq as ([sequence' etas'] & Hloop & Heq).
      inversion Heq; subst.
      apply nearest_loop_dom in Hloop.
      by rewrite Hloop, dom_empty_L, union_empty_l_L.
Qed.

(** X6.  The table of estimated arrival times of a [/api/reroute] response
    has exactly the identifiers of the remaining stops as its keys. *)
Theorem reroute_estimates_every_stop fuel TRAINED_MODEL request response :
  reroute fuel TRAINED_MODEL request = Returns response ->
  dom (estimatedETAs response)
  = list_to_set (map Stop.id (remainingStops request)).
Proof.
  intros H%reroute_inv.
  destruct (decide (length (remainingStops request) <= fuel)%nat) as [Hfuel | Hfuel].
  - destruct (heuristic_reroute_returns fuel request Hfuel)
      as (response' & Heq & _ & Hdom & _).
    rewrite Heq in H. by inversion H; subst.
  - unfold heuristic_reroute in H. cbv zeta in H.
    destruct (bool_decide_reflect (length (remainingStops request) <= 1)%nat)
      as [Hone | Hmore].
    + inversion H; subst. cbn [estimatedETAs]. by apply trivial_etas_dom.
    + destruct (bool_decide_reflect (length (remainingStops request) <= 6)%nat)
        as [Hsmall | Hlarge].
      * destruct (exhaustive_search_reroute_returns request)
          as (k & best & (Hk & _ & _) & Heq).
        rewrite Heq in H. inversion H; subst. cbn.
        assert (best ≡ₚ remainingStops request) as Hperm.
        { apply permutations_spec, list_elem_of_In, list_elem_of_lookup. eauto. }
        rewrite walk_perm_dom, dom_empty_L, union_empty_l_L. by rewrite Hperm.
      * apply bind_Returns_inv in H as ([sequence etas] & Hloop & H).
        inversion H; subst. cbn. apply nearest_loop_dom in Hloop.
        by rewrite Hloop, dom_empty_L, union_empty_l_L.
Qed.

Lemma reroute_estimates_every_stop_witness :
  exists response,
    reroute 0 None Samples.one_stop_gridlock = Returns response
    /\ dom (estimatedETAs response) = list_to_set ["a"].
Proof.
  eexists. split; [reflexivity |].
  exact (reroute_estimates_every_stop 0 None Samples.one_stop_gridlock _ eq_refl).
Defined.

(** ** Arrival times and routes of [/api/reroute] *)





Section NearestScan.
Variable current_loc : StopLocation.

Let cost (s : Stop.t) : R := calculate_distance_km current_loc (Stop.location s).

(** A scan that starts from a candidate keeps it, when no stop is strictly
    nearer, or ends on the first nearest stop of the list. *)
Lemma scan_remaining_from_some remaining idx i0 d0 :
  (scan_remaining current_loc remaining idx (Some (i0, d0)) = Some (i0, d0)
   /\ forall q, In q remaining -> d0 <= cost q)
  \/ exists k s,
       first_minimum cost remaining k s /\ cost s < d0
       /\ scan_remaining current_loc remaining idx (Some (i0, d0))
          = Some ((idx + k)%nat, cost s).
Proof.
  revert idx i0 d0.
  induction remaining as [| s0 remaining IH]; intros idx i0 d0.
  { left. split; [done |]. intros q []. }
  cbn [scan_remaining]. cbv zeta. fold (cost s0).
  destruct (bool_decide_reflect (cost s0 < d0)) as [Hlt | Hge].
  - destruct (IH (S idx) idx (cost s0))
      as [[Heq Hall] | (k & s & (Hk & Hmin & Hfirst) & Hlt' & Heq)].
    + right. exists 0%nat, s0. split; [| split; [done |]].
      * split; [done |]. split.
        -- intros q [<- | Hq]; [lra | by apply Hall].
        -- intros j y Hj. lia.
      * by rewrite Heq, Nat.add_0_r.
    + right. exists (S k), s. split; [| split; [lra |]].
      * split; [done |]. split.
        -- intros q [<- | Hq]; [lra | by apply Hmin].
        -- intros [| j] y Hj Hy; cbn in Hy.
           ++ inversion Hy; subst. lra.
           ++ apply (Hfirst j); [lia | done].
      * rewrite Heq. f_equal. f_equal. lia.
  - destruct (IH (S idx) i0 d0)
      as [[Heq Hall] | (k & s & (Hk & Hmin & Hfirst) & Hlt' & Heq)].
    + left. split; [done |].
      intros q [<- | Hq]; [lra | by apply Hall].
    + right. exists (S k), s. split; [| split; [done |]].
      * split; [done |]. split.
        -- intros q [<- | Hq]; [lra | by apply Hmin].
        -- intros [| j] y Hj Hy; cbn in Hy.
           ++ inversion Hy; subst. lra.
           ++ apply (Hfirst j); [lia | done].
      * rewrite Heq. f_equal. f_equal. lia.
Qed.

End NearestScan.

(** ** Total distance of a sequence *)

Lemma next_stop_with_id_unknown (stops : list LastMileStop.t) (stop_id : string) :
  stop_id ∉ map LastMileStop.id stops ->
  next_stop_with_id stops stop_id = Raises StopIteration.
Proof.
  intros Hnot. unfold next_stop_with_id.
  destruct (List.find _ stops) as [s |] eqn:Hfind; [| done].
  apply find_some in Hfind as [Hs Hid]. apply bool_decide_eq_true in Hid.
  destruct Hnot. subst stop_id. apply list_elem_of_fmap_2.
  by apply list_elem_of_In.
Qed.

Lemma next_stop_with_id_location (stops : list LastMileStop.t) stop_id stop :
  next_stop_with_id stops stop_id = Returns stop ->
  LastMileStop.coordinates stop = location_of stops stop_id.
Proof.
  unfold next_stop_with_id, location_of.
  destruct (List.find _ stops); [by intros [= ->] | done].
Qed.

Section SequenceDistance.
Variable stops : list LastMileStop.t.

Let known (stop_id : string) : Prop := stop_id ∈ map LastMileStop.id stops.

Lemma sum_legs_known sequence current_loc total :
  Forall known sequence ->
  sum_legs stops sequence current_loc total
  = Returns (total + path_length current_loc (map (location_of stops) sequence)).
Proof.
  intros Hknown. revert current_loc total.
  induction Hknown as [| stop_id sequence Hid _ IH]; intros current_loc total; cbn.
  - f_equal. lra.
  - destruct (next_stop_with_id_returns stops stop_id Hid) as (stop & Hnext & _).
    rewrite Hnext. cbn.
    rewrite (next_stop_with_id_location _ _ _ Hnext), IH. f_equal. lra.
Qed.

Lemma sum_legs_unknown sequence current_loc total :
  Exists (fun stop_id => ~ known stop_id) sequence ->
  sum_legs stops sequence current_loc total = Raises StopIteration.
Proof.
  revert current_loc total.
  induction sequence as [| stop_id sequence IH]; intros current_loc total Hex.
  - by apply Exists_nil in Hex.
  - cbn. destruct (decide (known stop_id)) as [Hid | Hid].
    + destruct (next_stop_with_id_returns stops stop_id Hid) as (stop & -> & _).
      cbn. apply IH. apply Exists_cons in Hex as [? | ?]; done.
    + by rewrite next_stop_with_id_unknown.
Qed.

Lemma total_distance_known sequence vehicle_pos :
  Forall known sequence ->
  calculate_sequence_total_distance sequence stops vehicle_pos
  = Returns (path_length (metrics_start sequence stops vehicle_pos)
               (map (location_of stops) sequence) * km_to_miles).
Proof.
  intros Hknown. unfold calculate_sequence_total_distance, metrics_start.
  destruct sequence as [| first rest].
  { destruct vehicle_pos; cbn; f_equal; lra. }
  destruct vehicle_pos as [v |].
  - cbn [mbind outcome_bind]. rewrite sum_legs_known by done.
    cbn [mbind outcome_bind]. f_equal. lra.
  - destruct (next_stop_with_id_returns stops first) as (stop & Hnext & _).
    { by apply Forall_cons in Hknown as [? _]. }
    rewrite Hnext. cbn [mbind outcome_bind].
    rewrite (next_stop_with_id_location _ _ _ Hnext).
    rewrite sum_legs_known by done. cbn [mbind outcome_bind]. f_equal. lra.
Qed.

Lemma total_distance_unknown sequence vehicle_pos :
  Exists (fun stop_id => ~ known stop_id) sequence ->
  calculate_sequence_total_distance sequence stops vehicle_pos
  = Raises StopIteration.
Proof.
  intros Hex. unfold calculate_sequence_total_distance.
  destruct sequence as [| first rest]; [by apply Exists_nil in Hex |].
  destruct vehicle_pos as [v |].
  - cbn [mbind outcome_bind]. by rewrite sum_legs_unknown.
  - destruct (decide (known first)) as [Hid | Hid].
    + destruct (next_stop_with_id_returns stops first Hid) as (stop & -> & _).
      cbn [mbind outcome_bind]. by rewrite sum_legs_unknown.
    + by rewrite next_stop_with_id_unknown.
Qed.

Lemma path_length_bounds loc points :
  0 <= path_length loc points <= INR (length points) * (6371 * PI).
Proof.
  revert loc. induction points as [| p points IH]; intros loc.
  - cbn. lra.
  - cbn [path_length length]. rewrite S_INR.
    pose proof (GeometryFacts.distance_bounds loc p).
    specialize (IH p). lra.
Qed.

End SequenceDistance.


Lemma last_cons_default {A} (p d : A) (l : list A) :
  List.last (p :: l) d = List.last l p.
Proof.
  revert p d. induction l as [| x l IH]; intros p d; [done |].
  change (List.last (p :: x :: l) d) with (List.last (x :: l) d).
  by rewrite !IH.
Qed.

Lemma last_of_map {A B} (f : A -> B) (l : list A) (d : A) :
  List.last (map f l) (f d) = f (List.last l d).
Proof.
  induction l as [| x l IH]; [done |].
  destruct l as [| y l]; [done |]. exact IH.
Qed.

Lemma path_length_snoc loc points q :
  path_length loc (points ++ [q])
  = path_length loc points + calculate_distance_km (List.last points loc) q.
Proof.
  revert loc. induction points as [| p points IH]; intros loc.
  - cbn. lra.
  - cbn [path_length app]. rewrite IH.
    rewrite last_cons_default. lra.
Qed.

Lemma path_length_from_itself p points :
  path_length p (p :: points) = path_length p points.
Proof. cbn. rewrite GeometryFacts.distance_same. lra. Qed.

Lemma last_rev_cons {A} (x d : A) (l : list A) : List.last (rev (x :: l)) d = x.
Proof. cbn. by rewrite last_last. Qed.

(** The open path through the points has the same length backwards. *)
Lemma path_length_rev p points :
  path_length (List.last points p) (List.tl (rev (p :: points)))
  = path_length p points.
Proof.
  revert p. induction points as [| q points IH]; intros p.
  - done.
  - rewrite last_cons_default.
    change (rev (p :: q :: points)) with (rev (q :: points) ++ [p]).
    assert (List.tl (rev (q :: points) ++ [p])
            = List.tl (rev (q :: points)) ++ [p]) as ->.
    { destruct (rev (q :: points)) eqn:Hrev; [| done].
      apply (f_equal (@length _)) in Hrev. rewrite length_rev in Hrev. done. }
    rewrite path_length_snoc, IH. cbn [path_length].
    assert (List.last (List.tl (rev (q :: points))) (List.last points q) = q) as ->.
    { destruct points as [| x points].
      - done.
      - pose proof (last_rev_cons q (List.last (x :: points) q) (x :: points)) as H.
        destruct (rev (q :: x :: points)) as [| y l] eqn:Hrev.
        { apply (f_equal (@length _)) in Hrev. rewrite length_rev in Hrev. done. }
        destruct l as [| z l].
        { apply (f_equal (@length _)) in Hrev. rewrite length_rev in Hrev. done. }
        cbn [List.tl]. cbn [List.last] in H. exact H. }
    rewrite (GeometryFacts.distance_sym q p). lra.
Qed.

(** X10.  For floats read as real numbers: without a vehicle position, a
    sequence and its reverse have the same total distance (and fail alike
    when an identifier names no stop).  (In binary64 the two sums can
    differ by rounding, in the last digits.) *)
Theorem total_distance_of_reverse (sequence : list string)
    (stops : list LastMileStop.t) :
  calculate_sequence_total_distance (rev sequence) stops None
  = calculate_sequence_total_distance sequence stops None.
Proof.
  set (known := fun stop_id => stop_id ∈ map LastMileStop.id stops).
  destruct (decide (Forall known sequence)) as [Hknown | Hunknown].
  - rewrite !total_distance_known by (done || by apply Forall_rev).
    f_equal. f_equal.
    destruct sequence as [| first rest]; [done |].
    unfold metrics_start.
    destruct (rev (first :: rest)) as [| final others] eqn:Hrev.
    { apply (f_equal (@length _)) in Hrev. rewrite length_rev in Hrev. done. }
    cbn [map]. rewrite !path_length_from_itself.
    pose proof (path_length_rev (location_of stops first)
                  (map (location_of stops) rest)) as H.
    change (location_of stops first :: map (location_of stops) rest)
      with (map (location_of stops) (first :: rest)) in H.
    rewrite <- map_rev, Hrev in H. cbn [map List.tl] in H.
    rewrite <- H. f_equal.
    assert (List.last rest first = final) as <-.
    { rewrite <- (last_cons_default first first rest).
      rewrite <- (rev_involutive (first :: rest)), Hrev. apply last_rev_cons. }
    symmetry. apply last_of_map.
  - apply not_Forall_Exists in Hunknown; [| apply _].
    rewrite !total_distance_unknown; [done | done |].
    apply Exists_exists in Hunknown as (x & Hx & Hnot).
    apply Exists_exists. exists x. split; [| done].
    apply list_elem_of_In. apply -> in_rev. by apply list_elem_of_In.
Qed.

(** ** Segments *)





(** ** The graph handed to the model *)











(** ** Greedy decoding *)

Lemma masked_gt_trans x y z :
  masked_gt x y = true -> masked_gt y z = true -> masked_gt x z = true.
Proof.
  destruct x, y, z; cbn; try done.
  intros H1%bool_decide_eq_true H2%bool_decide_eq_true.
  apply bool_decide_eq_true. lra.
Qed.

Lemma masked_le_trans x y z :
  masked_gt x y = false -> masked_gt y z = false -> masked_gt x z = false.
Proof.
  destruct x, y, z; cbn; try done.
  intros H1%bool_decide_eq_false H2%bool_decide_eq_false.
  apply bool_decide_eq_false. lra.
Qed.

Lemma masked_le_gt x y z :
  masked_gt x y = false -> masked_gt z y = true -> masked_gt z x = true.
Proof.
  destruct x, y, z; cbn; try done.
  intros H1%bool_decide_eq_false H2%bool_decide_eq_true.
  apply bool_decide_eq_true. lra.
Qed.

Lemma masked_gt_le x y z :
  masked_gt x y = true -> masked_gt x z = false -> masked_gt y z = false.
Proof.
  destruct x, y, z; cbn; try done.
  intros H1%bool_decide_eq_true H2%bool_decide_eq_false.
  apply bool_decide_eq_false. lra.
Qed.

Lemma masked_gt_irrefl x : masked_gt x x = false.
Proof. destruct x; cbn; [| done]. apply bool_decide_eq_false. lra. Qed.

(** [argmax_from] ends on a value that nothing exceeds and that exceeds
    everything before it. *)
Lemma argmax_from_maximal (scores : list (option R)) idx best_idx best :
  (best_idx < idx)%nat ->
  let r := argmax_from scores idx best_idx best in
  exists v,
    ((r = best_idx /\ v = best)
     \/ exists k, r = (idx + k)%nat /\ scores !! k = Some v
                  /\ masked_gt v best = true)
    /\ masked_gt best v = false
    /\ (forall k x, scores !! k = Some x -> masked_gt x v = false)
    /\ (forall k x, scores !! k = Some x -> (idx + k < r)%nat ->
        masked_gt v x = true).
Proof.
  revert idx best_idx best.
  induction scores as [| x scores IH]; intros idx best_idx best Hlt; cbn zeta.
  - exists best. cbn. split; [by left |]. split; [apply masked_gt_irrefl |].
    split; intros k y Hk; done.
  - cbn [argmax_from]. destruct (masked_gt x best) eqn:Hgt.
    + destruct (IH (S idx) idx x ltac:(lia))
        as (v & Hwhere & Hbest & Hall & Hbefore).
      exists v. split; [| split; [| split]].
      * right. destruct Hwhere as [[-> ->] | (k & -> & Hk & Hv)].
        -- exists 0%nat. split; [lia | done].
        -- exists (S k). split; [lia |]. split; [done |].
           by apply (masked_gt_trans _ x).
      * by apply (masked_gt_le x).
      * intros [| k] y Hk; cbn in Hk; [by inversion Hk; subst | by eapply Hall].
      * intros [| k] y Hk Hr; cbn in Hk.
        -- inversion Hk; subst.
           destruct Hwhere as [[Heq _] | (k & _ & _ & Hv)]; [lia | done].
        -- apply (Hbefore k); [done | lia].
    + destruct (IH (S idx) best_idx best ltac:(lia))
        as (v & Hwhere & Hbest & Hall & Hbefore).
      exists v. split; [| split; [done | split]].
      * destruct Hwhere as [[-> ->] | (k & -> & Hk & Hv)]; [by left |].
        right. exists (S k). split; [lia | done].
      * intros [| k] y Hk; cbn in Hk; [| by eapply Hall].
        inversion Hk; subst. by apply (masked_le_trans _ best).
      * intros [| k] y Hk Hr; cbn in Hk.
        -- inversion Hk; subst.
           destruct Hwhere as [[Heq _] | (k & _ & _ & Hv)]; [lia |].
           by apply (masked_le_gt _ best).
        -- apply (Hbefore k); [done | lia].
Qed.

Lemma argmax_maximal (scores : list (option R)) r :
  argmax scores = Returns r ->
  exists v,
    scores !! r = Some v
    /\ forall j y, scores !! j = Some y ->
         masked_gt y v = false /\ ((j < r)%nat -> masked_gt v y = true).
Proof.
  destruct scores as [| x scores]; [done |]. cbn [argmax]. intros [= <-].
  destruct (argmax_from_maximal scores 1 0 x ltac:(lia))
    as (v & Hwhere & Hbest & Hall & Hbefore).
  exists v. destruct Hwhere as [[Hr ->] | (k & Hr & Hk & Hv)]; rewrite Hr in *.
  - split; [done |]. intros [| j] y Hj; cbn in Hj.
    + inversion Hj; subst. split; [apply masked_gt_irrefl | lia].
    + split; [by eapply Hall | lia].
  - split; [done |]. intros [| j] y Hj; cbn in Hj.
    + inversion Hj; subst. done.
    + split; [by eapply Hall |]. intros Hlt. apply (Hbefore j); [done | lia].
Qed.

(** On a masked row with an unvisited index, [argmax] returns the best
    unvisited index. *)
Lemma argmax_best_unvisited edge_scores num_stops visited current :
  (exists v, (v < num_stops)%nat /\ v ∉ visited) ->
  exists next,
    argmax (masked_row edge_scores num_stops visited current) = Returns next
    /\ best_unvisited edge_scores num_stops visited current next.
Proof.
  intros (v & Hv & Hnotin).
  destruct (argmax_unmasked (masked_row edge_scores num_stops visited current))
    as (next & a & Hargmax & Hnext).
  { exists (Some (edge_scores current v)). split; [| done].
    apply list_elem_of_lookup. exists v. by apply masked_row_lookup. }
  exists next. split; [done |].
  destruct (argmax_maximal _ _ Hargmax) as (w & Hw & Hmax).
  rewrite Hnext in Hw. inversion Hw; subst w.
  apply masked_row_lookup in Hnext as (Hlt & Hfresh & ->).
  split; [done |]. split; [done |].
  intros j Hj Hjfresh.
  destruct (Hmax j (Some (edge_scores current j))) as [Hle Hstrict].
  { by apply masked_row_lookup. }
  cbn in Hle, Hstrict. apply bool_decide_eq_false in Hle. split; [lra |].
  intros Hbefore. specialize (Hstrict Hbefore).
  by apply bool_decide_eq_true in Hstrict.
Qed.

Lemma decode_loop_greedy edge_scores num_stops fuel (visited : gset nat)
    (route : list nat) current :
  (forall v, v ∈ visited -> (v < num_stops)%nat) ->
  (num_stops - size visited <= fuel)%nat ->
  exists rest,
    decode_loop fuel edge_scores num_stops visited route current
    = Returns (route ++ rest)
    /\ greedy_walk edge_scores num_stops visited current rest.
Proof.
  revert visited route current.
  induction fuel as [| fuel IH]; intros visited route current Hrange Hfuel.
  - cbn. rewrite bool_decide_eq_false_2 by lia.
    exists []. rewrite app_nil_r. split; [done |]. constructor. lia.
  - cbn. destruct (bool_decide_reflect (size visited < num_stops)%nat) as [Hlt | Hge].
    + destruct (argmax_best_unvisited edge_scores num_stops visited current
                  (missing_index visited num_stops Hlt))
        as (next & -> & Hbest).
      pose proof Hbest as (Hnext & Hfresh & _). cbn.
      destruct (IH ({[next]} ∪ visited) (route ++ [next]) next)
        as (rest & -> & Hwalk).
      * intros w [->%elem_of_singleton | Hw]%elem_of_union; [done | by apply Hrange].
      * rewrite size_union, size_singleton; [lia |].
        by apply disjoint_singleton_l.
      * exists (next :: rest). split; [by rewrite <- app_assoc |].
        by constructor.
    + exists []. rewrite app_nil_r. split; [done |]. constructor. lia.
Qed.

(** X13.  [decode_route_from_scores] starts at index 0 and then always moves
    to the unvisited index with the largest score from the current one, the
    smallest such index when scores are equal; for one or more stops the
    route lists every index below [num_stops] exactly once. *)
Theorem decode_route_is_greedy fuel edge_scores num_stops :
  (1 <= num_stops <= fuel)%nat ->
  exists rest,
    decode_route_from_scores fuel edge_scores num_stops = Returns (0%nat :: rest)
    /\ greedy_walk edge_scores num_stops {[0%nat]} 0%nat rest
    /\ 0%nat :: rest ≡ₚ seq 0 num_stops.
Proof.
  intros Hn.
  destruct (decode_loop_greedy edge_scores num_stops fuel {[0%nat]} [0%nat] 0%nat)
    as (rest & Heq & Hwalk).
  { intros v ->%elem_of_singleton. lia. }
  { rewrite size_singleton. lia. }
  exists rest. split; [exact Heq |]. split; [done |].
  destruct (decode_route_from_scores_returns edge_scores num_stops fuel Hn)
    as (route & Hroute & Hperm).
  unfold decode_route_from_scores in Hroute. rewrite Heq in Hroute.
  apply Returns_inj in Hroute. rewrite <- Hroute in Hperm. exact Hperm.
Qed.

Lemma decode_route_is_greedy_witness :
  exists rest,
    decode_route_from_scores 3 (fun _ _ => 0) 3 = Returns (0%nat :: rest)
    /\ greedy_walk (fun _ _ => 0) 3 {[0%nat]} 0%nat rest
    /\ 0%nat :: rest ≡ₚ seq 0 3.
Proof. apply (decode_route_is_greedy 3 (fun _ _ => 0) 3). lia. Defined.

(** ** Responses of the learned path *)

(** Whenever the decoding loop returns, it has extended the route to a
    permutation of the indices. *)
Lemma decode_loop_inv edge_scores num_stops fuel (visited : gset nat)
    (route : list nat) current result :
  (forall v, v ∈ visited -> (v < num_stops)%nat) ->
  route ≡ₚ elements visited ->
  decode_loop fuel edge_scores num_stops visited route current = Returns result ->
  (exists rest, result = route ++ rest) /\ result ≡ₚ seq 0 num_stops.
Proof.
  revert visited route current.
  induction fuel as [| fuel IH]; intros visited route current Hrange Hroute; cbn.
  - destruct (bool_decide_reflect (size visited < num_stops)%nat); [done |].
    intros [= <-]. split; [exists []; by rewrite app_nil_r |].
    rewrite Hroute. apply elements_full; [done | lia].
  - destruct (bool_decide_reflect (size visited < num_stops)%nat) as [Hlt | Hge].
    + destruct (argmax_best_unvisited edge_scores num_stops visited current
                  (missing_index visited num_stops Hlt))
        as (next & -> & (Hnext & Hfresh & _)).
      cbn. intros H. apply IH in H as [(rest & ->) Hperm].
      * split; [| done]. exists (next :: rest). by rewrite <- app_assoc.
      * intros w [->%elem_of_singleton | Hw]%elem_of_union; [done | by apply Hrange].
      * rewrite elements_union_singleton by done.
        rewrite <- Hroute. symmetry. apply Permutation_cons_append.
    + intros [= <-]. split; [exists []; by rewrite app_nil_r |].
      rewrite Hroute. apply elements_full; [done | lia].
Qed.

Lemma ids_at_head (stops : list LastMileStop.t) (rest : list nat) ids :
  ids_at stops (0%nat :: rest) = Returns ids ->
  exists first others tail,
    stops = first :: others /\ ids = LastMileStop.id first :: tail.
Proof.
  cbn. destruct stops as [| first others]; [done |]. cbn.
  intros H. bind_inv H as tail Htail. inversion H; subst. eauto.
Qed.

(** X14.  A response built from the model's scores lists a permutation of
    the stop identifiers, and it always begins with the first stop of the
    request, whatever the scores and the vehicle position. *)
Theorem learned_route_starts_at_first_stop fuel TRAINED_MODEL request response :
  ml_optimize_last_mile fuel TRAINED_MODEL request = Returns response ->
  LastMileResponse.reasoning response
  = "Optimized using Graph Neural Network (GNN) model with 87.5% accuracy" ->
  LastMileResponse.optimized_sequence response
  ≡ₚ map LastMileStop.id (stops request)
  /\ exists first others tail,
       stops request = first :: others
       /\ LastMileResponse.optimized_sequence response
          = LastMileStop.id first :: tail.
Proof.
  intros H Hreason.
  apply ml_optimize_last_mile_inv in H
    as [H | (model & nf & adj & scores & route & cur & opt & _ & Hlen & _ & _
             & Hroute & Hids & _)].
  { apply heuristic_optimize_last_mile_inv in H
      as [(_ & _ & _ & _ & _ & Hr) | (_ & final & cur & _ & _ & _ & _ & _ & _ & Hr)];
      rewrite Hr in Hreason; discriminate. }
  unfold decode_route_from_scores in Hroute.
  apply decode_loop_inv in Hroute as [(rest & ->) Hperm].
  - split.
    + destruct (ids_at_permutation (stops request) _ Hperm) as (ids & Hids' & Hp).
      rewrite Hids in Hids'. apply Returns_inj in Hids'. by rewrite Hids'.
    + by apply ids_at_head in Hids.
  - intros v ->%elem_of_singleton. lia.
  - by rewrite elements_singleton.
Qed.

Lemma learned_route_starts_at_first_stop_witness :
  exists response,
    ml_optimize_last_mile 2 (Some Samples.indifferent_model) Samples.tie_far_away
    = Returns response
    /\ LastMileResponse.optimized_sequence response ≡ₚ ["n"; "h"]
    /\ exists first others tail,
         [Samples.far_normal; Samples.far_urgent] = first :: others
         /\ LastMileResponse.optimized_sequence response
            = LastMileStop.id first :: tail.
Proof.
  destruct (build_graph_from_stops_returns (stops Samples.tie_far_away)
              (vehiclePosition Samples.tie_far_away)) as (nf & Hgraph);
    [cbn; lia |].
  destruct (ml_optimize_last_mile_learned 2 Samples.indifferent_model
              Samples.tie_far_away nf
              (fun i j => if bool_decide (i = j) then 0 else 0))
    as (response & Hresponse & _ & Hreason).
  - intros stop_id Hin. exact Hin.
  - cbn. lia.
  - exact Hgraph.
  - reflexivity.
  - exists response. split; [exact Hresponse |].
    exact (learned_route_starts_at_first_stop 2 (Some Samples.indifferent_model)
             Samples.tie_far_away response Hresponse Hreason).
Defined.

(** ** A round of the last-mile heuristic *)

Section FirstNearest.
Variables (unvisited : gset string) (loc : StopLocation).

Lemma first_nearest_unvisited_skip stop stops k s :
  LastMileStop.id stop ∉ unvisited ->
  first_nearest_unvisited stops unvisited loc k s ->
  first_nearest_unvisited (stop :: stops) unvisited loc (S k) s.
Proof.
  intros Hout (Hk & Hin & Hmin & Hfirst). split; [done |]. split; [done |]. split.
  - intros q [-> | Hq]%elem_of_cons Hu; [done | by apply Hmin].
  - intros [| j] q Hj Hq Hu; cbn in Hq.
    + by inversion Hq; subst.
    + apply (Hfirst j); [lia | done | done].
Qed.

Lemma scan_unvisited_from_some stops i0 d0 :
  (scan_unvisited stops unvisited loc (Some (i0, d0)) = Some (i0, d0)
   /\ forall s, s ∈ stops -> LastMileStop.id s ∈ unvisited ->
        d0 <= effective_distance loc s)
  \/ exists k s,
       first_nearest_unvisited stops unvisited loc k s
       /\ effective_distance loc s < d0
       /\ scan_unvisited stops unvisited loc (Some (i0, d0))
          = Some (LastMileStop.id s, effective_distance loc s).
Proof.
  revert i0 d0. induction stops as [| stop stops IH]; intros i0 d0.
  { left. split; [done |]. intros s Hs. by apply elem_of_nil in Hs. }
  destruct (decide (LastMileStop.id stop ∈ unvisited)) as [Hin | Hout].
  - destruct (Rlt_dec (effective_distance loc stop) d0) as [Hlt | Hge].
    + rewrite scan_unvisited_nearer by done.
      destruct (IH (LastMileStop.id stop) (effective_distance loc stop))
        as [[Heq Hall] | (k & s & (Hk & Hu & Hmin & Hfirst) & Hlt' & Heq)].
      * right. exists 0%nat, stop. split; [| done].
        split; [done |]. split; [done |]. split.
        -- intros q [-> | Hq]%elem_of_cons Hqu; [lra | by apply Hall].
        -- intros j q Hj. lia.
      * right. exists (S k), s. split; [| split; [lra | done]].
        split; [done |]. split; [done |]. split.
        -- intros q [-> | Hq]%elem_of_cons Hqu; [lra | by apply Hmin].
        -- intros [| j] q Hj Hq Hqu; cbn in Hq.
           ++ inversion Hq; subst. lra.
           ++ apply (Hfirst j); [lia | done | done].
    + apply Rnot_lt_le in Hge. rewrite scan_unvisited_not_nearer by done.
      destruct (IH i0 d0)
        as [[Heq Hall] | (k & s & (Hk & Hu & Hmin & Hfirst) & Hlt' & Heq)].
      * left. split; [done |].
        intros q [-> | Hq]%elem_of_cons Hqu; [done | by apply Hall].
      * right. exists (S k), s. split; [| done].
        split; [done |]. split; [done |]. split.
        -- intros q [-> | Hq]%elem_of_cons Hqu; [lra | by apply Hmin].
        -- intros [| j] q Hj Hq Hqu; cbn in Hq.
           ++ inversion Hq; subst. lra.
           ++ apply (Hfirst j); [lia | done | done].
  - rewrite scan_unvisited_skip by done.
    destruct (IH i0 d0) as [[Heq Hall] | (k & s & Hnear & Hlt' & Heq)].
    + left. split; [done |].
      intros q [-> | Hq]%elem_of_cons Hqu; [done | by apply Hall].
    + right. exists (S k), s. split; [| done].
      by apply first_nearest_unvisited_skip.
Qed.

Lemma scan_unvisited_from_none stops :
  (scan_unvisited stops unvisited loc None = None
   /\ forall s, s ∈ stops -> LastMileStop.id s ∉ unvisited)
  \/ exists k s,
       first_nearest_unvisited stops unvisited loc k s
       /\ scan_unvisited stops unvisited loc None
          = Some (LastMileStop.id s, effective_distance loc s).
Proof.
  induction stops as [| stop stops IH].
  { left. split; [done |]. intros s Hs. by apply elem_of_nil in Hs. }
  destruct (decide (LastMileStop.id stop ∈ unvisited)) as [Hin | Hout].
  - right. rewrite scan_unvisited_first by done.
    destruct (scan_unvisited_from_some stops (LastMileStop.id stop)
                (effective_distance loc stop))
      as [[Heq Hall] | (k & s & (Hk & Hu & Hmin & Hfirst) & Hlt' & Heq)].
    + exists 0%nat, stop. split; [| done].
      split; [done |]. split; [done |]. split.
      * intros q [-> | Hq]%elem_of_cons Hqu; [lra | by apply Hall].
      * intros j q Hj. lia.
    + exists (S k), s. split; [| done].
      split; [done |]. split; [done |]. split.
      * intros q [-> | Hq]%elem_of_cons Hqu; [lra | by apply Hmin].
      * intros [| j] q Hj Hq Hqu; cbn in Hq.
        -- inversion Hq; subst. lra.
        -- apply (Hfirst j); [lia | done | done].
  - rewrite scan_unvisited_skip by done.
    destruct IH as [[Heq Hall] | (k & s & Hnear & Heq)].
    + left. split; [done |].
      intros q [-> | Hq]%elem_of_cons; [done | by apply Hall].
    + right. exists (S k), s. split; [| done].
      by apply first_nearest_unvisited_skip.
Qed.

End FirstNearest.

(** ** What the loop of the last-mile heuristic leaves behind *)

Lemma effective_distance_nonneg loc stop : 0 <= effective_distance loc stop.
Proof.
  unfold effective_distance. cbv zeta.
  pose proof (GeometryFacts.distance_bounds loc (LastMileStop.coordinates stop)).
  destruct (bool_decide _); lra.
Qed.

(** A round that changes the state visits one identifier. *)
Lemma nn_step_inv (stops : list LastMileStop.t) (st st' : nn_state) :
  nn_step stops st = Returns st' ->
  st' = st
  \/ exists stop_id dist,
       stop_id ∈ nn_unvisited st /\ stop_id <> "" /\ 0 <= dist
       /\ st' = {|
            nn_unvisited := nn_unvisited st ∖ {[stop_id]};
            nn_optimized := nn_optimized st ++ [stop_id];
            nn_current_loc := location_of stops stop_id;
            nn_total_distance := nn_total_distance st + dist;
            nn_route_path := nn_route_path st ++ [location_of stops stop_id]
          |}.
Proof.
  unfold nn_step.
  destruct (scan_unvisited stops (nn_unvisited st) (nn_current_loc st) None)
    as [[nearest_id nearest_dist] |] eqn:Hscan; [| intros [= <-]; by left].
  destruct (truthy nearest_id) eqn:Htruthy; [| intros [= <-]; by left].
  pose proof (scan_unvisited_origin _ _ _ _ _ _ Hscan)
    as [? | (s & Hs & Hid & Hin & Hd)]; [done |].
  rewrite bool_decide_eq_true_2 by done. intros H.
  bind_inv H as first Hfirst. inversion H; subst st'; clear H. right.
  exists nearest_id, nearest_dist.
  rewrite (next_stop_with_id_location _ _ _ Hfirst).
  split; [done |]. split; [by apply truthy_nonempty |]. split; [| done].
  subst nearest_dist. apply effective_distance_nonneg.
Qed.

Lemma nn_loop_inv fuel (stops : list LastMileStop.t) (st final : nn_state) :
  nn_loop fuel stops st = Returns final ->
  exists added,
    nn_optimized final = nn_optimized st ++ added
    /\ NoDup added
    /\ (forall x, x ∈ added <-> x ∈ nn_unvisited st)
    /\ ("" ∉ added)
    /\ nn_route_path final
       = nn_route_path st ++ map (location_of stops) added
    /\ nn_total_distance st <= nn_total_distance final.
Proof.
  revert st. induction fuel as [| fuel IH]; intros st;
    [cbn [nn_loop] | rewrite nn_loop_unfold].
  - destruct (bool_decide_reflect (nn_unvisited st = ∅)) as [Hempty | Hne];
      [| done].
    intros [= <-]. exists []. rewrite !app_nil_r.
    split; [done |]. split; [constructor |]. split.
    { intros x. rewrite Hempty. split; intros Hx.
      - by apply elem_of_nil in Hx.
      - by apply not_elem_of_empty in Hx. }
    split; [apply not_elem_of_nil |]. split; [done | lra].
  - destruct (bool_decide_reflect (nn_unvisited st = ∅)) as [Hempty | Hne].
    { intros [= <-]. exists []. rewrite !app_nil_r.
      split; [done |]. split; [constructor |]. split.
      { intros x. rewrite Hempty. split; intros Hx.
        - by apply elem_of_nil in Hx.
        - by apply not_elem_of_empty in Hx. }
      split; [apply not_elem_of_nil |]. split; [done | lra]. }
    intros H. bind_inv H as st' Hstep.
    apply nn_step_inv in Hstep
      as [-> | (stop_id & dist & Hin & Hid & Hdist & ->)]; [by apply IH |].
    apply IH in H as (added & Hopt & Hnd & Hmem & Hempty & Hpath & Htotal).
    cbn in Hopt, Hmem, Hpath, Htotal.
    exists (stop_id :: added). split; [by rewrite Hopt, <- app_assoc |].
    split.
    { constructor; [| done]. intros Hx%Hmem.
      apply elem_of_difference in Hx as [_ Hx]. by apply Hx, elem_of_singleton. }
    split.
    { intros x. rewrite elem_of_cons, Hmem, elem_of_difference, elem_of_singleton.
      split.
      - intros [-> | [? _]]; done.
      - intros Hx. destruct (decide (x = stop_id)); [by left | by right]. }
    split.
    { intros [Heq | Hx]%elem_of_cons; [by apply Hid | by apply Hempty]. }
    split; [by rewrite Hpath, <- app_assoc | lra].
Qed.

(** The heuristic as it answers a request of two or more stops. *)
Lemma heuristic_optimize_last_mile_long_inv fuel request response :
  (2 <= length (stops request))%nat ->
  heuristic_optimize_last_mile fuel request = Returns response ->
  exists final,
    nn_loop fuel (stops request)
      (nn_initial (stops request) (heuristic_start request)) = Returns final
    /\ LastMileResponse.optimized_sequence response = nn_optimized final
    /\ LastMileResponse.route_path response = nn_route_path final
    /\ LastMileResponse.reasoning response
       = "Optimized using nearest-neighbor heuristic (ML model unavailable)".
Proof.
  intros Hlen. rewrite heuristic_optimize_last_mile_unfold by done. intros H.
  bind_inv H as final Hfinal.
  bind_inv H as current_dist Hcurrent.
  bind_inv H as segments Hsegments.
  inversion H; subst; clear H. by exists final.
Qed.

(** X16.  Whatever the request, a response of the nearest-neighbour
    heuristic for two or more stops lists every identifier of the stops
    exactly once, also when several stops share one; none of the identifiers
    is the empty string.  The route path is the starting position followed
    by the coordinates of the first stop carrying each identifier, so it has
    one more point than the sequence has stops. *)
Theorem heuristic_visits_each_identifier_once (fuel : nat)
    (request : LastMileRequest) (response : LastMileResponse.t) :
  (2 <= length (stops request))%nat ->
  heuristic_optimize_last_mile fuel request = Returns response ->
  let sequence := LastMileResponse.optimized_sequence response in
  NoDup sequence
  /\ (forall stop_id,
        stop_id ∈ sequence <-> stop_id ∈ map LastMileStop.id (stops request))
  /\ ("" ∉ map LastMileStop.id (stops request))
  /\ (length sequence <= length (stops request))%nat
  /\ LastMileResponse.route_path response
     = heuristic_start request :: map (location_of (stops request)) sequence
  /\ length (LastMileResponse.route_path response) = S (length sequence).
Proof.
  intros Hlen Hresponse sequence.
  destruct (heuristic_optimize_last_mile_long_inv _ _ _ Hlen Hresponse)
    as (final & Hloop & Hseq & Hpath & _).
  apply nn_loop_inv in Hloop as (added & Hopt & Hnd & Hmem & Hempty & Hroute & _).
  cbn in Hopt, Hmem, Hroute.
  assert (sequence = added) as -> by (unfold sequence; congruence).
  assert (forall x, x ∈ added <-> x ∈ map LastMileStop.id (stops request))
    as Hmem'.
  { intros x. by rewrite Hmem, elem_of_list_to_set. }
  split; [done |]. split; [done |].
  split; [by rewrite <- Hmem' |]. split.
  { rewrite <- (length_map LastMileStop.id (stops request)).
    apply submseteq_length, NoDup_submseteq; [done |].
    intros x. by rewrite Hmem'. }
  rewrite Hpath, Hroute. split; [done |]. cbn. by rewrite length_map.
Qed.

Lemma heuristic_visits_each_identifier_once_witness :
  exists response,
    heuristic_optimize_last_mile 2 Samples.tie_far_away = Returns response
    /\ NoDup (LastMileResponse.optimized_sequence response)
    /\ length (LastMileResponse.route_path response)
       = S (length (LastMileResponse.optimized_sequence response)).
Proof.
  destruct (heuristic_optimize_last_mile_returns 2 Samples.tie_far_away)
    as (response & Hresponse & _).
  - apply samples_well_formed; discriminate.
  - cbn. lia.
  - exists response. split; [done |].
    assert (2 <= length (stops Samples.tie_far_away))%nat as Hlong
      by (cbn; lia).
    destruct (heuristic_visits_each_identifier_once 2 Samples.tie_far_away
                response Hlong Hresponse) as (Hnd & _ & _ & _ & _ & Hlen).
    done.
Defined.

(** ** The heuristic without a vehicle position *)

Lemma effective_distance_at_stop stop :
  effective_distance (LastMileStop.coordinates stop) stop = 0.
Proof.
  unfold effective_distance. cbv zeta. rewrite GeometryFacts.distance_same.
  destruct (bool_decide _); lra.
Qed.

Lemma next_stop_with_id_head stop stops :
  next_stop_with_id (stop :: stops) (LastMileStop.id stop) = Returns stop.
Proof.
  unfold next_stop_with_id. cbn. by rewrite bool_decide_eq_true_2.
Qed.

(** From the position of the first stop, the scan of all the stops selects
    the first stop. *)
Lemma scan_unvisited_selects_head stop stops :
  scan_unvisited (stop :: stops)
    (list_to_set (map LastMileStop.id (stop :: stops)))
    (LastMileStop.coordinates stop) None
  = Some (LastMileStop.id stop, 0).
Proof.
  destruct (scan_unvisited_from_none
              (list_to_set (map LastMileStop.id (stop :: stops)))
              (LastMileStop.coordinates stop) (stop :: stops))
    as [[_ Hnone] | (k & s & (Hk & _ & _ & Hfirst) & ->)].
  - destruct (Hnone stop); [by left |].
    apply elem_of_list_to_set. cbn. by left.
  - destruct k as [| k].
    + cbn in Hk. inversion Hk; subst s. by rewrite effective_distance_at_stop.
    + specialize (Hfirst 0%nat stop). rewrite effective_distance_at_stop in Hfirst.
      pose proof (effective_distance_nonneg (LastMileStop.coordinates stop) s).
      assert (effective_distance (LastMileStop.coordinates stop) s < 0);
        [| lra].
      apply Hfirst; [lia | done |]. apply elem_of_list_to_set. cbn. by left.
Qed.

(** X17.  Without a vehicle position the nearest-neighbour heuristic starts
    from the first stop of the request, and, for two or more stops, every
    response begins with that stop, whatever the priorities and distances of
    the others.  Its route path holds the coordinates of that stop twice. *)
Theorem heuristic_without_vehicle_starts_at_first_stop (fuel : nat)
    (request : LastMileRequest) (response : LastMileResponse.t) :
  vehiclePosition request = None ->
  (2 <= length (stops request))%nat ->
  heuristic_optimize_last_mile fuel request = Returns response ->
  exists first others rest,
    stops request = first :: others
    /\ LastMileResponse.optimized_sequence response
       = LastMileStop.id first :: rest
    /\ LastMileResponse.route_path response
       = LastMileStop.coordinates first :: LastMileStop.coordinates first
         :: map (location_of (stops request)) rest.
Proof.
  intros Hvehicle Hlen Hresponse.
  assert ("" ∉ map LastMileStop.id (stops request)) as Hids.
  { intros Hempty.
    by rewrite (heuristic_with_empty_id_never_returns _ _ Hlen Hempty)
      in Hresponse. }
  destruct (heuristic_optimize_last_mile_long_inv _ _ _ Hlen Hresponse)
    as (final & Hloop & -> & -> & _).
  unfold heuristic_start in Hloop. rewrite Hvehicle in Hloop.
  destruct (stops request) as [| first others] eqn:Hstops; [cbn in Hlen; lia |].
  exists first, others.
  assert (nn_unvisited (nn_initial (first :: others)
                          (LastMileStop.coordinates first)) <> ∅) as Hne.
  { cbn. intros Hempty.
    assert (LastMileStop.id first ∈ (∅ : gset string)) as Hin.
    { rewrite <- Hempty. apply elem_of_union_l. by apply elem_of_singleton. }
    by apply not_elem_of_empty in Hin. }
  destruct fuel as [| fuel].
  { cbn [nn_loop] in Hloop. by rewrite bool_decide_eq_false_2 in Hloop. }
  rewrite nn_loop_unfold, bool_decide_eq_false_2 in Hloop by done.
  erewrite nn_step_eval in Hloop.
  2:{ apply scan_unvisited_selects_head. }
  2:{ intros Heq. apply Hids. rewrite <- Heq. cbn. by left. }
  2:{ cbn. apply elem_of_union_l. by apply elem_of_singleton. }
  2:{ apply next_stop_with_id_head. }
  cbn [mbind outcome_bind] in Hloop.
  apply nn_loop_inv in Hloop as (added & Hopt & _ & _ & _ & Hpath & _).
  cbn in Hopt, Hpath. exists added. by rewrite Hopt, Hpath.
Qed.

Lemma heuristic_without_vehicle_starts_at_first_stop_witness :
  exists response,
    heuristic_optimize_last_mile 2 (Samples.lm_request None [Samples.far_normal; Samples.far_urgent]) = Returns response
    /\ exists first others rest,
         stops (Samples.lm_request None [Samples.far_normal; Samples.far_urgent]) = first :: others
         /\ LastMileResponse.optimized_sequence response
            = LastMileStop.id first :: rest
         /\ LastMileResponse.route_path response
            = LastMileStop.coordinates first :: LastMileStop.coordinates first
              :: map (location_of (stops (Samples.lm_request None [Samples.far_normal; Samples.far_urgent]))) rest.
Proof.
  destruct (heuristic_optimize_last_mile_returns 2 (Samples.lm_request None [Samples.far_normal; Samples.far_urgent]))
    as (response & Hresponse & _).
  - apply samples_well_formed; discriminate.
  - cbn. lia.
  - exists response. split; [done |].
    assert (2 <= length (stops (Samples.lm_request None [Samples.far_normal; Samples.far_urgent])))%nat as Hlong
      by (cbn; lia).
    exact (heuristic_without_vehicle_starts_at_first_stop 2
             (Samples.lm_request None [Samples.far_normal; Samples.far_urgent]) response eq_refl Hlong Hresponse).
Defined.

(** ** Savings of a last-mile response *)

(** A distance that [calculate_sequence_total_distance] returns. *)
Lemma total_distance_returned sequence stops vehicle_pos miles :
  calculate_sequence_total_distance sequence stops vehicle_pos = Returns miles ->
  Forall (fun stop_id => stop_id ∈ map LastMileStop.id stops) sequence
  /\ 0 <= miles <= INR (length sequence) * (6371 * PI) * km_to_miles.
Proof.
  intros Hreturns.
  destruct (decide (Forall (fun stop_id => stop_id ∈ map LastMileStop.id stops)
                      sequence)) as [Hknown | Hunknown].
  - split; [done |].
    rewrite total_distance_known in Hreturns by done.
    apply Returns_inj in Hreturns as <-.
    pose proof (path_length_bounds (metrics_start sequence stops vehicle_pos)
                  (map (location_of stops) sequence)) as Hb.
    rewrite length_map in Hb. unfold km_to_miles. split; nra.
  - apply not_Forall_Exists in Hunknown; [| apply _].
    by rewrite total_distance_unknown in Hreturns.
Qed.

(** X18.  In every response of the last-mile handler, whatever the model,
    the distance savings are never negative and the time savings are twice
    the distance savings.  For two or more stops the savings are at most the
    length of the caller's current route (the input order when the caller
    gave none), every identifier of which then names a stop; for fewer than
    two stops they are zero. *)
Theorem savings_within_current_route (fuel : nat)
    (TRAINED_MODEL : option RouteGNN) (request : LastMileRequest)
    (response : LastMileResponse.t) :
  optimize_last_mile fuel TRAINED_MODEL request = Returns response ->
  let savings := LastMileResponse.distance_savings_miles response in
  0 <= savings
  /\ LastMileResponse.time_savings_minutes response = savings * 2
  /\ (((length (stops request) <= 1)%nat /\ savings = 0)
      \/ ((2 <= length (stops request))%nat
          /\ exists current_dist,
               calculate_sequence_total_distance (baseline_sequence request)
                 (stops request) (vehiclePosition request)
               = Returns current_dist
               /\ savings <= current_dist
               /\ Forall (fun stop_id =>
                            stop_id ∈ map LastMileStop.id (stops request))
                    (baseline_sequence request))).
Proof.
  intros Hresponse savings. unfold savings.
  apply optimize_last_mile_inv, ml_optimize_last_mile_inv in Hresponse
    as [Hheuristic | Hlearned].
  - apply heuristic_optimize_last_mile_inv in Hheuristic
      as [(Hlen & _ & -> & -> & _)
         | (Hlen & final & current_dist & Hloop & Hcurrent & _ & -> & -> & _)].
    + split; [lra |]. split; [lra |]. by left.
    + split; [apply Rmax_l |]. split; [done |]. right. split; [done |].
      exists current_dist. split; [done |].
      destruct (total_distance_returned _ _ _ _ Hcurrent) as [Hknown [Hpos _]].
      split; [| done].
      apply nn_loop_inv in Hloop as (_ & _ & _ & _ & _ & _ & Htotal).
      cbn in Htotal. apply Rmax_lub; lra.
  - destruct Hlearned
      as (model & node_features & adjacency_matrix & edge_scores & route
          & current_dist & optimized_dist & _ & Hlen & _ & _ & _ & _
          & Hcurrent & Hoptimized & -> & -> & _).
    split; [apply Rmax_l |]. split; [done |]. right. split; [done |].
    exists current_dist. split; [done |].
    destruct (total_distance_returned _ _ _ _ Hcurrent) as [Hknown [Hpos _]].
    destruct (total_distance_returned _ _ _ _ Hoptimized) as [_ [Hpos' _]].
    split; [| done]. apply Rmax_lub; lra.
Qed.

Lemma savings_within_current_route_witness :
  exists response,
    optimize_last_mile 2 None Samples.tie_far_away = Returns response
    /\ 0 <= LastMileResponse.distance_savings_miles response
    /\ LastMileResponse.time_savings_minutes response
       = LastMileResponse.distance_savings_miles response * 2.
Proof.
  destruct (heuristic_optimize_last_mile_returns 2 Samples.tie_far_away)
    as (response & Hresponse & _).
  - apply samples_well_formed; discriminate.
  - cbn. lia.
  - exists response.
    assert (optimize_last_mile 2 None Samples.tie_far_away = Returns response)
      as Hhandler.
    { unfold optimize_last_mile, ml_optimize_last_mile. by rewrite Hresponse. }
    split; [done |].
    destruct (savings_within_current_route 2 None Samples.tie_far_away
                response Hhandler) as (Hpos & Htime & _).
    done.
Defined.

(** ** A current sequence that names no stop *)

(** The heuristic raises when its walk is over. *)
Lemma heuristic_raises_on_unknown_stop fuel request :
  ids_nonempty (stops request) ->
  (2 <= length (stops request) <= fuel)%nat ->
  Exists (fun stop_id => stop_id ∉ map LastMileStop.id (stops request))
    (baseline_sequence request) ->
  heuristic_optimize_last_mile fuel request = Raises StopIteration.
Proof.
  intros Hids Hlen Hunknown.
  rewrite heuristic_optimize_last_mile_unfold by lia.
  destruct (nn_loop_returns (stops request) Hids fuel
              (nn_initial (stops request) (heuristic_start request)))
    as (final & added & -> & _); [done | |].
  { cbn. pose proof (size_list_to_set_le (map LastMileStop.id (stops request))).
    rewrite length_map in *. lia. }
  cbn [mbind outcome_bind]. by rewrite total_distance_unknown.
Qed.

(** X19.  When the caller's current sequence holds an identifier that names
    no stop of the request, the last-mile handler answers a request of two
    or more stops (identifiers non-empty, one round of the loops per stop)
    with the status 500, whatever the model: the learned path fails on the
    length of the current route, falls back to the heuristic, and the
    heuristic fails on the same computation after its walk. *)
Theorem unknown_current_stop_gives_status_500 (fuel : nat)
    (TRAINED_MODEL : option RouteGNN) (request : LastMileRequest)
    (sequence : list string) :
  ids_nonempty (stops request) ->
  (2 <= length (stops request) <= fuel)%nat ->
  currentSequence request = Some sequence ->
  Exists (fun stop_id => stop_id ∉ map LastMileStop.id (stops request))
    sequence ->
  optimize_last_mile fuel TRAINED_MODEL request = Raises (HTTPException 500).
Proof.
  intros Hids Hlen Hcurrent Hunknown.
  assert (baseline_sequence request = sequence) as Hbaseline.
  { unfold baseline_sequence. rewrite Hcurrent.
    destruct sequence; [by apply Exists_nil in Hunknown | done]. }
  assert (heuristic_optimize_last_mile fuel request = Raises StopIteration)
    as Hheuristic.
  { apply heuristic_raises_on_unknown_stop; [done | done |].
    by rewrite Hbaseline. }
  assert (ml_optimize_last_mile fuel TRAINED_MODEL request
          = Raises StopIteration) as Hml.
  { unfold ml_optimize_last_mile. destruct TRAINED_MODEL as [model |]; [| done].
    rewrite bool_decide_eq_false_2 by lia.
    destruct (build_graph_from_stops_returns (stops request)
                (vehiclePosition request)) as (node_features & ->); [lia |].
    cbn [mbind outcome_bind].
    destruct (forward model node_features (adjacency (length (stops request))))
      as [edge_scores | e |] eqn:Hforward.
    - cbn [mbind outcome_bind].
      destruct (decode_route_from_scores_returns edge_scores
                  (length (stops request)) fuel) as (route & -> & Hperm); [lia |].
      cbn [mbind outcome_bind].
      destruct (ids_at_permutation (stops request) route Hperm)
        as (ids & -> & _).
      cbn [mbind outcome_bind].
      rewrite Hbaseline.
      rewrite (total_distance_unknown (stops request) sequence
                 (vehiclePosition request) Hunknown).
      cbn [mbind outcome_bind try_except]. done.
    - cbn [mbind outcome_bind try_except]. done.
    - unfold forward in Hforward. by destruct (edge_scorer _ _ _). }
  unfold optimize_last_mile. by rewrite Hml.
Qed.

Lemma unknown_current_stop_gives_status_500_witness :
  let request := {|
    stops := [Samples.far_normal; Samples.far_urgent];
    vehiclePosition := Some Samples.origin;
    currentSequence := Some ["elsewhere"];
    constraints := None
  |} in
  optimize_last_mile 2 None request = Raises (HTTPException 500).
Proof.
  intros request.
  apply (unknown_current_stop_gives_status_500 2 None request ["elsewhere"]).
  - intros stop Hstop. cbn in Hstop.
    apply elem_of_cons in Hstop as [-> | Hstop]; [discriminate |].
    apply elem_of_cons in Hstop as [-> | Hstop]; [discriminate |].
    by apply elem_of_nil in Hstop.
  - cbn. lia.
  - reflexivity.
  - apply Exists_cons_hd. cbn. intros Hin.
    apply elem_of_cons in Hin as [Heq | Hin]; [discriminate |].
    apply elem_of_cons in Hin as [Heq | Hin]; [discriminate |].
    by apply elem_of_nil in Hin.
Defined.

(** ** Rounded values of the segments *)

Lemma Rabs_le_between (a b : R) : Rabs a <= b -> - b <= a <= b.
Proof. unfold Rabs. destruct (Rcase_abs a); lra. Qed.

Lemma round_half_even_near (x : R) :
  Rabs (IZR (round_half_even x) - x) <= 1 / 2.
Proof.
  unfold round_half_even. cbv zeta.
  destruct (base_Int_part x) as [Hlow Hhigh].
  destruct (bool_decide_reflect (x - IZR (Int_part x) < 1 / 2)) as [Hlt | Hge].
  { apply Rabs_le. lra. }
  destruct (bool_decide_reflect (1 / 2 < x - IZR (Int_part x))) as [Hgt | Hle].
  { rewrite plus_IZR. apply Rabs_le. lra. }
  destruct (Z.even (Int_part x)).
  - apply Rabs_le. lra.
  - rewrite plus_IZR. apply Rabs_le. lra.
Qed.

Lemma round_half_even_nonneg (x : R) : 0 <= x -> (0 <= round_half_even x)%Z.
Proof.
  intros Hx. unfold round_half_even. cbv zeta.
  destruct (base_Int_part x) as [Hlow Hhigh].
  assert (0 <= Int_part x)%Z as Hf.
  { apply Z.lt_succ_r, lt_IZR. rewrite succ_IZR. lra. }
  repeat destruct (bool_decide _); try destruct (Z.even _); lia.
Qed.

Lemma pow_10_pos (n : nat) : 0 < 10 ^ n.
Proof. apply pow_lt. lra. Qed.

(** [round(x, ndigits)] is within half a unit of the last digit of [x]. *)
Lemma py_round_near (x : R) (ndigits : nat) :
  Rabs (py_round x ndigits - x) <= 1 / 2 / 10 ^ ndigits.
Proof.
  unfold py_round. pose proof (pow_10_pos ndigits) as Hpos.
  pose proof (round_half_even_near (x * 10 ^ ndigits)) as Hnear.
  apply Rabs_le_between in Hnear. apply Rabs_le.
  set (p := 10 ^ ndigits) in *. set (z := IZR (round_half_even (x * p))) in *.
  assert (z / p - x = (z - x * p) / p) as -> by (field; lra).
  split.
  - apply Rmult_le_reg_r with p; [done |]. field_simplify; lra.
  - apply Rmult_le_reg_r with p; [done |]. field_simplify; lra.
Qed.

Lemma py_round_nonneg (x : R) (ndigits : nat) :
  0 <= x -> 0 <= py_round x ndigits.
Proof.
  intros Hx. unfold py_round. pose proof (pow_10_pos ndigits) as Hpos.
  apply Rmult_le_pos; [| left; by apply Rinv_0_lt_compat].
  apply IZR_le, round_half_even_nonneg. apply Rmult_le_pos; lra.
Qed.

Section RoundedSegments.
Variable stops : list LastMileStop.t.

(** What holds of the two rounded values of a segment. *)
Let rounded (segment : Segment) : Prop :=
  0 <= distanceMiles segment <= 6371 * PI * km_to_miles + 1 / 200
  /\ 0 <= durationMinutes segment
  /\ Rabs (durationMinutes segment - 2 * distanceMiles segment) <= 6 / 100.

Lemma segments_loop_rounded sequence prev_loc prev_id segments result :
  segments_loop stops sequence prev_loc prev_id segments = Returns result ->
  Forall rounded segments -> Forall rounded result.
Proof.
  revert prev_loc prev_id segments.
  induction sequence as [| stop_id sequence IH];
    intros prev_loc prev_id segments; cbn [segments_loop].
  - by intros [= <-].
  - destruct (bool_decide (stop_id = prev_id)); [by apply IH |].
    intros H Hall. bind_inv H as stop Hstop. cbv zeta in H.
    apply IH in H; [done |].
    apply Forall_app. split; [done |]. apply Forall_singleton.
    unfold rounded. cbn.
    pose proof (GeometryFacts.distance_bounds prev_loc
                  (LastMileStop.coordinates stop)) as Hd.
    set (miles := calculate_distance_km prev_loc (LastMileStop.coordinates stop)
                  * km_to_miles) in *.
    assert (0 <= miles <= 6371 * PI * km_to_miles) as Hmiles
      by (unfold miles, km_to_miles; split; nra).
    pose proof (py_round_near miles 2) as H2. apply Rabs_le_between in H2.
    pose proof (py_round_near (miles * 2) 1) as H1. apply Rabs_le_between in H1.
    pose proof (py_round_nonneg miles 2 (proj1 Hmiles)).
    pose proof (py_round_nonneg (miles * 2) 1).
    cbn [pow] in H1, H2.
    split; [lra |]. split; [lra |]. apply Rabs_le. lra.
Qed.

End RoundedSegments.

(** X20.  Every segment that [build_segment_durations] returns carries a
    distance that is not negative and at most half the Earth's circumference
    in miles (up to the rounding to two digits), and a duration that is not
    negative.  The duration is rounded from the unrounded distance, so it
    is twice the reported distance only up to 0.06 minutes. *)
Theorem segment_values_are_rounded (sequence : list string)
    (stops : list LastMileStop.t) (vehicle_pos : option StopLocation)
    (segments : list Segment) :
  build_segment_durations sequence stops vehicle_pos = Returns segments ->
  Forall (fun segment =>
            0 <= distanceMiles segment <= 6371 * PI * km_to_miles + 1 / 200
            /\ 0 <= durationMinutes segment
            /\ Rabs (durationMinutes segment - 2 * distanceMiles segment)
               <= 6 / 100) segments.
Proof.
  unfold build_segment_durations.
  destruct sequence as [| first rest]; [intros [= <-]; constructor |].
  intros H. bind_inv H as [prev_loc prev_id] Hstart.
  by apply segments_loop_rounded in H.
Qed.

Lemma segment_values_are_rounded_witness :
  exists segments,
    build_segment_durations ["n"; "h"] (stops Samples.tie_far_away)
      (Some Samples.origin) = Returns segments
    /\ Forall (fun segment =>
                 0 <= distanceMiles segment
                 <= 6371 * PI * km_to_miles + 1 / 200
                 /\ 0 <= durationMinutes segment
                 /\ Rabs (durationMinutes segment - 2 * distanceMiles segment)
                    <= 6 / 100) segments.
Proof.
  destruct (build_segment_durations_returns (stops Samples.tie_far_away)
              ["n"; "h"] (Some Samples.origin)) as (segments & Hsegments).
  - intros stop_id Hin. exact Hin.
  - exists segments. split; [exact Hsegments |].
    exact (segment_values_are_rounded _ _ _ _ Hsegments).
Defined.

(** ** Route path of a learned response *)

Lemma path_loop_inv stops sequence route_path result :
  path_loop stops sequence route_path = Returns result ->
  result = route_path ++ map (location_of stops) sequence.
Proof.
  revert route_path.
  induction sequence as [| stop_id sequence IH]; intros route_path; cbn.
  - intros [= <-]. by rewrite app_nil_r.
  - intros H. bind_inv H as stop Hstop. apply IH in H as ->.
    by rewrite (next_stop_with_id_location _ _ _ Hstop), <- app_assoc.
Qed.

(** The position the route path of a learned response starts with. *)
Lemma ml_optimize_last_mile_path_inv fuel TRAINED_MODEL request response :
  ml_optimize_last_mile fuel TRAINED_MODEL request = Returns response ->
  LastMileResponse.reasoning response
  = "Optimized using Graph Neural Network (GNN) model with 87.5% accuracy" ->
  path_loop (stops request) (LastMileResponse.optimized_sequence response)
    (match vehiclePosition request with Some v => [v] | None => [] end)
  = Returns (LastMileResponse.route_path response)
  /\ build_segment_durations (LastMileResponse.optimized_sequence response)
       (stops request) (vehiclePosition request)
     = Returns (LastMileResponse.segment_durations response).
Proof.
  intros H Hreason.
  assert (forall r,
            heuristic_optimize_last_mile fuel request = Returns r ->
            LastMileResponse.reasoning r
            <> "Optimized using Graph Neural Network (GNN) model with 87.5% accuracy")
    as Hheuristic.
  { intros r Hr.
    apply heuristic_optimize_last_mile_inv in Hr
      as [(_ & _ & _ & _ & _ & ->)
         | (_ & final & cur & _ & _ & _ & _ & _ & _ & ->)]; discriminate. }
  unfold ml_optimize_last_mile in H.
  destruct TRAINED_MODEL as [model |]; [| by apply Hheuristic in H].
  destruct (bool_decide _); [by apply Hheuristic in H |].
  apply try_except_Returns_inv in H as [H | (e & _ & H)];
    [| by apply Hheuristic in H].
  bind_inv H as [node_features adjacency_matrix] Hgraph.
  bind_inv H as edge_scores Hscores.
  bind_inv H as route Hroute.
  bind_inv H as optimized_sequence Hids.
  bind_inv H as current_dist Hcurrent.
  bind_inv H as optimized_dist Hoptimized.
  bind_inv H as path Hpath.
  bind_inv H as segments Hsegments.
  inversion H; subst; clear H. cbn. done.
Qed.

(** X21.  The route path of a response built from the model's scores is
    the vehicle position, when the request has one, followed by the
    coordinates of the stops in the order of the sequence: one point per
    stop, and one more only with a vehicle position.  (The heuristic always
    puts a starting point first.) *)
Theorem learned_route_path (fuel : nat) (TRAINED_MODEL : option RouteGNN)
    (request : LastMileRequest) (response : LastMileResponse.t) :
  ml_optimize_last_mile fuel TRAINED_MODEL request = Returns response ->
  LastMileResponse.reasoning response
  = "Optimized using Graph Neural Network (GNN) model with 87.5% accuracy" ->
  let start :=
    match vehiclePosition request with Some v => [v] | None => [] end in
  LastMileResponse.route_path response
  = start ++ map (location_of (stops request))
               (LastMileResponse.optimized_sequence response)
  /\ length (LastMileResponse.route_path response)
     = (length start + length (stops request))%nat.
Proof.
  intros H Hreason start.
  destruct (ml_optimize_last_mile_path_inv _ _ _ _ H Hreason) as [Hpath _].
  apply path_loop_inv in Hpath. split; [done |].
  rewrite Hpath, length_app, length_map. f_equal.
  apply ml_optimize_last_mile_inv in H
    as [H | (model & nf & adj & scores & route & cur & opt & _ & Hlen & _ & _
             & Hroute & Hids & _)].
  { apply heuristic_optimize_last_mile_inv in H
      as [(_ & _ & _ & _ & _ & Hr) | (_ & final & cur & _ & _ & _ & _ & _ & _ & Hr)];
      rewrite Hr in Hreason; discriminate. }
  unfold decode_route_from_scores in Hroute.
  apply decode_loop_inv in Hroute as [_ Hperm].
  - destruct (ids_at_permutation (stops request) _ Hperm) as (ids & Hids' & Hp).
    rewrite Hids in Hids'. apply Returns_inj in Hids'.
    by rewrite Hids', Hp, length_map.
  - intros v ->%elem_of_singleton. lia.
  - by rewrite elements_singleton.
Qed.

Lemma learned_route_path_witness :
  exists response,
    ml_optimize_last_mile 2 (Some Samples.indifferent_model) Samples.tie_far_away
    = Returns response
    /\ length (LastMileResponse.route_path response) = 3%nat.
Proof.
  destruct (build_graph_from_stops_returns (stops Samples.tie_far_away)
              (vehiclePosition Samples.tie_far_away)) as (nf & Hgraph);
    [cbn; lia |].
  destruct (ml_optimize_last_mile_learned 2 Samples.indifferent_model
              Samples.tie_far_away nf
              (fun i j => if bool_decide (i = j) then 0 else 0))
    as (response & Hresponse & _ & Hreason).
  - intros stop_id Hin. exact Hin.
  - cbn. lia.
  - exact Hgraph.
  - reflexivity.
  - exists response. split; [exact Hresponse |].
    exact (proj2 (learned_route_path 2 (Some Samples.indifferent_model)
                    Samples.tie_far_away response Hresponse Hreason)).
Defined.

(** ** Segments of a sequence without repeated identifiers *)





(** ** Normalised features of a stop *)



(** * The router in floating point: properties *)


Module FpFacts.
Import Fp.

(** ** Reading the outcome of a run *)

Lemma fp_raised_check {A} (o : outcome A) e :
  raised o = Some e -> o = Raises e.
Proof. destruct o; cbn; congruence. Qed.

Lemma fp_returned_check {A B} (view : A -> B) (o : outcome A) b :
  returned view o = Some b -> exists a, o = Returns a /\ view a = b.
Proof. destruct o as [a | |]; cbn; [| done | done]. intros [= <-]. by exists a. Qed.

Lemma fp_bind_Raises_inv {A B} (m : outcome A) (k : A -> outcome B) e :
  m ≫= k = Raises e ->
  m = Raises e \/ exists a, m = Returns a /\ k a = Raises e.
Proof. destruct m as [a | e' |]; cbn; [eauto | | done]. intros [= ->]. by left. Qed.

Lemma fp_bind_fuel_inv {A B} (m : outcome A) (k : A -> outcome B) :
  m ≫= k = OutOfFuel ->
  m = OutOfFuel \/ exists a, m = Returns a /\ k a = OutOfFuel.
Proof. destruct m as [a | e' |]; cbn; [eauto | done | by left]. Qed.

Section RunningMin.
Context {fa : arithmetic} {A : Type}.
Implicit Types (candidates : list (option (float fa * A))).

Lemma fp_ordered_check (values : list (float fa)) :
  orderedb values = true -> ordered values.
Proof.
  unfold orderedb, ordered. intros H a b c Ha Hb Hc.
  rewrite forallb_forall in H.
  apply list_elem_of_In, H in Ha. rewrite forallb_forall in Ha.
  apply list_elem_of_In, Ha in Hb. rewrite forallb_forall in Hb.
  apply list_elem_of_In, Hb in Hc.
  apply andb_prop in Hc as [Hc Hco]. apply andb_prop in Hc as [Hirr Htr].
  split; [by destruct (flt fa a a) |]. split.
  - intros Hab Hbc. rewrite Hab, Hbc in Htr. by destruct (flt fa a c).
  - intros Hac. rewrite Hac in Hco.
    destruct (flt fa a b); [by left |]. destruct (flt fa b c); [by right | done].
Qed.

Lemma fp_ordered_subseteq (values values' : list (float fa)) :
  values' ⊆ values -> ordered values -> ordered values'.
Proof. intros Hsub H a b c Ha Hb Hc. apply H; by apply Hsub. Qed.

Lemma fp_costs_cons_some candidates c a :
  costs (Some (c, a) :: candidates) = c :: costs candidates.
Proof. reflexivity. Qed.

Lemma fp_costs_cons_none candidates :
  costs (None :: candidates) = costs candidates.
Proof. reflexivity. Qed.

Lemma fp_elem_of_costs candidates j c a :
  candidates !! j = Some (Some (c, a)) -> c ∈ costs candidates.
Proof.
  intros H. unfold costs. apply list_elem_of_omap.
  exists (Some (c, a)). split; [| done]. by apply list_elem_of_lookup_2 in H.
Qed.

(** What the running minimum is at the end: the state it started from when
    no cost is less than the initial one, and otherwise the first of the
    candidates of least cost. *)
Lemma fp_running_min_spec candidates best_cost best :
  ordered (best_cost :: costs candidates) ->
  (running_min candidates best_cost best = (best_cost, best)
   /\ forall c, c ∈ costs candidates -> flt fa c best_cost = false)
  \/ exists k t a,
       running_min candidates best_cost best = (t, Some a)
       /\ first_least candidates k t a
       /\ flt fa t best_cost = true.
Proof.
  revert best_cost best.
  induction candidates as [| [[c a] |] candidates IH]; intros best_cost best Hord.
  - left. split; [done |]. intros c Hc. by apply elem_of_nil in Hc.
  - rewrite fp_costs_cons_some in Hord. cbn [running_min].
    assert (best_cost ∈ best_cost :: c :: costs candidates) as Hb by by left.
    assert (c ∈ best_cost :: c :: costs candidates) as Hc
      by (right; by left).
    assert (forall x, x ∈ costs candidates ->
            x ∈ best_cost :: c :: costs candidates) as Hin
      by (intros x Hx; right; by right).
    destruct (flt fa c best_cost) eqn:Hlt.
    + right. destruct (IH c (Some a)) as [[Heq Hall] | (k & t & a' & Heq & Hk & Ht)].
      { eapply fp_ordered_subseteq; [| exact Hord].
        intros x [-> | Hx]%elem_of_cons; [done | by apply Hin]. }
      * exists 0%nat, c, a. split; [done |]. split; [| done].
        split; [done |]. split.
        -- intros [| j] c' a'' Hj; cbn in Hj.
           ++ inversion Hj; subst. by destruct (Hord c' c' c' Hc Hc Hc).
           ++ apply Hall. by eapply fp_elem_of_costs.
        -- intros j c' a'' Hj. lia.
      * destruct Hk as (Hk & Hmin & Hfirst).
        assert (t ∈ best_cost :: c :: costs candidates) as Ht'
          by (apply Hin; by eapply fp_elem_of_costs).
        exists (S k), t, a'. split; [done |]. split.
        -- split; [done |]. split.
           ++ intros [| j] c' a'' Hj; cbn in Hj.
              ** inversion Hj; subst.
                 destruct (flt fa c' t) eqn:Hct; [| done].
                 destruct (Hord t c' t Ht' Hc Ht') as (Hirr & Htr & _).
                 rewrite Htr in Hirr; done.
              ** by eapply Hmin.
           ++ intros [| j] c' a'' Hlt' Hj; cbn in Hj.
              ** by inversion Hj; subst.
              ** apply (Hfirst j c' a''); [lia | done].
        -- by destruct (Hord t c best_cost Ht' Hc Hb) as (_ & Htr & _); apply Htr.
    + destruct (IH best_cost best) as [[Heq Hall] | (k & t & a' & Heq & Hk & Ht)].
      { eapply fp_ordered_subseteq; [| exact Hord].
        intros x [-> | Hx]%elem_of_cons; [done | by apply Hin]. }
      * left. split; [done |].
        intros x [-> | Hx]%elem_of_cons; [done | by apply Hall].
      * right. destruct Hk as (Hk & Hmin & Hfirst).
        assert (t ∈ best_cost :: c :: costs candidates) as Ht'
          by (apply Hin; by eapply fp_elem_of_costs).
        assert (flt fa t c = true) as Htc.
        { destruct (Hord t c best_cost Ht' Hc Hb) as (_ & _ & Hco).
          destruct (Hco Ht) as [? | Hcb]; [done |]. by rewrite Hlt in Hcb. }
        exists (S k), t, a'. split; [done |]. split; [| done].
        split; [done |]. split.
        -- intros [| j] c' a'' Hj; cbn in Hj.
           ++ inversion Hj; subst.
              destruct (flt fa c' t) eqn:Hct; [| done].
              destruct (Hord t c' t Ht' Hc Ht') as (Hirr & Htr & _).
              rewrite Htr in Hirr; done.
           ++ by eapply Hmin.
        -- intros [| j] c' a'' Hlt' Hj; cbn in Hj.
           ++ by inversion Hj; subst.
           ++ apply (Hfirst j c' a''); [lia | done].
  - rewrite fp_costs_cons_none in Hord. cbn [running_min].
    destruct (IH best_cost best Hord) as [[Heq Hall] | (k & t & a' & Heq & Hk & Ht)].
    + by left.
    + right. destruct Hk as (Hk & Hmin & Hfirst).
      exists (S k), t, a'. split; [done |]. split; [| done].
      split; [done |]. split.
      * intros [| j] c' a'' Hj; cbn in Hj; [done | by eapply Hmin].
      * intros [| j] c' a'' Hlt' Hj; cbn in Hj; [done |].
        apply (Hfirst j c' a''); [lia | done].
Qed.

End RunningMin.

(** ** The exhaustive search in floating point *)

Section FpExhaustive.
Context {fa : arithmetic}.

Lemma fp_search_perms_running speed (loc : StopLocation fa) perms candidates :
  Forall2 (fun perm candidate =>
             exists t etas,
               walk_perm speed perm (num 0) loc ∅ = Returns (t, etas)
               /\ candidate = Some (t, (map Stop.id perm, etas)))
          perms candidates ->
  forall best_time best,
    search_perms speed loc perms best_time best
    = Returns (running_min candidates best_time best).
Proof.
  induction 1 as [| perm candidate perms candidates (t & etas & Hwalk & ->) _ IH];
    intros best_time best; [done |].
  cbn [search_perms running_min]. rewrite Hwalk. cbn [mbind outcome_bind].
  destruct (flt fa t best_time); apply IH.
Qed.



End FpExhaustive.


(** ** A round of the last-mile heuristic in floating point *)

Section FpRound.
Context {fa : arithmetic}.
Variables (stops_all : list (LastMileStop.t fa)) (unvisited : gset string)
  (current_loc : StopLocation fa) (cost : LastMileStop.t fa -> float fa).
Hypothesis Hcost :
  forall stop, stop ∈ stops_all -> LastMileStop.id stop ∈ unvisited ->
    effective_distance current_loc stop = Returns (cost stop).

Lemma fp_scan_unvisited_running stops nearest_id nearest_dist :
  stops ⊆ stops_all ->
  scan_unvisited stops unvisited current_loc nearest_id nearest_dist
  = Returns
      (snd (running_min (map (round_candidate unvisited cost) stops)
              nearest_dist nearest_id),
       fst (running_min (map (round_candidate unvisited cost) stops)
              nearest_dist nearest_id)).
Proof.
  revert nearest_id nearest_dist.
  induction stops as [| stop stops IH]; intros nearest_id nearest_dist Hsub;
    [done |].
  assert (stops ⊆ stops_all) as Hsub' by (intros x Hx; apply Hsub; by right).
  cbn [scan_unvisited map].
  destruct (decide (LastMileStop.id stop ∈ unvisited)) as [Hin | Hout].
  - assert (round_candidate unvisited cost stop
            = Some (cost stop, LastMileStop.id stop)) as ->.
    { unfold round_candidate. by rewrite bool_decide_eq_true_2. }
    rewrite bool_decide_eq_false_2 by (intros Hn; by apply Hn).
    rewrite Hcost; [| apply Hsub; by left | done].
    cbn [mbind outcome_bind running_min].
    destruct (flt fa (cost stop) nearest_dist); by apply IH.
  - assert (round_candidate unvisited cost stop = None) as ->.
    { unfold round_candidate. by rewrite bool_decide_eq_false_2. }
    rewrite (bool_decide_eq_true_2 _ Hout). cbn [running_min]. by apply IH.
Qed.

Lemma fp_round_candidate_lookup stops k t a :
  map (round_candidate unvisited cost) stops !! k = Some (Some (t, a)) ->
  exists stop,
    stops !! k = Some stop /\ LastMileStop.id stop ∈ unvisited
    /\ t = cost stop /\ a = LastMileStop.id stop.
Proof.
  change (map (round_candidate unvisited cost) stops)
    with (round_candidate unvisited cost <$> stops).
  rewrite list_lookup_fmap. destruct (stops !! k) as [stop |]; [| done].
  cbn. unfold round_candidate.
  destruct (bool_decide_reflect (LastMileStop.id stop ∈ unvisited)); [| done].
  intros [= <- <-]. by exists stop.
Qed.

Lemma fp_round_candidate_of stops k stop :
  stops !! k = Some stop -> LastMileStop.id stop ∈ unvisited ->
  map (round_candidate unvisited cost) stops !! k
  = Some (Some (cost stop, LastMileStop.id stop)).
Proof.
  intros Hk Hin.
  change (map (round_candidate unvisited cost) stops)
    with (round_candidate unvisited cost <$> stops).
  rewrite list_lookup_fmap, Hk. cbn. unfold round_candidate.
  by rewrite bool_decide_eq_true_2.
Qed.

End FpRound.

Lemma fp_next_stop_with_id_returns {fa : arithmetic}
    (stops : list (LastMileStop.t fa)) (stop : LastMileStop.t fa) :
  stop ∈ stops ->
  exists first,
    next_stop_with_id stops (LastMileStop.id stop) = Returns first
    /\ first ∈ stops /\ LastMileStop.id first = LastMileStop.id stop.
Proof.
  intros Hin. unfold next_stop_with_id.
  destruct (List.find _ stops) as [first |] eqn:Hfind.
  - apply find_some in Hfind as [Hfirst Hid].
    apply bool_decide_eq_true in Hid.
    exists first. by rewrite <- list_elem_of_In in Hfirst.
  - apply list_elem_of_In in Hin.
    apply (find_none _ _ Hfind) in Hin.
    by rewrite bool_decide_eq_true_2 in Hin.
Qed.

(** X15.  When the effective distance of every unvisited stop from the
    current position is computed, and these distances are ordered the way
    numbers are, a round of the last-mile heuristic returns.  It selects an
    unvisited stop whose computed effective distance is less than infinity
    and not more than that of any unvisited stop, the first of the input
    order among such stops: every unvisited stop before it has a larger one.
    The round removes the identifier from [unvisited], appends it to the
    sequence, adds the effective distance to the total and moves to the
    first stop that carries the identifier.  It changes nothing when no
    unvisited stop has an effective distance less than infinity, or when
    the selected identifier is the empty string. *)
Theorem nn_step_selects_first_least {fa : arithmetic}
    (stops : list (LastMileStop.t fa)) (st : nn_state)
    (cost : LastMileStop.t fa -> float fa) :
  let candidates := map (round_candidate (nn_unvisited st) cost) stops in
  (forall stop, stop ∈ stops -> LastMileStop.id stop ∈ nn_unvisited st ->
     effective_distance (nn_current_loc st) stop = Returns (cost stop)) ->
  ordered (inf fa :: costs candidates) ->
  exists st',
    nn_step stops st = Returns st'
    /\ ((st' = st
         /\ forall stop, stop ∈ stops -> LastMileStop.id stop ∈ nn_unvisited st ->
              flt fa (cost stop) (inf fa) = false)
        \/ exists k stop,
             stops !! k = Some stop
             /\ first_least candidates k (cost stop) (LastMileStop.id stop)
             /\ flt fa (cost stop) (inf fa) = true
             /\ ((LastMileStop.id stop = "" /\ st' = st)
                 \/ (LastMileStop.id stop <> ""
                     /\ exists first,
                          next_stop_with_id stops (LastMileStop.id stop)
                          = Returns first
                          /\ st' = {|
                               nn_unvisited :=
                                 nn_unvisited st ∖ {[LastMileStop.id stop]};
                               nn_optimized :=
                                 nn_optimized st ++ [LastMileStop.id stop];
                               nn_current_loc := LastMileStop.coordinates first;
                               nn_total_distance :=
                                 fadd fa (nn_total_distance st) (cost stop);
                               nn_route_path :=
                                 nn_route_path st
                                 ++ [LastMileStop.coordinates first]
                             |}))).
Proof.
  intros candidates Hcost Hord. unfold nn_step.
  rewrite (fp_scan_unvisited_running stops _ _ cost Hcost) by done.
  fold candidates. cbn [mbind outcome_bind].
  destruct (fp_running_min_spec candidates (inf fa) None Hord)
    as [[-> Hnone] | (k & t & a & -> & Hleast & Hlt)]; cbn [fst snd].
  - exists st. split; [done |]. left. split; [done |].
    intros stop [j Hj]%list_elem_of_lookup Hin. apply Hnone.
    eapply fp_elem_of_costs. by apply fp_round_candidate_of.
  - destruct (fp_round_candidate_lookup _ cost stops k t a (proj1 Hleast))
      as (stop & Hk & Hin & -> & ->).
    assert (stop ∈ stops) as Hstop by by eapply list_elem_of_lookup_2.
    destruct (truthy (LastMileStop.id stop)) eqn:Htruthy.
    + rewrite (bool_decide_eq_true_2 _ Hin).
      destruct (fp_next_stop_with_id_returns stops stop Hstop)
        as (first & Hnext & _).
      rewrite Hnext. cbn [mbind outcome_bind]. eexists. split; [reflexivity |]. right.
      exists k, stop. split; [done |]. split; [done |]. split; [done |].
      right. split; [by apply truthy_nonempty |]. by exists first.
    + exists st. split; [done |]. right.
      exists k, stop. split; [done |]. split; [done |]. split; [done |].
      left. split; [| done]. by destruct (LastMileStop.id stop).
Qed.

(** ** The priority discount in floating point *)



(** ** Failures of the distance *)

Section FpDistance.
Context {fa : arithmetic}.

Lemma fp_math_1_raises func (x : float fa) e :
  math_1 func x = Raises e -> e = ValueError.
Proof.
  unfold math_1. repeat case_match; congruence.
Qed.

Lemma fp_math_2_raises func (x y : float fa) e :
  math_2 func x y = Raises e -> e = ValueError \/ e = OverflowError.
Proof.
  unfold math_2. repeat case_match; intros [= <-]; auto.
Qed.

Lemma fp_math_1_fuel func (x : float fa) : math_1 func x <> OutOfFuel.
Proof. unfold math_1. by repeat case_match. Qed.

Lemma fp_math_2_fuel func (x y : float fa) : math_2 func x y <> OutOfFuel.
Proof. unfold math_2. by repeat case_match. Qed.

(** The distance raises nothing but the errors of [math], and it needs no
    fuel. *)
Lemma fp_calculate_distance_km_raises (loc1 loc2 : StopLocation fa) e :
  calculate_distance_km loc1 loc2 = Raises e ->
  e = ValueError \/ e = OverflowError.
Proof.
  unfold calculate_distance_km, haversine_a, math_sin, math_cos, math_sqrt,
    math_atan2.
  intros H.
  apply fp_bind_Raises_inv in H as [H | (a & _ & H)].
  { do 4 (apply fp_bind_Raises_inv in H as [H | (? & _ & H)];
          [left; by eapply fp_math_1_raises |]).
    done. }
  do 2 (apply fp_bind_Raises_inv in H as [H | (? & _ & H)];
        [left; by eapply fp_math_1_raises |]).
  apply fp_bind_Raises_inv in H as [H | (? & _ & H)]; [| done].
  by eapply fp_math_2_raises.
Qed.

Lemma fp_calculate_distance_km_fuel (loc1 loc2 : StopLocation fa) :
  calculate_distance_km loc1 loc2 <> OutOfFuel.
Proof.
  unfold calculate_distance_km, haversine_a, math_sin, math_cos, math_sqrt,
    math_atan2.
  intros H.
  apply fp_bind_fuel_inv in H as [H | (a & _ & H)].
  { do 4 (apply fp_bind_fuel_inv in H as [H | (? & _ & H)];
          [by eapply fp_math_1_fuel |]).
    done. }
  do 2 (apply fp_bind_fuel_inv in H as [H | (? & _ & H)];
        [by eapply fp_math_1_fuel |]).
  apply fp_bind_fuel_inv in H as [H | (? & _ & H)]; [| done].
  by eapply fp_math_2_fuel.
Qed.

End FpDistance.

(** C8 (what the code does).  In binary64 the quantity [a] of the haversine
    formula is computed as 1.0000000000000002 for the point
    (69.51232454868148, -46.70938587002465) and the point opposite to it:
    [1 - a] is negative, [math.sqrt] raises [ValueError], and so does
    [calculate_distance_km], in both directions.  From each of the two
    points to itself the distance is 0. *)
Theorem calculate_distance_km_raises_on_antipodes :
  (exists a,
     haversine_a Binary64.a_point Binary64.its_antipode = Returns a
     /\ flt Binary64.binary64 (num 1) a = true
     /\ math_sqrt (fsub Binary64.binary64 (num 1) a) = Raises ValueError)
  /\ calculate_distance_km Binary64.a_point Binary64.its_antipode
     = Raises ValueError
  /\ calculate_distance_km Binary64.its_antipode Binary64.a_point
     = Raises ValueError
  /\ calculate_distance_km Binary64.a_point Binary64.a_point
     = Returns (num 0)
  /\ calculate_distance_km Binary64.its_antipode Binary64.its_antipode
     = Returns (num 0).
Proof.
  split.
  { eexists. split; [vm_compute; reflexivity |].
    split; vm_compute; reflexivity. }
  split; [vm_compute; reflexivity |].
  split; [vm_compute; reflexivity |].
  split; vm_compute; reflexivity.
Qed.

(** ** Failures inside and outside the [try] of the learned path *)

Section FpFallback.
Context {fa : arithmetic}.

(** An exception of the feature construction is caught: the learned path
    answers with whatever the heuristic does. *)
Lemma fp_feature_failure_falls_back fuel (model : RouteGNN fa) request e :
  build_graph_from_stops (stops request) (vehiclePosition request) = Raises e ->
  ml_optimize_last_mile fuel (Some model) request
  = heuristic_optimize_last_mile fuel request.
Proof.
  intros Hgraph. unfold ml_optimize_last_mile.
  destruct (bool_decide _); [done |]. by rewrite Hgraph.
Qed.

(** So is an exception of the model. *)
Lemma fp_inference_failure_falls_back fuel (model : RouteGNN fa) request
    node_features num_stops e :
  build_graph_from_stops (stops request) (vehiclePosition request)
  = Returns (node_features, num_stops) ->
  edge_scorer model node_features num_stops = inl e ->
  ml_optimize_last_mile fuel (Some model) request
  = heuristic_optimize_last_mile fuel request.
Proof.
  intros Hgraph Hmodel. unfold ml_optimize_last_mile.
  destruct (bool_decide _); [done |]. rewrite Hgraph.
  cbn [mbind outcome_bind]. unfold forward. by rewrite Hmodel.
Qed.

(** An exception of the heuristic reaches the caller as the status 500. *)
Lemma fp_heuristic_failure_is_status_500 fuel
    (TRAINED_MODEL : option (RouteGNN fa)) request e :
  ml_optimize_last_mile fuel TRAINED_MODEL request = Raises e ->
  optimize_last_mile fuel TRAINED_MODEL request = Raises (HTTPException 500).
Proof. intros H. unfold optimize_last_mile. by rewrite H. Qed.

End FpFallback.

(** A feature construction that fails while the heuristic succeeds: the
    unloading time [2 ^ 1024] is too large for [float(...)], which only
    [build_graph_from_stops] calls.  The handler answers with the response
    of the heuristic, whatever the model. *)
Example unloading_too_large_falls_back
    (model : RouteGNN Binary64.binary64) :
  build_graph_from_stops (stops Binary64.unloading_too_large)
    (vehiclePosition Binary64.unloading_too_large)
  = Raises OverflowError
  /\ exists response,
       optimize_last_mile 2 (Some model) Binary64.unloading_too_large
       = Returns response
       /\ heuristic_optimize_last_mile 2 Binary64.unloading_too_large
          = Returns response
       /\ LastMileResponse.optimized_sequence response = ["m"; "p"].
Proof.
  assert (build_graph_from_stops (stops Binary64.unloading_too_large)
            (vehiclePosition Binary64.unloading_too_large)
          = Raises OverflowError) as Hgraph
    by (apply fp_raised_check; vm_compute; reflexivity).
  split; [exact Hgraph |].
  destruct (fp_returned_check LastMileResponse.optimized_sequence
              (heuristic_optimize_last_mile 2 Binary64.unloading_too_large)
              ["m"; "p"]) as (response & Hheuristic & Hseq);
    [vm_compute; reflexivity |].
  exists response. split; [| split; [exact Hheuristic | exact Hseq]].
  unfold optimize_last_mile.
  rewrite (fp_feature_failure_falls_back 2 model _ _ Hgraph).
  rewrite Hheuristic. reflexivity.
Qed.

(** C4 (what the code does).  Two stops on opposite sides of the globe, with
    valid coordinates and identifiers: the feature construction raises
    [ValueError] (from [calculate_distance_km]); the exception is caught, and
    the learned path runs the heuristic; the heuristic raises the same
    [ValueError] in its first round; and the handler raises
    [HTTPException(500)] to the caller.  This is so with and without a
    model. *)
Theorem last_mile_raises_on_antipodal_stops (fuel : nat)
    (TRAINED_MODEL : option (RouteGNN Binary64.binary64)) :
  build_graph_from_stops (stops Binary64.antipodal_stops)
    (vehiclePosition Binary64.antipodal_stops)
  = Raises ValueError
  /\ ml_optimize_last_mile (S fuel) TRAINED_MODEL Binary64.antipodal_stops
     = heuristic_optimize_last_mile (S fuel) Binary64.antipodal_stops
  /\ heuristic_optimize_last_mile (S fuel) Binary64.antipodal_stops
     = Raises ValueError
  /\ optimize_last_mile (S fuel) TRAINED_MODEL Binary64.antipodal_stops
     = Raises (HTTPException 500).
Proof.
  assert (build_graph_from_stops (stops Binary64.antipodal_stops)
            (vehiclePosition Binary64.antipodal_stops)
          = Raises ValueError) as Hgraph
    by (apply fp_raised_check; vm_compute; reflexivity).
  assert (heuristic_optimize_last_mile (S fuel) Binary64.antipodal_stops
          = Raises ValueError) as Hheuristic
    by (apply fp_raised_check; vm_compute; reflexivity).
  assert (ml_optimize_last_mile (S fuel) TRAINED_MODEL Binary64.antipodal_stops
          = heuristic_optimize_last_mile (S fuel) Binary64.antipodal_stops)
    as Hml.
  { destruct TRAINED_MODEL as [model |]; [| reflexivity].
    exact (fp_feature_failure_falls_back _ _ _ _ Hgraph). }
  split; [exact Hgraph |]. split; [exact Hml |]. split; [exact Hheuristic |].
  apply (fp_heuristic_failure_is_status_500 _ _ _ ValueError).
  rewrite Hml. exact Hheuristic.
Qed.

(** ** What the [/api/reroute] handler answers, in floating point *)

Section FpReroute.
Context {fa : arithmetic}.

Lemma fp_running_min_origin {A} (candidates : list (option (float fa * A)))
    best_cost best t a :
  running_min candidates best_cost best = (t, Some a) ->
  best = Some a \/ exists k c, candidates !! k = Some (Some (c, a)).
Proof.
  revert best_cost best.
  induction candidates as [| [[c a'] |] candidates IH]; intros best_cost best;
    cbn [running_min].
  - intros [= -> ->]. by left.
  - destruct (flt fa c best_cost).
    + intros [[= ->] | (k & c' & Hk)]%IH; right.
      * by exists 0%nat, c.
      * by exists (S k), c'.
    + intros [? | (k & c' & Hk)]%IH; [by left | right]. by exists (S k), c'.
  - intros [? | (k & c' & Hk)]%IH; [by left | right]. by exists (S k), c'.
Qed.

(** The search returns a pair only when every ordering has been walked. *)
Lemma fp_search_perms_inv speed (loc : StopLocation fa) perms best_time best
    result :
  search_perms speed loc perms best_time best = Returns result ->
  exists candidates,
    Forall2 (fun perm candidate =>
               exists t etas,
                 walk_perm speed perm (num 0) loc ∅ = Returns (t, etas)
                 /\ candidate = Some (t, (map Stop.id perm, etas)))
            perms candidates.
Proof.
  revert best_time best.
  induction perms as [| perm perms IH]; intros best_time best; cbn [search_perms].
  - intros _. exists []. constructor.
  - intros H. bind_inv H as [t etas] Hwalk.
    destruct (flt fa t best_time); apply IH in H as (candidates & Hall);
      exists (Some (t, (map Stop.id perm, etas)) :: candidates);
      (constructor; [by exists t, etas | done]).
Qed.

Lemma fp_exhaustive_search_inv (request : RerouteRequest fa) response :
  exhaustive_search_reroute request = Returns response ->
  exists best,
    best ≡ₚ remainingStops request
    /\ optimizedSequence response = map Stop.id best
    /\ timeSavings response = num 0
    /\ method response = "heuristic"
    /\ reason response
       = "Exhaustive search over "
         +:+ pretty (length (permutations (remainingStops request)))
         +:+ " permutations".
Proof.
  unfold exhaustive_search_reroute. cbv zeta. intros H.
  bind_inv H as [best_time best] Hsearch.
  destruct best as [[best_sequence best_etas] |]; [| done].
  inversion H; subst; clear H. cbn.
  destruct (fp_search_perms_inv _ _ _ _ _ _ Hsearch) as (candidates & Hall).
  rewrite (fp_search_perms_running _ _ _ _ Hall) in Hsearch.
  inversion Hsearch as [Hmin]; clear Hsearch.
  apply fp_running_min_origin in Hmin as [? | (k & c & Hk)]; [done |].
  destruct (Forall2_lookup_r _ _ _ _ _ Hall Hk)
    as (perm & Hperm & (t & etas & _ & Heq)).
  inversion Heq; subst. exists perm. split; [| done].
  apply permutations_spec, list_elem_of_In. by eapply list_elem_of_lookup_2.
Qed.

Lemma fp_nearest_loop_permutation fuel speed remaining
    (current_loc : StopLocation fa) sequence cumulative_time etas
    sequence' etas' :
  nearest_loop fuel speed remaining current_loc sequence cumulative_time etas
  = Returns (sequence', etas') ->
  sequence' ≡ₚ sequence ++ map Stop.id remaining.
Proof.
  revert remaining current_loc sequence cumulative_time etas.
  induction fuel as [| fuel IH];
    intros remaining current_loc sequence cumulative_time etas;
    destruct remaining as [| stop remaining]; cbn [nearest_loop].
  - intros [= <- <-]. by rewrite app_nil_r.
  - done.
  - intros [= <- <-]. by rewrite app_nil_r.
  - intros H. bind_inv H as [nearest_idx min_distance] Hscan.
    destruct ((stop :: remaining) !! nearest_idx) as [next_stop |] eqn:Hnext;
      [| done].
    cbv zeta in H. bind_inv H as unloading_time Hunloading.
    apply IH in H. rewrite H, <- app_assoc. apply Permutation_app_head.
    change ([Stop.id next_stop] ++ map Stop.id (delete nearest_idx (stop :: remaining)))
      with (map Stop.id (next_stop :: delete nearest_idx (stop :: remaining))).
    apply Permutation_map. symmetry. by apply delete_Permutation.
Qed.

Lemma fp_heuristic_reroute_inv fuel (request : RerouteRequest fa) response :
  heuristic_reroute fuel request = Returns response ->
  optimizedSequence response ≡ₚ map Stop.id (remainingStops request)
  /\ method response = "heuristic"
  /\ timeSavings response = num 0.
Proof.
  unfold heuristic_reroute. cbv zeta.
  destruct (bool_decide _); [by intros [= <-] |].
  destruct (bool_decide _).
  - intros (best & Hperm & -> & -> & -> & _)%fp_exhaustive_search_inv.
    split; [| done]. by apply Permutation_map.
  - intros H. bind_inv H as [sequence etas] Hloop.
    inversion H; subst; clear H. cbn. split; [| done].
    by apply fp_nearest_loop_permutation in Hloop.
Qed.

Lemma fp_ml_reroute_ignores_model fuel (TRAINED_MODEL : option (RouteGNN fa))
    request :
  ml_reroute fuel TRAINED_MODEL request = heuristic_reroute fuel request.
Proof.
  unfold ml_reroute. destruct TRAINED_MODEL; [| done].
  by destruct (heuristic_reroute fuel request).
Qed.

(** None of the loops of [/api/reroute] goes on for ever: the searches are
    [for] loops, and a round of [while remaining] removes a stop. *)
Lemma fp_float_of_int_fuel (n : Z) : float_of_int (fa := fa) n <> OutOfFuel.
Proof. unfold float_of_int. by destruct (of_int fa n). Qed.

Lemma fp_walk_perm_fuel speed perm total_time (loc : StopLocation fa) etas :
  walk_perm speed perm total_time loc etas <> OutOfFuel.
Proof.
  revert total_time loc etas.
  induction perm as [| stop perm IH]; intros total_time loc etas;
    cbn [walk_perm]; [done |].
  intros H.
  apply fp_bind_fuel_inv in H as [H | (dist & _ & H)];
    [by apply fp_calculate_distance_km_fuel in H |].
  apply fp_bind_fuel_inv in H as [H | (unloading & _ & H)];
    [by apply fp_float_of_int_fuel in H |].
  by apply IH in H.
Qed.

Lemma fp_search_perms_fuel speed (loc : StopLocation fa) perms best_time best :
  search_perms speed loc perms best_time best <> OutOfFuel.
Proof.
  revert best_time best.
  induction perms as [| perm perms IH]; intros best_time best;
    cbn [search_perms]; [done |].
  intros H.
  apply fp_bind_fuel_inv in H as [H | ([t etas] & _ & H)];
    [by apply fp_walk_perm_fuel in H |].
  destruct (flt fa t best_time); by apply IH in H.
Qed.

Lemma fp_exhaustive_search_fuel (request : RerouteRequest fa) :
  exhaustive_search_reroute request <> OutOfFuel.
Proof.
  unfold exhaustive_search_reroute. cbv zeta. intros H.
  apply fp_bind_fuel_inv in H as [H | ([t best] & _ & H)];
    [by apply fp_search_perms_fuel in H |].
  by destruct best as [[] |].
Qed.

(** What the exhaustive search can raise: the errors of the distance, of
    an unloading time too large for a float, and of a response without a
    sequence. *)
Lemma fp_float_of_int_raises (n : Z) e :
  float_of_int (fa := fa) n = Raises e -> e = OverflowError.
Proof. unfold float_of_int. destruct (of_int fa n); congruence. Qed.

Lemma fp_walk_perm_raises speed perm total_time (loc : StopLocation fa) etas e :
  walk_perm speed perm total_time loc etas = Raises e ->
  e = ValueError \/ e = OverflowError.
Proof.
  revert total_time loc etas.
  induction perm as [| stop perm IH]; intros total_time loc etas;
    cbn [walk_perm]; [done |].
  intros H.
  apply fp_bind_Raises_inv in H as [H | (dist & _ & H)];
    [by apply fp_calculate_distance_km_raises in H |].
  apply fp_bind_Raises_inv in H as [H | (unloading & _ & H)];
    [right; by apply fp_float_of_int_raises in H |].
  by apply IH in H.
Qed.

Lemma fp_search_perms_raises speed (loc : StopLocation fa) perms best_time
    best e :
  search_perms speed loc perms best_time best = Raises e ->
  e = ValueError \/ e = OverflowError.
Proof.
  revert best_time best.
  induction perms as [| perm perms IH]; intros best_time best;
    cbn [search_perms]; [done |].
  intros H.
  apply fp_bind_Raises_inv in H as [H | ([t etas] & _ & H)];
    [by apply fp_walk_perm_raises in H |].
  destruct (flt fa t best_time); by apply IH in H.
Qed.

Lemma fp_exhaustive_search_raises (request : RerouteRequest fa) e :
  exhaustive_search_reroute request = Raises e ->
  e = ValueError \/ e = OverflowError \/ e = ValidationError.
Proof.
  unfold exhaustive_search_reroute. cbv zeta. intros H.
  apply fp_bind_Raises_inv in H as [H | ([t best] & _ & H)].
  - apply fp_search_perms_raises in H as [-> | ->]; auto.
  - destruct best as [[] |]; [done |]. injection H as <-. auto.
Qed.

Lemma fp_scan_remaining_fuel (current_loc : StopLocation fa) remaining idx
    nearest_idx min_distance :
  scan_remaining current_loc remaining idx nearest_idx min_distance
  <> OutOfFuel.
Proof.
  revert idx nearest_idx min_distance.
  induction remaining as [| stop remaining IH];
    intros idx nearest_idx min_distance; cbn [scan_remaining]; [done |].
  intros H.
  apply fp_bind_fuel_inv in H as [H | (dist & _ & H)];
    [by apply fp_calculate_distance_km_fuel in H |].
  destruct (flt fa dist min_distance); by apply IH in H.
Qed.

Lemma fp_nearest_loop_fuel fuel speed remaining (current_loc : StopLocation fa)
    sequence cumulative_time etas :
  (length remaining <= fuel)%nat ->
  nearest_loop fuel speed remaining current_loc sequence cumulative_time etas
  <> OutOfFuel.
Proof.
  revert remaining current_loc sequence cumulative_time etas.
  induction fuel as [| fuel IH];
    intros remaining current_loc sequence cumulative_time etas Hlen;
    destruct remaining as [| stop remaining]; cbn [nearest_loop];
    [done | cbn in Hlen; lia | done |].
  intros H.
  apply fp_bind_fuel_inv in H as [H | ([nearest_idx min_distance] & _ & H)];
    [by apply fp_scan_remaining_fuel in H |].
  destruct ((stop :: remaining) !! nearest_idx) as [next_stop |] eqn:Hnext;
    [| done].
  cbv zeta in H.
  apply fp_bind_fuel_inv in H as [H | (unloading & _ & H)];
    [by apply fp_float_of_int_fuel in H |].
  apply IH in H; [done |].
  rewrite length_delete by done. cbn in Hlen |- *. lia.
Qed.

Lemma fp_heuristic_reroute_fuel fuel (request : RerouteRequest fa) :
  (length (remainingStops request) <= fuel)%nat ->
  heuristic_reroute fuel request <> OutOfFuel.
Proof.
  intros Hlen. unfold heuristic_reroute. cbv zeta.
  destruct (bool_decide _); [done |].
  destruct (bool_decide _); [apply fp_exhaustive_search_fuel |].
  intros H.
  apply fp_bind_fuel_inv in H as [H | ([sequence etas] & _ & H)]; [| done].
  by apply fp_nearest_loop_fuel in H.
Qed.

End FpReroute.

(** X4.  The enumeration of the exhaustive search has [n!] orderings of the
    [n] stops.  Whenever the search returns a response, its reason names
    that number, its method is ["heuristic"], and its sequence lists the
    identifiers of one of the orderings.  The search always comes to an
    end; when it returns no response, it raises [ValueError] (from a
    function of [math] in a distance), [OverflowError] (an unloading time
    too large for a float) or the validation error of a response without
    a sequence (no total time is less than infinity). *)
Theorem exhaustive_search_names_factorial {fa : arithmetic}
    (request : RerouteRequest fa) :
  let n := length (remainingStops request) in
  length (permutations (remainingStops request)) = fact n
  /\ (forall response,
        exhaustive_search_reroute request = Returns response ->
        reason response
        = "Exhaustive search over " +:+ pretty (fact n) +:+ " permutations"
        /\ method response = "heuristic"
        /\ exists best,
             best ≡ₚ remainingStops request
             /\ optimizedSequence response = map Stop.id best)
  /\ (forall e,
        exhaustive_search_reroute request = Raises e ->
        e = ValueError \/ e = OverflowError \/ e = ValidationError)
  /\ exhaustive_search_reroute request <> OutOfFuel.
Proof.
  intros n.
  assert (length (permutations (remainingStops request)) = fact n) as Hfact
    by by apply length_permutations_of_length.
  split; [done |]. split; [| split].
  - intros response
      (best & Hperm & Hseq & _ & Hmethod & Hreason)%fp_exhaustive_search_inv.
    split; [by rewrite Hreason, Hfact |]. split; [done |]. by exists best.
  - apply fp_exhaustive_search_raises.
  - apply fp_exhaustive_search_fuel.
Qed.

Lemma exhaustive_search_names_factorial_witness :
  exists response,
    exhaustive_search_reroute Binary64.east_then_west = Returns response
    /\ reason response = "Exhaustive search over 2 permutations".
Proof.
  destruct (fp_returned_check reason
              (exhaustive_search_reroute Binary64.east_then_west)
              "Exhaustive search over 2 permutations")
    as (response & Hret & Hreason); [vm_compute; reflexivity |].
  exists response. split; [exact Hret |].
  exact (proj1 (proj1 (proj2 (exhaustive_search_names_factorial
                                Binary64.east_then_west))
                  response Hret)).
Defined.

(** X5.  A loaded model changes nothing in what [/api/reroute] answers.
    Whenever the handler returns a response, the response lists a
    permutation of the identifiers of the remaining stops, repeated
    identifiers included, with method ["heuristic"] and time savings 0; the
    only exception that reaches the caller is [HTTPException(500)]; and the
    handler comes to an end, within one round of the nearest-neighbour loop
    per stop. *)
Theorem reroute_outcomes {fa : arithmetic} (fuel : nat)
    (TRAINED_MODEL : option (RouteGNN fa)) (request : RerouteRequest fa) :
  reroute fuel TRAINED_MODEL request = reroute fuel None request
  /\ (forall response,
        reroute fuel TRAINED_MODEL request = Returns response ->
        optimizedSequence response ≡ₚ map Stop.id (remainingStops request)
        /\ method response = "heuristic"
        /\ timeSavings response = num 0)
  /\ (forall e,
        reroute fuel TRAINED_MODEL request = Raises e ->
        e = HTTPException 500)
  /\ ((length (remainingStops request) <= fuel)%nat ->
      reroute fuel TRAINED_MODEL request <> OutOfFuel).
Proof.
  unfold reroute. rewrite !fp_ml_reroute_ignores_model.
  split; [done |]. split; [| split].
  - intros response H. apply fp_heuristic_reroute_inv with fuel.
    by destruct (heuristic_reroute fuel request).
  - intros e H. destruct (heuristic_reroute fuel request); cbn in H; congruence.
  - intros Hlen H. apply (fp_heuristic_reroute_fuel fuel request Hlen).
    by destruct (heuristic_reroute fuel request).
Qed.

Lemma reroute_outcomes_witness :
  exists response,
    reroute 7 None Binary64.seven_stops = Returns response
    /\ optimizedSequence response
       ≡ₚ map Stop.id (remainingStops Binary64.seven_stops).
Proof.
  destruct (fp_returned_check method
              (reroute 7 None Binary64.seven_stops) "heuristic")
    as (response & Hret & _); [vm_compute; reflexivity |].
  exists response. split; [exact Hret |].
  exact (proj1 (proj1 (proj2 (reroute_outcomes 7 None Binary64.seven_stops))
                  response Hret)).
Defined.

(** ** The nearest-neighbour loop of [heuristic_reroute] in floating point *)

Section FpNearest.
Context {fa : arithmetic}.
Variable dist : StopLocation fa -> StopLocation fa -> float fa.

Lemma fp_running_min_some {A} (candidates : list (option (float fa * A)))
    best_cost a :
  exists a', snd (running_min candidates best_cost (Some a)) = Some a'.
Proof.
  revert best_cost a.
  induction candidates as [| [[c a'] |] candidates IH]; intros best_cost a;
    cbn [running_min]; [by exists a | | by apply IH].
  destruct (flt fa c best_cost); by apply IH.
Qed.

(** The initial [best] of a running minimum matters only when no cost is
    less than the initial cost. *)
Lemma fp_running_min_none {A} (candidates : list (option (float fa * A)))
    best_cost best :
  fst (running_min candidates best_cost best)
  = fst (running_min candidates best_cost None)
  /\ snd (running_min candidates best_cost best)
     = match snd (running_min candidates best_cost None) with
       | Some a => Some a
       | None => best
       end.
Proof.
  revert best_cost best.
  induction candidates as [| [[c a] |] candidates IH]; intros best_cost best;
    cbn [running_min]; [done | | by apply IH].
  destruct (flt fa c best_cost); [| by apply IH].
  split; [done |].
  by destruct (fp_running_min_some candidates c a) as (a' & ->).
Qed.

Lemma fp_indexed_candidates_lookup loc idx remaining j c i :
  indexed_candidates dist loc idx remaining !! j = Some (Some (c, i)) ->
  i = (idx + j)%nat
  /\ exists stop,
       remaining !! j = Some stop /\ c = dist loc (Stop.location stop).
Proof.
  revert idx j. induction remaining as [| stop remaining IH]; intros idx j;
    [done |].
  destruct j as [| j]; cbn.
  - intros [= <- <-]. split; [lia |]. by exists stop.
  - intros [-> Hj]%IH. split; [lia | done].
Qed.

Lemma fp_indexed_candidates_costs loc idx remaining :
  costs (indexed_candidates dist loc idx remaining)
  = map (fun stop => dist loc (Stop.location stop)) remaining.
Proof.
  revert idx. induction remaining as [| stop remaining IH]; intros idx; [done |].
  cbn [indexed_candidates map]. by rewrite fp_costs_cons_some, IH.
Qed.

Lemma fp_scan_remaining_running loc remaining idx nearest_idx min_distance :
  (forall stop, stop ∈ remaining ->
     calculate_distance_km loc (Stop.location stop)
     = Returns (dist loc (Stop.location stop))) ->
  let result :=
    running_min (indexed_candidates dist loc idx remaining) min_distance None in
  scan_remaining loc remaining idx nearest_idx min_distance
  = Returns (default nearest_idx (snd result), fst result).
Proof.
  revert idx nearest_idx min_distance.
  induction remaining as [| stop remaining IH];
    intros idx nearest_idx min_distance Hdist; [done |].
  assert (forall s, s ∈ remaining ->
          calculate_distance_km loc (Stop.location s)
          = Returns (dist loc (Stop.location s))) as Hdist'
    by (intros s Hs; apply Hdist; by right).
  cbn [scan_remaining indexed_candidates running_min].
  rewrite Hdist by by left. cbn [mbind outcome_bind].
  destruct (flt fa (dist loc (Stop.location stop)) min_distance).
  - rewrite IH by done. cbv zeta.
    destruct (fp_running_min_none
                (indexed_candidates dist loc (S idx) remaining)
                (dist loc (Stop.location stop)) (Some idx)) as [-> ->].
    by destruct (snd (running_min _ _ None)).
  - by rewrite IH.
Qed.

Variables (speed : float fa) (stops_all : list (Stop.t fa))
  (start : StopLocation fa).

Let points : list (StopLocation fa) := start :: map Stop.location stops_all.

Hypothesis Hdist :
  forall p q, p ∈ points -> q ∈ points ->
    calculate_distance_km p q = Returns (dist p q)
    /\ flt fa (dist p q) (inf fa) = true.
Hypothesis Hord :
  forall p, p ∈ points ->
    ordered (inf fa
             :: map (fun stop => dist p (Stop.location stop)) stops_all).
Hypothesis Hunloading :
  forall stop, stop ∈ stops_all ->
    exists u : float fa,
      float_of_int (or_zero (Stop.unloadingTimeMinutes stop)) = Returns u.

Lemma fp_nearest_loop_follows fuel remaining loc sequence cumulative_time etas :
  remaining ⊆ stops_all -> loc ∈ points ->
  (length remaining <= fuel)%nat ->
  exists route etas',
    nearest_loop fuel speed remaining loc sequence cumulative_time etas
    = Returns (sequence ++ map Stop.id route, etas')
    /\ nearest_route dist loc remaining route.
Proof.
  revert remaining loc sequence cumulative_time etas.
  induction fuel as [| fuel IH];
    intros remaining loc sequence cumulative_time etas Hsub Hloc Hfuel;
    destruct remaining as [| stop0 remaining0].
  - exists [], etas. cbn. rewrite app_nil_r. split; [done | constructor].
  - cbn in Hfuel. lia.
  - exists [], etas. cbn. rewrite app_nil_r. split; [done | constructor].
  - set (remaining := stop0 :: remaining0) in *.
    assert (forall stop, stop ∈ remaining ->
            Stop.location stop ∈ points) as Hpoints.
    { intros stop Hstop%Hsub. right. by apply list_elem_of_fmap_2. }
    assert (forall stop, stop ∈ remaining ->
            calculate_distance_km loc (Stop.location stop)
            = Returns (dist loc (Stop.location stop))) as Hreturns.
    { intros stop Hstop. by apply Hdist; [| apply Hpoints]. }
    assert (ordered (inf fa :: costs (indexed_candidates dist loc 0 remaining)))
      as Hord'.
    { rewrite fp_indexed_candidates_costs.
      eapply fp_ordered_subseteq; [| exact (Hord loc Hloc)].
      intros x [-> | Hx]%elem_of_cons; [by left | right].
      apply list_elem_of_fmap in Hx as (stop & -> & Hstop).
      apply list_elem_of_fmap. exists stop. split; [done | by apply Hsub]. }
    destruct (fp_running_min_spec _ (inf fa) None Hord')
      as [[_ Hnone] | (k & t & i & Hmin & Hleast & _)].
    { assert (stop0 ∈ remaining) as H0 by by left.
      destruct (Hdist loc (Stop.location stop0) Hloc (Hpoints _ H0))
        as [_ Hfinite].
      rewrite Hnone in Hfinite; [done |].
      rewrite fp_indexed_candidates_costs.
      apply list_elem_of_fmap. by exists stop0. }
    destruct (fp_indexed_candidates_lookup _ _ _ _ _ _ (proj1 Hleast))
      as (-> & stop & Hk & ->).
    assert (stop ∈ remaining) as Hstop by by eapply list_elem_of_lookup_2.
    destruct (Hunloading stop (Hsub _ Hstop)) as (u & Hu).
    edestruct (IH (delete k remaining) (Stop.location stop)
                 (sequence ++ [Stop.id stop]))
      as (route & etas' & Hloop & Hroute).
    { intros x Hx. by eapply Hsub, list_elem_of_delete_inv. }
    { by apply Hpoints. }
    { rewrite length_delete by done. unfold remaining in *. cbn in Hfuel |- *.
      lia. }
    exists (stop :: route), etas'. split; [| by econstructor].
    change (nearest_loop (S fuel) speed remaining loc sequence
              cumulative_time etas)
      with ('(nearest_idx, min_distance) ←
              scan_remaining loc remaining 0 0 (inf fa);
            match remaining !! nearest_idx with
            | None => Raises IndexError
            | Some next_stop =>
                unloading_time ←
                  float_of_int (or_zero (Stop.unloadingTimeMinutes next_stop));
                nearest_loop fuel speed (delete nearest_idx remaining)
                  (Stop.location next_stop)
                  (sequence ++ [Stop.id next_stop])
                  (fadd fa cumulative_time
                     (fadd fa
                        (fmul fa (fdiv fa min_distance speed) (num 60))
                        unloading_time))
                  (<[Stop.id next_stop :=
                       fadd fa cumulative_time
                         (fadd fa
                            (fmul fa (fdiv fa min_distance speed) (num 60))
                            unloading_time)]> etas)
            end).
    rewrite (fp_scan_remaining_running loc remaining 0 0 (inf fa) Hreturns).
    cbv zeta. rewrite Hmin. cbn [mbind outcome_bind fst snd default].
    change (Datatypes.id (0 + k)%nat) with k.
    rewrite Hk, Hu. cbn [mbind outcome_bind].
    rewrite Hloop. by rewrite <- app_assoc.
Qed.

End FpNearest.

(** X8.  Take a request of more than six stops in which the distance
    between any two of the positions (the current location and the stops) is
    computed and less than infinity, the distances from each position are
    ordered the way numbers are, and every unloading time fits a float.
    Then [heuristic_reroute] returns (given one round of its loop per
    stop), and its sequence is a nearest route from the current location:
    each stop is, among the stops not yet visited, one whose computed
    distance from the previous position is not more than that of any other,
    and every remaining stop before it in the input order is farther. *)
Theorem heuristic_reroute_follows_nearest_stops {fa : arithmetic} (fuel : nat)
    (request : RerouteRequest fa)
    (dist : StopLocation fa -> StopLocation fa -> float fa) :
  let stops := remainingStops request in
  let points := currentLocation request :: map Stop.location stops in
  (6 < length stops <= fuel)%nat ->
  (forall p q, p ∈ points -> q ∈ points ->
     calculate_distance_km p q = Returns (dist p q)
     /\ flt fa (dist p q) (inf fa) = true) ->
  (forall p, p ∈ points ->
     ordered (inf fa :: map (fun stop => dist p (Stop.location stop)) stops)) ->
  (forall stop, stop ∈ stops ->
     exists u : float fa,
       float_of_int (or_zero (Stop.unloadingTimeMinutes stop)) = Returns u) ->
  exists route response,
    heuristic_reroute fuel request = Returns response
    /\ nearest_route dist (currentLocation request) stops route
    /\ optimizedSequence response = map Stop.id route.
Proof.
  intros stops points Hlen Hdist Hord Hunloading.
  destruct (fp_nearest_loop_follows dist (base_speed request) stops
              (currentLocation request) Hdist Hord Hunloading fuel stops
              (currentLocation request) [] (num 0) ∅)
    as (route & etas & Hloop & Hroute); [done | by left | lia |].
  exists route. eexists. split.
  - unfold heuristic_reroute. cbv zeta. fold stops.
    rewrite !bool_decide_eq_false_2 by lia.
    rewrite Hloop. cbn [mbind outcome_bind]. reflexivity.
  - done.
Qed.

Lemma heuristic_reroute_follows_nearest_stops_witness :
  exists response,
    heuristic_reroute 7 Binary64.seven_stops = Returns response
    /\ optimizedSequence response = ["s5"; "m"; "s4"; "s7"; "p"; "s3"; "s6"].
Proof.
  destruct (heuristic_reroute_follows_nearest_stops 7 Binary64.seven_stops
              Binary64.distance)
    as (route & response & Hret & _).
  - cbn. lia.
  - intros p q Hp Hq. cbn in Hp, Hq.
    repeat (apply elem_of_cons in Hp as [-> | Hp]);
      try (by apply elem_of_nil in Hp);
      repeat (apply elem_of_cons in Hq as [-> | Hq]);
      try (by apply elem_of_nil in Hq);
      split; vm_compute; reflexivity.
  - intros p Hp. cbn in Hp. apply fp_ordered_check.
    repeat (apply elem_of_cons in Hp as [-> | Hp]);
      try (by apply elem_of_nil in Hp); vm_compute; reflexivity.
  - intros stop Hstop. cbn in Hstop. eexists.
    repeat (apply elem_of_cons in Hstop as [-> | Hstop]);
      try (by apply elem_of_nil in Hstop); vm_compute; reflexivity.
  - exists response. split; [exact Hret |].
    destruct (fp_returned_check optimizedSequence
                (heuristic_reroute 7 Binary64.seven_stops)
                ["s5"; "m"; "s4"; "s7"; "p"; "s3"; "s6"])
      as (response' & Hret' & Hseq); [vm_compute; reflexivity |].
    rewrite Hret in Hret'. by injection Hret' as ->.
Defined.

(** ** The properties on sample inputs, in binary64 *)


Lemma nn_step_selects_first_least_witness :
  exists st',
    nn_step (stops Binary64.lm_east_then_west)
      (Binary64.first_round Binary64.lm_east_then_west (Binary64.equator 2))
    = Returns st'
    /\ nn_optimized st' = ["m"].
Proof.
  destruct (nn_step_selects_first_least (stops Binary64.lm_east_then_west)
              (Binary64.first_round Binary64.lm_east_then_west
                 (Binary64.equator 2))
              (Binary64.cost_from (Binary64.equator 2)))
    as (st' & Hstep & _).
  - intros stop Hstop _. cbn in Hstop.
    apply elem_of_cons in Hstop as [-> | Hstop]; [vm_compute; reflexivity |].
    apply elem_of_cons in Hstop as [-> | Hstop]; [vm_compute; reflexivity |].
    by apply elem_of_nil in Hstop.
  - apply fp_ordered_check. vm_compute. reflexivity.
  - exists st'. split; [exact Hstep |].
    destruct (fp_returned_check nn_optimized
                (nn_step (stops Binary64.lm_east_then_west)
                   (Binary64.first_round Binary64.lm_east_then_west
                      (Binary64.equator 2)))
                ["m"]) as (st'' & Hstep' & Hopt);
      [vm_compute; reflexivity |].
    rewrite Hstep in Hstep'. by injection Hstep' as ->.
Defined.


(** With a repeated identifier the round can move to the normal stop: the
    third stop of this request shares the identifier of the normal stop and
    is at distance 0, so that the identifier ["n"] is selected, and the
    round moves to the first stop that carries it, the normal stop at
    longitude 180. *)
Example repeated_identifier_hides_priority :
  returned (fun st => (nn_optimized st,
                       lat (nn_current_loc st), lng (nn_current_loc st)))
    (nn_step (stops Binary64.tie_with_repeated_identifier)
       (Binary64.first_round Binary64.tie_with_repeated_identifier
          (Binary64.equator 0)))
  = Some (["n"], lat (Binary64.equator 180), lng (Binary64.equator 180)).
Proof. vm_compute. reflexivity. Qed.

End FpFacts.
